(** * Request-scoped telemetry of the function host: log buffer, enriching
      logger, event emitter and context wiring.

    Shallow embedding of [src/host/logging.ts], [src/host/emitter.ts] and
    [src/host/context.ts].

    Conventions of the embedding:
    - JavaScript numbers are doubles: every finite double is a rational, so
      clock readings and rates are [Q], and counts and sizes are [Z]. A
      quotient, a product with 1000 and the sum that makes a deadline are
      rounded to the nearest double ([nearest_double], [to_double]). The
      difference of two clock readings is taken exactly: it is the code's
      difference whenever both are whole numbers of milliseconds below
      2 ^ 53, and the theorems that depend on its value say so. Signed
      zeros are not told apart.
    - Strings are byte strings; [.length] is [String.length], which agrees
      with the UTF-16 length on ASCII text.
    - A JavaScript object used as a record or dictionary is an association
      list in insertion order; [Object.entries] and [JSON.stringify] list
      its array indices first, in ascending order ([entries]). A lookup in
      a plain object also finds what [Object.prototype] holds
      ([inherited]).
    - Asynchrony is explicit: each class is a state machine whose steps are
      the method calls and the callbacks the event loop may run (immediates,
      timers, promise settlements, [then] continuations). *)

From Stdlib Require Import ZArith QArith Qround Qpower Qabs Bool List Ascii String.
From Stdlib Require Import Lia Lqa DecimalString Permutation.
From Stdlib Require Floats.

Set Warnings "-register-all".
Import ListNotations.

Open Scope Z_scope.

(** ** JavaScript values *)

Module JS.

Infix "+++" := String.append (right associativity, at level 60).

(** Objects: own enumerable string-keyed properties, in insertion order. *)
Definition Obj (V : Type) : Type := list (string * V).

Fixpoint get {V} (o : Obj V) (k : string) : option V :=
  match o with
  | [] => None
  | (k', v) :: o' => if String.eqb k' k then Some v else get o' k
  end.

(** [o[k] = v]: an existing key keeps its position, a new key goes last. *)
Fixpoint set {V} (o : Obj V) (k : string) (v : V) : Obj V :=
  match o with
  | [] => [(k, v)]
  | (k', v') :: o' =>
      if String.eqb k' k then (k', v) :: o' else (k', v') :: set o' k v
  end.

(** The [Json] type of [src/context.ts], with [undefined] added because
    object literals of the host carry undefined properties. Numbers are the
    integers. *)
Inductive Json : Type :=
| JUndefined
| JNull
| JBool (b : bool)
| JNumber (n : Z)
| JString (s : string)
| JArray (items : list Json)
| JObject (props : list (string * Json)).

Definition of_option_string (s : option string) : Json :=
  match s with
  | Some x => JString x
  | None => JUndefined
  end.

Definition of_option_number (n : option Z) : Json :=
  match n with
  | Some x => JNumber x
  | None => JUndefined
  end.

(** [Number.prototype.toString] on a safe integer (of magnitude at most
    [2 ^ 53 - 1]): all its decimal digits. *)
Definition Number_toString (n : Z) : string :=
  NilZero.string_of_int (Z.to_int n).

(** The number a property key stands for when it is an array index: the
    canonical decimal text of a whole number below [2 ^ 32 - 1]. *)
Definition array_index (k : string) : option Z :=
  match NilEmpty.uint_of_string k with
  | Some u =>
      let n := Z.of_uint u in
      if String.eqb (Number_toString n) k && (n <? 4294967295) then Some n else None
  | None => None
  end.

Fixpoint insert_index {V} (n : Z) (kv : string * V) (l : list (Z * (string * V)))
    : list (Z * (string * V)) :=
  match l with
  | [] => [(n, kv)]
  | (n', kv') :: l' =>
      if n <? n' then (n, kv) :: l else (n', kv') :: insert_index n kv l'
  end.

(** The properties whose key is an array index, in ascending order. *)
Fixpoint indexed {V} (o : Obj V) : list (Z * (string * V)) :=
  match o with
  | [] => []
  | kv :: o' =>
      match array_index (fst kv) with
      | Some n => insert_index n kv (indexed o')
      | None => indexed o'
      end
  end.

(** The other properties, in the order they were created. *)
Definition named {V} (o : Obj V) : Obj V :=
  filter (fun kv => match array_index (fst kv) with
                    | Some _ => false
                    | None => true
                    end) o.

(** [Object.entries(o)], which is also the order in which
    [JSON.stringify] prints the properties. *)
Definition entries {V} (o : Obj V) : list (string * V) :=
  map snd (indexed o) ++ named o.

(** [{...o, ...src}] continues the literal [o] with the properties of
    [src], copied in the order of [entries]. *)
Definition spread {V} (o src : Obj V) : Obj V :=
  fold_left (fun acc kv => set acc (fst kv) (snd kv)) (entries src) o.

(** [...x] where [x] may be [undefined]. *)
Definition spread_opt {V} (o : Obj V) (src : option (Obj V)) : Obj V :=
  match src with
  | Some s => spread o s
  | None => o
  end.

(** The properties every plain object inherits from [Object.prototype]. *)
Definition Object_prototype : list string :=
  ["constructor"; "__defineGetter__"; "__defineSetter__"; "hasOwnProperty";
   "__lookupGetter__"; "__lookupSetter__"; "isPrototypeOf";
   "propertyIsEnumerable"; "toString"; "valueOf"; "__proto__";
   "toLocaleString"]%string.

Definition inherited (k : string) : bool :=
  existsb (String.eqb k) Object_prototype.

Fixpoint repeat_char (c : ascii) (n : nat) : string :=
  match n with
  | O => EmptyString
  | S n' => String c (repeat_char c n')
  end.

(** [s.padStart(n, c)] for a one-character filler. *)
Definition padStart (n : nat) (c : ascii) (s : string) : string :=
  repeat_char c (n - String.length s) +++ s.

Definition hex_digit (n : nat) : ascii :=
  match n with
  | 0 => "0" | 1 => "1" | 2 => "2" | 3 => "3" | 4 => "4" | 5 => "5"
  | 6 => "6" | 7 => "7" | 8 => "8" | 9 => "9" | 10 => "a" | 11 => "b"
  | 12 => "c" | 13 => "d" | 14 => "e" | _ => "f"
  end%nat%char.

Definition dquote : ascii := "034"%char.
Definition backslash : ascii := "092"%char.

(** One character of a JSON string literal ([QuoteJSONString]). *)
Definition quote_char (c : ascii) : string :=
  let n := nat_of_ascii c in
  if Nat.eqb n 34 then String backslash (String dquote EmptyString)
  else if Nat.eqb n 92 then String backslash (String backslash EmptyString)
  else if Nat.eqb n 8 then String backslash "b"
  else if Nat.eqb n 9 then String backslash "t"
  else if Nat.eqb n 10 then String backslash "n"
  else if Nat.eqb n 12 then String backslash "f"
  else if Nat.eqb n 13 then String backslash "r"
  else if Nat.ltb n 32 then
    String backslash
      (String "u" (String "0" (String "0"
        (String (hex_digit (n / 16)) (String (hex_digit (n mod 16)) EmptyString)))))
  else String c EmptyString.

Fixpoint quote_body (s : string) : string :=
  match s with
  | EmptyString => EmptyString
  | String c s' => quote_char c +++ quote_body s'
  end.

Definition quote (s : string) : string :=
  String dquote (quote_body s +++ String dquote EmptyString).

Fixpoint join (sep : string) (parts : list string) : string :=
  match parts with
  | [] => EmptyString
  | [p] => p
  | p :: ps => p +++ sep +++ join sep ps
  end.

(** [JSON.stringify]; [None] is the result [undefined]. Undefined
    properties of an object are left out, undefined array items print as
    [null]; the properties are printed in the order of [entries]. *)
Fixpoint JSON_stringify (j : Json) : option string :=
  match j with
  | JUndefined => None
  | JNull => Some "null"%string
  | JBool b => Some (if b then "true" else "false")%string
  | JNumber n => Some (Number_toString n)
  | JString s => Some (quote s)
  | JArray items =>
      Some ("[" +++
            join ","
              (map (fun x => match JSON_stringify x with
                             | Some s => s
                             | None => "null"%string
                             end) items)
            +++ "]")
  | JObject props =>
      Some ("{" +++
            join ","
              (flat_map (fun kv => match snd kv with
                                   | Some s => [quote (fst kv) +++ ":" +++ s]
                                   | None => []
                                   end)
                 (entries (map (fun kv => (fst kv, JSON_stringify (snd kv))) props)))
            +++ "}")
  end.

(** [JSON.stringify] of an object literal is always a string. *)
Definition JSON_stringify_object (props : list (string * Json)) : string :=
  match JSON_stringify (JObject props) with
  | Some s => s
  | None => EmptyString
  end.

(** [Math.round]: the nearest integer, ties towards plus infinity. *)
Definition Math_round (x : Q) : Z := Qfloor (x + (1 # 2)).

(** Truncation towards zero, as the [Date] constructor applies to its
    time value. *)
Definition trunc (x : Q) : Z := Z.quot (Qnum x) (Zpos (Qden x)).

(** Proleptic Gregorian date of a day number counted from 1970-01-01. *)
Definition civil_from_days (days : Z) : Z * Z * Z :=
  let z := days + 719468 in
  let era := z / 146097 in
  let doe := z - era * 146097 in
  let yoe := (doe - doe / 1460 + doe / 36524 - doe / 146096) / 365 in
  let doy := doe - (365 * yoe + yoe / 4 - yoe / 100) in
  let mp := (5 * doy + 2) / 153 in
  let d := doy - (153 * mp + 2) / 5 + 1 in
  let m := if mp <? 10 then mp + 3 else mp - 9 in
  let y := yoe + era * 400 in
  (if m <=? 2 then y + 1 else y, m, d).

Definition digits (width : nat) (n : Z) : string :=
  padStart width "0" (Number_toString n).

Definition iso_year (y : Z) : string :=
  if (0 <=? y) && (y <=? 9999) then digits 4 y
  else if y <? 0 then "-" +++ digits 6 (- y)
  else "+" +++ digits 6 y.

(** [new Date(tv).toISOString()] for a time value in the range of [Date]
    (at most 8.64e15 ms from the epoch). *)
Definition Date_toISOString (tv : Q) : string :=
  let ms := trunc tv in
  let days := ms / 86400000 in
  let rest := ms mod 86400000 in
  let '(y, m, d) := civil_from_days days in
  iso_year y +++ "-" +++ digits 2 m +++ "-" +++ digits 2 d +++ "T" +++
  digits 2 (rest / 3600000) +++ ":" +++
  digits 2 (rest / 60000 mod 60) +++ ":" +++
  digits 2 (rest / 1000 mod 60) +++ "." +++
  digits 3 (rest mod 1000) +++ "Z".

(** *** Doubles

    The result of an arithmetic operation is the double nearest to the
    exact result, ties to the even significand: 53 bits, the exponent of
    the last bit at least -1074. *)

Definition pow2 (k : Z) : Q := (2 ^ k)%Q.

(** The binary exponent of a positive number:
    [2 ^ ilog2 q <= q < 2 ^ (ilog2 q + 1)]. *)
Definition ilog2 (q : Q) : Z :=
  let k := Z.log2 (Qnum q) - Z.log2 (Zpos (Qden q)) in
  if Qle_bool (pow2 k) q then k else k - 1.

(** The nearest whole number, ties to the even one. *)
Definition round_half_even (x : Q) : Z :=
  let f := Qfloor x in
  match Qcompare (x - inject_Z f) (1 # 2) with
  | Lt => f
  | Gt => f + 1
  | Eq => if Z.even f then f else f + 1
  end.

(** The nearest double of a number, as long as it is finite. *)
Definition nearest_double (q : Q) : Q :=
  if Qeq_bool q 0 then 0%Q
  else
    let e := Z.max (ilog2 (Qabs q) - 52) (-1074) in
    (inject_Z (round_half_even (q / pow2 e)) * pow2 e)%Q.

(** [Number.MAX_VALUE] *)
Definition MAX_VALUE : Q := (inject_Z (2 ^ 53 - 1) * pow2 971)%Q.

(** A number as a double, or the infinity it overflows to. *)
Inductive Quotient : Type :=
| Finite (q : Q)
| PosInfinity
| NegInfinity
| NaN.

Definition to_double (q : Q) : Quotient :=
  let r := nearest_double q in
  if Qle_bool r MAX_VALUE
  then if Qle_bool (- MAX_VALUE) r then Finite r else NegInfinity
  else PosInfinity.

(** [a / b], with the infinities and NaN that a zero divisor gives. *)
Definition divide (a b : Q) : Quotient :=
  if Qeq_bool b 0 then
    if Qeq_bool a 0 then NaN
    else if Qle_bool 0 a then PosInfinity else NegInfinity
  else to_double (a / b).

(** [x > t] *)
Definition greater (x : Quotient) (t : Q) : bool :=
  match x with
  | Finite q => negb (Qle_bool q t)
  | PosInfinity => true
  | NegInfinity | NaN => false
  end.

(** The outcome of a call that may throw. *)
Inductive Completion (A : Type) : Type :=
| Normal (a : A)
| Throw (message : string).
Arguments Normal {A} a.
Arguments Throw {A} message.

End JS.

(** ** The kernel's binary64 numbers, to compare [to_double] with *)

Module Binary64.
Import JS.
Import PrimFloat.

(** The exact value of a float. *)
Definition value (f : PrimFloat.float) : option Q :=
  match FloatOps.Prim2SF f with
  | SpecFloat.S754_zero _ => Some 0%Q
  | SpecFloat.S754_finite s m e =>
      Some ((if s then -1 else 1) * inject_Z (Zpos m) * pow2 e)%Q
  | _ => None
  end.

(** Whether a rounded result is a given float. *)
Definition same (q : Quotient) (f : PrimFloat.float) : bool :=
  match q, FloatOps.Prim2SF f with
  | Finite r, SpecFloat.S754_infinity _ => false
  | Finite r, _ => match value f with
                   | Some x => Qeq_bool r x
                   | None => false
                   end
  | PosInfinity, SpecFloat.S754_infinity false => true
  | NegInfinity, SpecFloat.S754_infinity true => true
  | _, _ => false
  end.

(** Whether an operation on two floats gives what rounding the exact
    result gives; a zero divisor is left to [divide]. *)
Definition agrees (exactly : Q -> Q -> Q) (op : PrimFloat.float -> PrimFloat.float -> PrimFloat.float)
    (a b : PrimFloat.float) : bool :=
  match value a, value b with
  | Some x, Some y => same (to_double (exactly x y)) (op a b)
  | _, _ => true
  end.

Definition agrees_on_quotient (a b : PrimFloat.float) : bool :=
  match value b with
  | Some y => if Qeq_bool y 0 then true else agrees Qdiv PrimFloat.div a b
  | None => true
  end.

(** Doubles of every kind: whole numbers, fractions that are not binary,
    the largest and the smallest, subnormal ones, negative ones. *)
Definition some_doubles : list PrimFloat.float :=
  [0x1p+0; 0x1.8p+1; 0x1.6666666666666p-1; 0x1.999999999999ap-4;
   0x1.5555555555555p-2; 0x0.0000000000001p-1022; 0x1p-1022;
   0x1.8bcfe568p+40; 0x1.8ffffffffffffp+9; 0x1p+53;
   0x1.fffffffffffffp+1023; 0x1.f4p+9; 0x1.8000000000001p+1;
   -0x1.6666666666666p-1; -0x0.00000000007e8p-1022]%float.

End Binary64.

(** ** Log buffer and enriching logger ([src/host/logging.ts]) *)

Module Logging.
Import JS.

(** [LogLevel] of [src/host/context.ts]. *)
Inductive LogLevel : Type := Trace | Debug | Info | Warning | Error | Fatal.

Definition level_name (l : LogLevel) : string :=
  match l with
  | Trace => "trace"
  | Debug => "debug"
  | Info => "info"
  | Warning => "warning"
  | Error => "error"
  | Fatal => "fatal"
  end.

Definition LogLevel_eqb (a b : LogLevel) : bool :=
  String.eqb (level_name a) (level_name b).

(** [xs.indexOf(x)], -1 when absent. *)
Fixpoint indexOf (xs : list LogLevel) (x : LogLevel) : Z :=
  match xs with
  | [] => -1
  | y :: ys =>
      if LogLevel_eqb y x then 0
      else let i := indexOf ys x in if i <? 0 then -1 else i + 1
  end.

(** A value of type [unknown] handed over as the error of a log call. *)
Inductive Unknown : Type :=
| UUndefined
| UNull
| UError (message name : string) (stack : option string) (own : Obj Json)
| UObject (own : Obj Json)
| UPrimitive (text type_of : string).

Definition errorAsJson (err : Unknown) : Json :=
  match err with
  | UUndefined | UNull => JUndefined
  | UError message name stack own =>
      JObject (spread [("message", JString message);
                       ("name", JString name);
                       ("stack", of_option_string stack)]%string own)
  | UObject own => JObject (spread [] own)
  | UPrimitive text type_of =>
      JObject [("message", JString text); ("name", JString type_of)]%string
  end.

(** [highPrecisionISODate]; the module constant
    [performanceTimeOrigin100ns] is the first argument. The product, the
    sum and the quotient are doubles. *)
Definition highPrecisionISODate (performanceTimeOrigin100ns : Z)
    (performanceNow : Q) : string :=
  let now100ns :=
    Qfloor (nearest_double
              (inject_Z (performanceTimeOrigin100ns
                         + Math_round (nearest_double (performanceNow * 10000))))) in
  substring 0 20 (Date_toISOString (nearest_double (inject_Z now100ns / 10000))) +++
  padStart 7 "0" (Number_toString (Z.rem now100ns 10000000)) +++
  "Z".

Record LogEntry : Type := {
  entry_timestamp : Q;
  entry_level : LogLevel;
  entry_message : string;
  entry_error : Unknown;
  entry_json : string
}.

Definition Batch : Type := list LogEntry.

(** [LogTransport]: [sendEntries] answers a promise ([true]) or
    [undefined] ([false]). *)
Record LogTransport : Type := {
  publishRate : option Z;
  sendEntries : Batch -> bool
}.

(** The promise held in [#flusher]: the send it currently waits for, the
    batches whose [then] continuation has not run yet, and whether a send
    of the chain was rejected (no later continuation runs then). *)
Record Flusher : Type := {
  in_flight : option Batch;
  chained : list Batch;
  rejected : bool
}.

Definition sending (b : Batch) : Flusher :=
  {| in_flight := Some b; chained := []; rejected := false |}.

Definition idle (f : Flusher) : bool :=
  match in_flight f, chained f with
  | None, [] => negb (rejected f)
  | _, _ => false
  end.

Record LogBuffer : Type := {
  transport : LogTransport;
  entries : Batch;
  size : Z;
  flusher : option Flusher;
  asyncTransport : option bool;
  timeout : option nat
}.

Definition new_LogBuffer (t : LogTransport) : LogBuffer :=
  {| transport := t; entries := []; size := 0; flusher := None;
     asyncTransport := None; timeout := None |}.

(** Where [sendEntries] is called from. Only the call in [collect] drops
    the returned promise; the others store it in [#flusher]. *)
Inductive CallSite : Type := InCollect | InImmediate | InStartFlush | InThen.

(** What the transport sees of one buffer: each call of [sendEntries] with
    its answer, and the settlement of the promise [#flusher] waits for. *)
Inductive WireEvent : Type :=
| Send (site : CallSite) (batch : Batch) (promised : bool)
| Done (batch : Batch) (ok : bool).

(** A buffer in its host: the event loop's pending callbacks and the
    transport's observations. *)
Record Host : Type := {
  buffer : LogBuffer;
  performanceTimeOrigin100ns : Z;
  immediates : nat;
  timers : list nat;
  next_timer : nat;
  wire : list WireEvent
}.

Definition boot (origin100ns : Z) (b : LogBuffer) : Host :=
  {| buffer := b; performanceTimeOrigin100ns := origin100ns; immediates := 0%nat;
     timers := []; next_timer := 0%nat; wire := [] |}.

(** Field updates of the buffer. *)
Definition set_entries (es : Batch) (sz : Z) (b : LogBuffer) : LogBuffer :=
  {| transport := transport b; entries := es; size := sz; flusher := flusher b;
     asyncTransport := asyncTransport b; timeout := timeout b |}.

Definition set_flusher (f : option Flusher) (b : LogBuffer) : LogBuffer :=
  {| transport := transport b; entries := entries b; size := size b; flusher := f;
     asyncTransport := asyncTransport b; timeout := timeout b |}.

Definition set_asyncTransport (m : option bool) (b : LogBuffer) : LogBuffer :=
  {| transport := transport b; entries := entries b; size := size b;
     flusher := flusher b; asyncTransport := m; timeout := timeout b |}.

Definition set_timeout (t : option nat) (b : LogBuffer) : LogBuffer :=
  {| transport := transport b; entries := entries b; size := size b;
     flusher := flusher b; asyncTransport := asyncTransport b; timeout := t |}.

Definition update (f : LogBuffer -> LogBuffer) (h : Host) : Host :=
  {| buffer := f (buffer h); performanceTimeOrigin100ns := performanceTimeOrigin100ns h;
     immediates := immediates h; timers := timers h;
     next_timer := next_timer h; wire := wire h |}.

(** The transport is called, or the promise [#flusher] waits for settles. *)
Definition observe (e : WireEvent) (h : Host) : Host :=
  {| buffer := buffer h; performanceTimeOrigin100ns := performanceTimeOrigin100ns h;
     immediates := immediates h; timers := timers h;
     next_timer := next_timer h; wire := wire h ++ [e] |}.

Definition setImmediate (h : Host) : Host :=
  {| buffer := buffer h; performanceTimeOrigin100ns := performanceTimeOrigin100ns h;
     immediates := S (immediates h); timers := timers h;
     next_timer := next_timer h; wire := wire h |}.

(** [setTimeout(callback, 2000)]: the new timer's handle is [next_timer h]. *)
Definition setTimeout (h : Host) : Host :=
  {| buffer := buffer h; performanceTimeOrigin100ns := performanceTimeOrigin100ns h;
     immediates := immediates h; timers := timers h ++ [next_timer h];
     next_timer := S (next_timer h); wire := wire h |}.

Definition clearTimeout (handle : nat) (h : Host) : Host :=
  {| buffer := buffer h; performanceTimeOrigin100ns := performanceTimeOrigin100ns h;
     immediates := immediates h;
     timers := filter (fun t => negb (Nat.eqb t handle)) (timers h);
     next_timer := next_timer h; wire := wire h |}.

(** [this.#transport.sendEntries(batch, this.#signal)] at a call site. *)
Definition call_sendEntries (site : CallSite) (batch : Batch) (h : Host) : bool * Host :=
  let sendResult := sendEntries (transport (buffer h)) batch in
  (sendResult, observe (Send site batch sendResult) h).

(** What [flush] hands back: the promise of an [async] function that
    returned, or one that awaits [#flusher]. *)
Inductive Future : Type :=
| Returned
| Awaiting (f : option Flusher).

(** The future settles without waiting for a transport. *)
Definition resolves_at_once (p : Future) : bool :=
  match p with
  | Returned | Awaiting None => true
  | Awaiting (Some f) => idle f
  end.

(** [#startFlush] *)
Definition startFlush (batch : Batch) (h : Host) : Host :=
  match flusher (buffer h) with
  | Some f =>
      update (set_flusher (Some {| in_flight := in_flight f;
                                   chained := chained f ++ [batch];
                                   rejected := rejected f |})) h
  | None =>
      let (sendResult, h1) := call_sendEntries InStartFlush batch h in
      update (set_flusher (if sendResult then Some (sending batch) else None)) h1
  end.

(** [flush] *)
Definition flush (h : Host) : Host * Future :=
  match entries (buffer h) with
  | [] => (h, Returned)
  | _ :: _ =>
      let h1 := startFlush (entries (buffer h)) h in
      let h2 := update (set_entries [] 0) h1 in
      let h3 := match timeout (buffer h2) with
                | Some handle => update (set_timeout None) (clearTimeout handle h2)
                | None => h2
                end in
      (h3, Awaiting (flusher (buffer h3)))
  end.

(** The object literal serialized by [collect]. *)
Definition log_record (origin100ns : Z) (offset : Q) (level : LogLevel)
    (message : string) (err : Unknown)
    (fields reservedEnrichment customEnrichment : option (Obj Json)) : Obj Json :=
  let head := [("timestamp", JString (highPrecisionISODate origin100ns offset));
               ("level", JString (level_name level));
               ("message", JString message);
               ("error", errorAsJson err)]%string in
  let tail :=
    match fields, customEnrichment with
    | None, None => None
    | Some f, Some c => Some [("fields"%string, JObject (spread (spread [] c) f))]
    | None, Some c => Some [("fields"%string, JObject c)]
    | Some f, None => Some [("fields"%string, JObject f)]
    end in
  spread_opt (spread_opt head reservedEnrichment) tail.

Definition make_entry (origin100ns : Z) (offset : Q) (level : LogLevel)
    (message : string) (err : Unknown)
    (fields reservedEnrichment customEnrichment : option (Obj Json)) : LogEntry :=
  {| entry_timestamp := offset; entry_level := level; entry_message := message;
     entry_error := err;
     entry_json := JSON_stringify_object
                     (log_record origin100ns offset level message err
                        fields reservedEnrichment customEnrichment) |}.

(** [this.#entries.push(e); this.#size += e.json.length] *)
Definition push (e : LogEntry) (b : LogBuffer) : LogBuffer :=
  set_entries (entries b ++ [e]) (size b + Z.of_nat (String.length (entry_json e))) b.

(** [collect]; [offset] is the reading of [performance.now()]. *)
Definition collect (offset : Q) (level : LogLevel) (numericLogLevel : Z)
    (message : string) (err : Unknown)
    (fields reservedEnrichment customEnrichment : option (Obj Json))
    (h : Host) : Host :=
  let h1 := update (push (make_entry (performanceTimeOrigin100ns h) offset level
                            message err fields reservedEnrichment customEnrichment)) h in
  match asyncTransport (buffer h1) with
  | Some false =>
      update (set_entries [] 0)
        (snd (call_sendEntries InCollect (entries (buffer h1)) h1))
  | None =>
      setImmediate (update (set_asyncTransport (Some true)) h1)
  | Some true =>
      if (numericLogLevel <? 2)
         || (8 <? Z.of_nat (List.length (entries (buffer h1))))
         || (64000 <? size (buffer h1))
      then fst (flush h1)
      else update (set_timeout (Some (next_timer h1))) (setTimeout h1)
  end.

(** The callback given to [setImmediate] by the first [collect]. *)
Definition immediate_callback (h : Host) : Host :=
  match flusher (buffer h) with
  | Some _ => h
  | None =>
      let (sendResult, h1) := call_sendEntries InImmediate (entries (buffer h)) h in
      let h2 := update (set_entries [] 0) h1 in
      if sendResult
      then update (set_flusher (Some (sending (entries (buffer h))))) h2
      else update (set_asyncTransport (Some false)) h2
  end.

(** The callback given to [setTimeout] by [collect]. *)
Definition timeout_callback (h : Host) : Host :=
  update (set_timeout None) (fst (flush h)).

(** The continuation [() => sendEntries(entries, signal)] that
    [#startFlush] attached with [then]; the promise of the chain follows
    the promise it returns. *)
Definition then_callback (batch : Batch) (rest : list Batch) (h : Host) : Host :=
  let (sendResult, h1) := call_sendEntries InThen batch h in
  update (set_flusher (Some {| in_flight := if sendResult then Some batch else None;
                               chained := rest; rejected := false |})) h1.

(** What the event loop and the callers may do next. *)
Inductive Action : Type :=
| Collect (offset : Q) (level : LogLevel) (numericLogLevel : Z)
    (message : string) (err : Unknown)
    (fields reservedEnrichment customEnrichment : option (Obj Json))
| Flush
| Immediate
| Timer (handle : nat)
| Settle (ok : bool)
| Then.

Definition step (h : Host) (a : Action) : Host :=
  match a with
  | Collect offset level n message err fields reserved custom =>
      collect offset level n message err fields reserved custom h
  | Flush => fst (flush h)
  | Immediate =>
      match immediates h with
      | O => h
      | S n =>
          immediate_callback
            {| buffer := buffer h;
               performanceTimeOrigin100ns := performanceTimeOrigin100ns h;
               immediates := n; timers := timers h;
               next_timer := next_timer h; wire := wire h |}
      end
  | Timer handle =>
      if existsb (Nat.eqb handle) (timers h)
      then timeout_callback (clearTimeout handle h)
      else h
  | Settle ok =>
      match flusher (buffer h) with
      | Some f =>
          match in_flight f with
          | Some batch =>
              update (set_flusher (Some {| in_flight := None; chained := chained f;
                                           rejected := negb ok |}))
                (observe (Done batch ok) h)
          | None => h
          end
      | None => h
      end
  | Then =>
      match flusher (buffer h) with
      | Some f =>
          match in_flight f, chained f, rejected f with
          | None, batch :: rest, false => then_callback batch rest h
          | _, _, _ => h
          end
      | None => h
      end
  end.

Definition run (h : Host) (schedule : list Action) : Host :=
  fold_left step schedule h.

(** [EnrichingLogger]. The buffer it shares with the loggers derived from
    it is the buffer of the host. *)
Record EnrichingLogger : Type := {
  level : Z;
  reservedEnrichment : option (Obj Json);
  customEnrichment : option (Obj Json)
}.

Definition or_empty (o : option (Obj Json)) : Obj Json :=
  match o with
  | Some x => x
  | None => []
  end.

Definition enrich (lg : EnrichingLogger) (fields : Obj Json) : EnrichingLogger :=
  {| level := level lg;
     reservedEnrichment := reservedEnrichment lg;
     customEnrichment := Some (spread (spread [] (or_empty (customEnrichment lg))) fields) |}.

Definition enrichReserved (lg : EnrichingLogger) (fields : Obj Json) : EnrichingLogger :=
  {| level := level lg;
     reservedEnrichment := Some (spread (spread [] (or_empty (reservedEnrichment lg))) fields);
     customEnrichment := customEnrichment lg |}.

Definition trace (lg : EnrichingLogger) (offset : Q) (message : string)
    (err : Unknown) (fields : option (Obj Json)) (h : Host) : Host :=
  if level lg <? 5 then h
  else collect offset Trace 5 message err fields
         (reservedEnrichment lg) (customEnrichment lg) h.

Definition debug (lg : EnrichingLogger) (offset : Q) (message : string)
    (err : Unknown) (fields : option (Obj Json)) (h : Host) : Host :=
  if level lg <? 4 then h
  else collect offset Debug 4 message err fields
         (reservedEnrichment lg) (customEnrichment lg) h.

Definition info (lg : EnrichingLogger) (offset : Q) (message : string)
    (err : Unknown) (fields : option (Obj Json)) (h : Host) : Host :=
  if level lg <? 3 then h
  else collect offset Debug 3 message err fields
         (reservedEnrichment lg) (customEnrichment lg) h.

Definition warn (lg : EnrichingLogger) (offset : Q) (message : string)
    (err : Unknown) (fields : option (Obj Json)) (h : Host) : Host :=
  if level lg <? 2 then h
  else collect offset Debug 2 message err fields
         (reservedEnrichment lg) (customEnrichment lg) h.

Definition error (lg : EnrichingLogger) (offset : Q) (message : string)
    (err : Unknown) (fields : option (Obj Json)) (h : Host) : Host :=
  if level lg <? 1 then h
  else collect offset Error 1 message err fields
         (reservedEnrichment lg) (customEnrichment lg) h.

Definition fatal (lg : EnrichingLogger) (offset : Q) (message : string)
    (err : Unknown) (fields : option (Obj Json)) (h : Host) : Host :=
  collect offset Fatal 0 message err fields
    (reservedEnrichment lg) (customEnrichment lg) h.

(** [AbortSignal]: what an object spread copies from it. *)
Record AbortSignal : Type := {
  aborted : bool;
  enumerable : Obj Json
}.

(** [makeLogger]: the logger and the buffer it creates. The signal is the
    third argument of the [EnrichingLogger] constructor, its
    [reservedEnrichment]. *)
Definition makeLogger (t : LogTransport) (minimumLogLevel : option LogLevel)
    (signal : AbortSignal) : EnrichingLogger * LogBuffer :=
  ({| level := match minimumLogLevel with
               | Some l => indexOf [Fatal; Error; Warning; Info; Debug; Trace] l
               | None => 5
               end;
      reservedEnrichment := Some (enumerable signal);
      customEnrichment := None |},
   new_LogBuffer t).

End Logging.

(** ** Event emitter ([src/host/emitter.ts]) *)

Module Emitter.
Import JS.

(** [ClientInfo], [EventMetadata], [BufferedEvent] and [EventTransport]
    of [src/host/context.ts]. *)
Record ClientInfo : Type := {
  operationId : option string;
  clientId : option string;
  clientIp : option string;
  clientPort : option Z;
  userAgent : option string
}.

Record EventMetadata : Type := {
  topic : string;
  type : string;
  subject : string;
  id : option string
}.

Record BufferedEvent : Type := {
  eventTime : Q;
  meta : EventMetadata;
  ids : ClientInfo;
  json : option string
}.

(** [sendEvents] always answers a promise; how it settles is up to the
    environment (see [Settle]). *)
Record EventTransport : Type := {
  publishRate : Q
}.

Definition EmitBuffer : Type := Obj (list BufferedEvent).

(** The promise held in [#flusher]: the sends of the running
    [#flushEvents] that have not settled, and the buffers whose [then]
    continuation has not run yet. [#flushEvents] catches every failure, so
    the chain is never rejected. *)
Record Flusher : Type := {
  outstanding : list (string * list BufferedEvent);
  waiting : list EmitBuffer
}.

Definition is_empty {A} (l : list A) : bool :=
  match l with
  | [] => true
  | _ :: _ => false
  end.

(** Nothing of the chain waits for the transport: no send is outstanding
    and the buffers still queued hold no topic. *)
Definition idle (f : Flusher) : bool :=
  is_empty (outstanding f) && forallb is_empty (waiting f).

Record EventEmitter : Type := {
  transport : EventTransport;
  emitter_ids : ClientInfo;
  emitted : EmitBuffer;
  size : Z;
  flusher : option Flusher;
  deadline : Q;
  buffered : Z
}.

(** [constructor]; [now] is the reading of [new Date().getTime()]. The
    deadline is the double nearest to the sum. *)
Definition new_EventEmitter (t : EventTransport) (client : ClientInfo)
    (timeout now : Q) : EventEmitter :=
  {| transport := t; emitter_ids := client; emitted := []; size := 0;
     flusher := None; deadline := nearest_double (now + timeout); buffered := 0 |}.

(** An emitter with what its collaborators have seen: the calls of
    [sendEvents] and the batches reported through [logger.fatal]. *)
Record World : Type := {
  emitter : EventEmitter;
  sent : list (string * list BufferedEvent);
  fatals : list (list BufferedEvent)
}.

Definition start (e : EventEmitter) : World :=
  {| emitter := e; sent := []; fatals := [] |}.

(** What [flush] hands back: [await this.#flusher]. *)
Inductive Future : Type :=
| Awaiting (f : option Flusher).

(** The future settles without waiting for a transport. *)
Definition resolves_at_once (p : Future) : bool :=
  match p with
  | Awaiting None => true
  | Awaiting (Some f) => idle f
  end.

(** [#flushEvents] up to its first suspension: one [sendEvents] per topic. *)
Definition flushEvents (buf : EmitBuffer) (rest : list EmitBuffer) (w : World) : World :=
  let e := emitter w in
  {| emitter := {| transport := transport e; emitter_ids := emitter_ids e;
                   emitted := emitted e; size := size e;
                   flusher := Some {| outstanding := entries buf; waiting := rest |};
                   deadline := deadline e; buffered := buffered e |};
     sent := sent w ++ entries buf;
     fatals := fatals w |}.

(** [#startFlush] *)
Definition startFlush (buf : EmitBuffer) (w : World) : World :=
  let e := emitter w in
  match flusher e with
  | Some f =>
      {| emitter := {| transport := transport e; emitter_ids := emitter_ids e;
                       emitted := emitted e; size := size e;
                       flusher := Some {| outstanding := outstanding f;
                                          waiting := waiting f ++ [buf] |};
                       deadline := deadline e; buffered := buffered e |};
         sent := sent w; fatals := fatals w |}
  | None => flushEvents buf [] w
  end.

(** [flush] *)
Definition flush (w : World) : World * Future :=
  let w1 := startFlush (emitted (emitter w)) w in
  let e1 := emitter w1 in
  ({| emitter := {| transport := transport e1; emitter_ids := emitter_ids e1;
                    emitted := []; size := 0; flusher := flusher e1;
                    deadline := deadline e1; buffered := buffered e1 |};
      sent := sent w1; fatals := fatals w1 |},
   Awaiting (flusher e1)).

Definition json_length (ev : BufferedEvent) : Z :=
  match json ev with
  | Some s => Z.of_nat (String.length s)
  | None => 0
  end.

(** [this.#emitted[topic]] finds a property of [Object.prototype]: the
    buffer has no list for the topic, and the topic is a name every plain
    object inherits. What is found is not a list. *)
Definition prototype_hit (buf : EmitBuffer) (topic : string) : bool :=
  match get buf topic with
  | Some _ => false
  | None => inherited topic
  end.

(** [emit]; [eventTime] and [now] are its two readings of the clock. *)
Definition emit (eventTime now : Q) (m : EventMetadata) (data : option Json)
    (w : World) : Completion World :=
  let e := emitter w in
  let timeLeft := (deadline e - now)%Q in
  if greater (divide (inject_Z (buffered e)) (publishRate (transport e))) timeLeft
  then Throw "Event overflow."
  else if prototype_hit (emitted e) (topic m)
  then Throw "events.push is not a function"
  else
    let event := {| eventTime := eventTime; meta := m; ids := emitter_ids e;
                    json := match data with
                            | Some d => JSON_stringify d
                            | None => None
                            end |} in
    let put (evs : list BufferedEvent) : World :=
      {| emitter := {| transport := transport e; emitter_ids := emitter_ids e;
                       emitted := set (emitted e) (topic m) evs; size := size e;
                       flusher := flusher e; deadline := deadline e;
                       buffered := buffered e |};
         sent := sent w; fatals := fatals w |} in
    let w1 :=
      match get (emitted e) (topic m) with
      | None => put [event]
      | Some events =>
          let events1 := events ++ [event] in
          if (64 <? Z.of_nat (List.length events1)) || (64000 <? size e)
          then fst (flush (put events1))
          else put events1
      end in
    let e1 := emitter w1 in
    Normal
      {| emitter := {| transport := transport e1; emitter_ids := emitter_ids e1;
                       emitted := emitted e1; size := size e1 + json_length event;
                       flusher := flusher e1; deadline := deadline e1;
                       buffered := buffered e1 + 1 |};
         sent := sent w1; fatals := fatals w1 |}.

Fixpoint remove_nth {A} (n : nat) (l : list A) : list A :=
  match n, l with
  | _, [] => []
  | O, _ :: l' => l'
  | S n', x :: l' => x :: remove_nth n' l'
  end.

(** What the event loop and the callers may do next. [Settle i ok] settles
    the [i]-th outstanding [sendEvents] and runs the rest of its mapper:
    the [catch] clause on failure, then the decrement of [#buffered]. *)
Inductive Action : Type :=
| Emit (eventTime now : Q) (m : EventMetadata) (data : option Json)
| Flush
| Settle (i : nat) (ok : bool)
| Then.

Definition step (w : World) (a : Action) : World :=
  let e := emitter w in
  match a with
  | Emit eventTime now m data =>
      match emit eventTime now m data w with
      | Normal w1 => w1
      | Throw _ => w
      end
  | Flush => fst (flush w)
  | Settle i ok =>
      match flusher e with
      | Some f =>
          match nth_error (outstanding f) i with
          | Some (_, events) =>
              {| emitter := {| transport := transport e; emitter_ids := emitter_ids e;
                               emitted := emitted e; size := size e;
                               flusher := Some {| outstanding := remove_nth i (outstanding f);
                                                  waiting := waiting f |};
                               deadline := deadline e;
                               buffered := buffered e - Z.of_nat (List.length events) |};
                 sent := sent w;
                 fatals := if ok then fatals w else fatals w ++ [events] |}
          | None => w
          end
      | None => w
      end
  | Then =>
      match flusher e with
      | Some {| outstanding := []; waiting := buf :: rest |} => flushEvents buf rest w
      | _ => w
      end
  end.

Definition run (w : World) (schedule : list Action) : World :=
  fold_left step schedule w.

End Emitter.

(** ** Context wiring ([src/host/context.ts]) *)

Module Context.
Import JS.

Definition MAX_SAFE_INTEGER : Z := 9007199254740991.

(** The comparison of the default [Array.prototype.sort]: [undefined] goes
    last, everything else is ordered by its string conversion. *)
Definition sort_le (x y : option Z) : bool :=
  match x, y with
  | _, None => true
  | None, Some _ => false
  | Some a, Some b => String.leb (Number_toString a) (Number_toString b)
  end.

Fixpoint sort_insert (x : option Z) (l : list (option Z)) : list (option Z) :=
  match l with
  | [] => [x]
  | y :: l' => if sort_le x y then x :: y :: l' else y :: sort_insert x l'
  end.

(** [xs.sort()] without a comparison function (a stable sort). *)
Fixpoint sort (xs : list (option Z)) : list (option Z) :=
  match xs with
  | [] => []
  | x :: xs' => sort_insert x (sort xs')
  end.

(** [LogMulticaster]: its constructor computes [publishRate], its
    [sendEntries] answers a promise when a member does. *)
Definition LogMulticaster (transports : list Logging.LogTransport) : Logging.LogTransport :=
  {| Logging.publishRate :=
       Some match sort (map Logging.publishRate transports) with
            | Some r :: _ => r
            | _ => MAX_SAFE_INTEGER
            end;
     Logging.sendEntries := fun entries =>
       negb (Nat.eqb (List.length
                        (filter (fun p : bool => p)
                           (map (fun t => Logging.sendEntries t entries) transports))) 0) |}.

(** [Metadata] of [src/host/registry.ts], with the two settings of its
    [config] that [createContext] reads. *)
Record HandlerConfiguration : Type := {
  minimumLogLevel : option Logging.LogLevel;
  timeout : option Q
}.

Record Metadata : Type := {
  packageName : string;
  fileName : string;
  revision : option string;
  config : option HandlerConfiguration
}.

Record Timeouts : Type := {
  default : Q;
  cap : option Q
}.

Record Client : Type := {
  client_id : option string;
  client_ip : option string;
  client_port : option Z;
  client_userAgent : option string
}.

(** The fields of the context object that are plain data. *)
Record Ctx : Type := {
  log : Logging.EnrichingLogger;
  operationId : option string;
  client : Client;
  meta : option (string * string * option string)
}.

Record Created : Type := {
  created_log : Logging.EnrichingLogger;
  context : Ctx;
  timeout_ms : Q;
  log_host : Logging.Host;
  events : Emitter.World
}.

Definition Qmin (a b : Q) : Q := if Qle_bool a b then a else b.

Definition meta_timeout (m : option Metadata) : option Q :=
  match m with
  | Some md => match config md with
               | Some c => timeout c
               | None => None
               end
  | None => None
  end.

Definition meta_minimumLogLevel (m : option Metadata) : option Logging.LogLevel :=
  match m with
  | Some md => match config md with
               | Some c => minimumLogLevel c
               | None => None
               end
  | None => None
  end.

(** The reserved fields [createContext] builds from the client. *)
Definition ids_enrichment (clientInfo : Emitter.ClientInfo) : Obj Json :=
  [("operationId", of_option_string (Emitter.operationId clientInfo));
   ("client",
    JObject [("id", of_option_string (Emitter.clientId clientInfo));
             ("ip", of_option_string (Emitter.clientIp clientInfo));
             ("port", of_option_number (Emitter.clientPort clientInfo));
             ("userAgent", of_option_string (Emitter.userAgent clientInfo))])]%string.

(** [createContext]. [outerSignal] is [outerController.signal];
    [origin100ns] and [now] are the clock constants read while it runs.
    The two timers and the success handlers are left out. *)
Definition createContext (clientInfo : Emitter.ClientInfo)
    (loggers : list Logging.LogTransport)
    (eventTransport : Emitter.EventTransport)
    (timeouts : Timeouts) (outerSignal : Logging.AbortSignal)
    (m : option Metadata) (origin100ns : Z) (now : Q) : Created :=
  let wanted := match meta_timeout m with
                | Some t => t
                | None => default timeouts
                end in
  let timeout :=
    nearest_double
      (match cap timeouts with
       | Some c => if Qeq_bool c 0 then wanted else Qmin wanted c
       | None => wanted
       end * 1000) in
  let logTransport :=
    match loggers with
    | [t] => t
    | _ => LogMulticaster loggers
    end in
  let '(logger, buffer) :=
    Logging.makeLogger logTransport (meta_minimumLogLevel m) outerSignal in
  (* logger.enrichReserved({...}): the logger it returns is dropped *)
  let _ := Logging.enrichReserved logger (ids_enrichment clientInfo) in
  let emitter := Emitter.new_EventEmitter eventTransport clientInfo timeout now in
  let ctx :=
    {| log := logger;
       operationId := Emitter.operationId clientInfo;
       client := {| client_id := Emitter.clientId clientInfo;
                    client_ip := Emitter.clientIp clientInfo;
                    client_port := Emitter.clientPort clientInfo;
                    client_userAgent := Emitter.userAgent clientInfo |};
       meta := match m with
               | Some md => Some (packageName md, fileName md, revision md)
               | None => None
               end |} in
  {| created_log := logger;
     context := ctx;
     timeout_ms := timeout;
     log_host := Logging.boot origin100ns buffer;
     events := Emitter.start emitter |}.

End Context.

(** ** The severity gate of the logger *)

Section Gate.
Import JS Logging.

(** The six leveled methods of the [Logger] interface. *)
Inductive Method : Type := MTrace | MDebug | MInfo | MWarn | MError | MFatal.

Definition invoke (m : Method) : EnrichingLogger -> Q -> string -> Unknown ->
    option (Obj Json) -> Host -> Host :=
  match m with
  | MTrace => trace
  | MDebug => debug
  | MInfo => info
  | MWarn => warn
  | MError => error
  | MFatal => fatal
  end.

(** The loggers a program can hold: the one [makeLogger] returns and those
    derived from it by [enrich] and [enrichReserved]. *)
Inductive Enrichment : Type :=
| Custom (fields : Obj Json)
| Reserved (fields : Obj Json).

Definition derive (lg : EnrichingLogger) (e : Enrichment) : EnrichingLogger :=
  match e with
  | Custom fields => enrich lg fields
  | Reserved fields => enrichReserved lg fields
  end.

Definition derived (lg : EnrichingLogger) (es : list Enrichment) : EnrichingLogger :=
  fold_left derive es lg.

(** The level a method stands for. *)
Definition method_level (m : Method) : LogLevel :=
  match m with
  | MTrace => Trace
  | MDebug => Debug
  | MInfo => Info
  | MWarn => Warning
  | MError => Error
  | MFatal => Fatal
  end.

(** Rank in the order trace < debug < info < warning < error < fatal. *)
Definition severity (l : LogLevel) : Z :=
  match l with
  | Trace => 0
  | Debug => 1
  | Info => 2
  | Warning => 3
  | Error => 4
  | Fatal => 5
  end.

(** The configured minimum; without one nothing is discarded. *)
Definition threshold (minimumLogLevel : option LogLevel) : LogLevel :=
  match minimumLogLevel with
  | Some t => t
  | None => Trace
  end.

Definition at_least_as_severe (l t : LogLevel) : Prop :=
  severity t <= severity l.

(** The numeric severity a level is collected with. *)
Definition numeric (l : LogLevel) : Z := 5 - severity l.

(** Progress of a host: every [collect] moves it forward. *)
Definition progress (h : Host) : nat :=
  (List.length (wire h) + next_timer h
   + match asyncTransport (buffer h) with Some _ => 1 | None => 0 end
   + match flusher (buffer h) with
     | Some f => List.length (chained f)
     | None => 0
     end)%nat.

End Gate.

(** ** Reference notions and sample inputs *)

Module Reference.
Import JS.

(** The least of the numeric rates the members declare, the largest safe
    integer when none declares one. *)
Fixpoint minimum_rate (rates : list (option Z)) : Z :=
  match rates with
  | [] => Context.MAX_SAFE_INTEGER
  | Some r :: rest => Z.min r (minimum_rate rest)
  | None :: rest => minimum_rate rest
  end.



End Reference.

Module Samples.
Import JS.

(** 2023-11-14T22:13:20Z in units of 100 ns. *)
Definition origin100ns : Z := 17000000000000000.

Definition plain_signal : Logging.AbortSignal :=
  {| Logging.aborted := false; Logging.enumerable := [] |}.

Definition rated (r : option Z) : Logging.LogTransport :=
  {| Logging.publishRate := r; Logging.sendEntries := fun _ => true |}.

(** A transport whose [sendEntries] always answers a promise. *)
Definition async_transport : Logging.LogTransport := rated None.

Definition root_logger : Logging.EnrichingLogger :=
  fst (Logging.makeLogger async_transport None plain_signal).

Definition fresh_host : Logging.Host :=
  Logging.boot origin100ns (snd (Logging.makeLogger async_transport None plain_signal)).

Definition alice : Emitter.ClientInfo :=
  {| Emitter.operationId := Some "op-1"; Emitter.clientId := Some "alice";
     Emitter.clientIp := Some "10.0.0.7"; Emitter.clientPort := Some 443;
     Emitter.userAgent := Some "curl" |}%string.

Definition orders : Emitter.EventMetadata :=
  {| Emitter.topic := "orders"; Emitter.type := "created";
     Emitter.subject := "order-1"; Emitter.id := None |}%string.

(** One event per millisecond, one second to the deadline. *)
Definition slow_emitter : Emitter.World :=
  Emitter.start
    (Emitter.new_EventEmitter {| Emitter.publishRate := 1 |} alice 1000 0).

Definition unbounded_emitter : Emitter.World :=
  Emitter.start
    (Emitter.new_EventEmitter
       {| Emitter.publishRate := inject_Z Context.MAX_SAFE_INTEGER |} alice 30000 0).

End Samples.

Module Scenario.
Import JS Emitter.

(** One call of [emit]: its two clock readings and its arguments. *)
Definition Emission : Type := (Q * Q * EventMetadata * option Json)%type.




(** The event [emit] buffers for an emission on behalf of a client. *)
Definition event_of (client : ClientInfo) (x : Emission) : BufferedEvent :=
  let '(eventTime, _, m, data) := x in
  {| eventTime := eventTime; meta := m; ids := client;
     json := match data with
             | Some d => JSON_stringify d
             | None => None
             end |}.






(** A buffer with one event handed to the transport and nothing buffered. *)
Definition flushing : World :=
  run Samples.slow_emitter [Emit 0 0 Samples.orders None; Flush].

End Scenario.

Module Ordering.
Import JS Logging.

(** A call of [sendEntries] whose promise ends up in [#flusher]; the call
    in [collect] drops what the transport answers. *)
Definition tracked (e : WireEvent) : bool :=
  match e with
  | Send InCollect _ _ => false
  | _ => true
  end.

(** [Serial cur w]: in the history [w] the transport is called only while
    no earlier send is in flight, a settlement is that of the send in
    flight, and [cur] is the send in flight at the end. *)
Inductive Serial : option Batch -> list WireEvent -> Prop :=
| serial_start : Serial None []
| serial_answered (w : list WireEvent) (site : CallSite) (b : Batch) :
    Serial None w -> Serial None (w ++ [Send site b false])
| serial_promised (w : list WireEvent) (site : CallSite) (b : Batch) :
    Serial None w -> Serial (Some b) (w ++ [Send site b true])
| serial_settled (w : list WireEvent) (b : Batch) (ok : bool) :
    Serial (Some b) w -> Serial None (w ++ [Done b ok]).

(** The send [#flusher] waits for, and the batches queued behind it. *)
Definition current (h : Host) : option Batch :=
  match flusher (buffer h) with
  | Some f => in_flight f
  | None => None
  end.

Definition queued (h : Host) : list Batch :=
  match flusher (buffer h) with
  | Some f => chained f
  | None => []
  end.

(** The batches handed to the transport, in the order of the calls. *)
Definition delivered (w : list WireEvent) : list Batch :=
  flat_map (fun e => match e with
                     | Send _ b _ => [b]
                     | Done _ _ => []
                     end) w.

(** Every entry the buffer has taken, where it is now: handed to the
    transport, queued behind a send, or still in the buffer. *)
Definition history (h : Host) : Batch :=
  List.concat (delivered (wire h)) ++ List.concat (queued h) ++ entries (buffer h).

(** The entry an action collects. *)
Definition collected_by (origin100ns : Z) (a : Action) : Batch :=
  match a with
  | Collect offset level _ message err fields reserved custom =>
      [make_entry origin100ns offset level message err fields reserved custom]
  | _ => []
  end.

Definition collected (origin100ns : Z) (schedule : list Action) : Batch :=
  flat_map (collected_by origin100ns) schedule.

(** What holds of a buffer in every state it reaches. *)
Record Invariant (h : Host) : Prop := {
  inv_serial : Serial (current h) (filter tracked (wire h));
  inv_sync : asyncTransport (buffer h) = Some false ->
             flusher (buffer h) = None /\ entries (buffer h) = [];
  inv_probe : immediates h = 0%nat
              \/ (immediates h = 1%nat /\ asyncTransport (buffer h) = Some true)
}.



(** [h'] is a state of the invariant that has taken the entries [added]
    since [h]. *)
Definition Keeps (h h' : Host) (added : Batch) : Prop :=
  Invariant h'
  /\ history h' = history h ++ added
  /\ performanceTimeOrigin100ns h' = performanceTimeOrigin100ns h.

Definition first_batch : Batch :=
  [make_entry Samples.origin100ns 1 Info "first" UUndefined None None None].


(** A buffer in batching mode: its first entry is with the transport, the
    send has not settled, and nothing is buffered. *)
Definition sending_host : Host :=
  run Samples.fresh_host
    [Collect 1 Info 3 "first" UUndefined None None None; Immediate].




End Ordering.

(** ** Further notions: what the buffers hold *)

Module Accounting.
Import JS Logging.

(** The serialized length of a batch. *)
Definition json_total (es : Batch) : Z :=
  fold_right (fun e acc => Z.of_nat (String.length (entry_json e)) + acc) 0 es.

(** What the counters of a log buffer satisfy in every state it reaches. *)
Record Bounded (h : Host) : Prop := {
  bounded_size : size (buffer h) = json_total (entries (buffer h));
  bounded_count : (List.length (entries (buffer h)) <= 8)%nat;
  bounded_large : (2 <= List.length (entries (buffer h)))%nat ->
                  size (buffer h) <= 64000;
  bounded_fresh : asyncTransport (buffer h) = None -> entries (buffer h) = []
}.

(** A chain of flushes that a rejected send has ended. *)
Definition Dead (h : Host) : Prop :=
  exists f,
    flusher (buffer h) = Some f /\ rejected f = true /\ in_flight f = None
    /\ asyncTransport (buffer h) <> Some false.

(** A rejected chain waits for no send. *)
Definition Settled_when_rejected (h : Host) : Prop :=
  forall f, flusher (buffer h) = Some f -> rejected f = true -> in_flight f = None.

(** A transport whose [sendEntries] never answers a promise. *)
Definition sync_transport : LogTransport :=
  {| publishRate := None; sendEntries := fun _ => false |}.

(** What holds of a buffer on a transport [t] that never answers a promise. *)
Record Synchronous (t : LogTransport) (h : Host) : Prop := {
  sync_transport_kept : transport (buffer h) = t;
  sync_no_flusher : flusher (buffer h) = None;
  sync_fresh : asyncTransport (buffer h) = None -> immediates h = 0%nat;
  sync_probing : asyncTransport (buffer h) = Some true -> immediates h = 1%nat;
  sync_empty : asyncTransport (buffer h) = Some false -> entries (buffer h) = [];
  sync_wire : Forall (fun e => match e with
                               | Send _ _ promised => promised = false
                               | Done _ _ => False
                               end) (wire h)
}.

(** The last value a list of properties gives a key. *)
Definition get_last {V} (o : Obj V) (k : string) : option V := get (rev o) k.

(** The keys of an object literal are distinct. *)
Definition well_formed {V} (o : Obj V) : Prop := NoDup (map fst o).

End Accounting.

Module MoreSamples.
Import JS Logging.

(** The first entry is handed over by the immediate callback and its send
    is rejected. *)
Definition until_rejection : list Action :=
  [Collect 1 Info 3 "first" UUndefined None None None; Immediate; Settle false].

(** What a program may go on to do: log an error, flush, let the chain and
    a timer run. *)
Definition afterwards : list Action :=
  [Collect 2 Error 1 "second" UUndefined None None None; Flush; Then; Timer 0;
   Collect 3 Info 3 "third" UUndefined None None None; Flush; Settle true; Then].

(** A synchronous transport after its first entry. *)
Definition probed : list Action :=
  [Collect 1 Info 3 "first" UUndefined None None None; Immediate].

End MoreSamples.

Module Records.
Import JS Logging.

(** The four properties every log record starts with. *)
Definition base_record (origin100ns : Z) (offset : Q) (level : LogLevel)
    (message : string) (err : Unknown) : Obj Json :=
  [("timestamp", JString (highPrecisionISODate origin100ns offset));
   ("level", JString (level_name level));
   ("message", JString message);
   ("error", errorAsJson err)]%string.

(** [o[k]] when present, [fallback] otherwise. *)
Definition get_or {V} (o : Obj V) (k : string) (fallback : option V) : option V :=
  match get o k with
  | Some v => Some v
  | None => fallback
  end.

(** The example of merged fields: reserved [{a:1}], custom [{a:2,b:2}],
    caller fields [{b:3,c:3}]. *)
Definition reserved_a : Obj Json := [("a", JNumber 1)]%string.
Definition custom_ab : Obj Json := [("a", JNumber 2); ("b", JNumber 2)]%string.
Definition fields_bc : Obj Json := [("b", JNumber 3); ("c", JNumber 3)]%string.

End Records.

Module Ledger.
Import JS Emitter.

(** The number of events a buffer holds. *)
Definition count (buf : EmitBuffer) : Z :=
  fold_right (fun entry acc => Z.of_nat (List.length (snd entry)) + acc) 0 buf.

(** The events handed to the transport and not settled, and those queued
    behind them. *)
Definition in_chain (e : EventEmitter) : Z :=
  match flusher e with
  | Some f => count (outstanding f)
              + fold_right (fun buf acc => count buf + acc) 0 (waiting f)
  | None => 0
  end.

Definition pending (w : World) : Z :=
  count (emitted (emitter w)) + in_chain (emitter w).

(** Between [lo] and [hi] events under each topic. *)
Definition lists_within (lo hi : nat) (buf : EmitBuffer) : Prop :=
  Forall (fun entry => (lo <= List.length (snd entry) <= hi)%nat) buf.

(** What holds of an emitter in every state it reaches. *)
Record Tidy (w : World) : Prop := {
  tidy_count : buffered (emitter w) = pending w;
  tidy_keys : Accounting.well_formed (emitted (emitter w));
  tidy_lists : lists_within 1 64 (emitted (emitter w));
  tidy_sent : lists_within 1 65 (sent w);
  tidy_chain : match flusher (emitter w) with
               | Some f => lists_within 1 65 (outstanding f)
                           /\ Forall (lists_within 1 65) (waiting f)
               | None => True
               end
}.

(** The parts of [Tidy] that do not count. *)
Definition Shaped (w : World) : Prop :=
  Accounting.well_formed (emitted (emitter w))
  /\ lists_within 1 64 (emitted (emitter w))
  /\ lists_within 1 65 (sent w)
  /\ match flusher (emitter w) with
     | Some f => lists_within 1 65 (outstanding f) /\ Forall (lists_within 1 65) (waiting f)
     | None => True
     end.

(** The buffers queued behind a flush hold one list per topic. *)
Definition Keyed (w : World) : Prop :=
  match flusher (emitter w) with
  | Some f => Forall (fun buf : EmitBuffer => Accounting.well_formed buf) (waiting f)
  | None => True
  end.

(** The events of a topic in a buffer or in the calls of [sendEvents]. *)
Definition topic_events (t : string) (buf : EmitBuffer) : list BufferedEvent :=
  flat_map (fun entry => if String.eqb (fst entry) t then snd entry else []) buf.

(** The events of a topic the emitter has taken, where they are: handed to
    the transport, queued behind a flush, or buffered. *)
Definition handed (t : string) (w : World) : list BufferedEvent :=
  topic_events t (sent w)
  ++ match flusher (emitter w) with
     | Some f => flat_map (topic_events t) (waiting f)
     | None => []
     end
  ++ topic_events t (emitted (emitter w)).

(** The event an action buffers; none when [emit] throws. *)
Definition accepted_by (w : World) (a : Action) : list BufferedEvent :=
  match a with
  | Emit eventTime now m data =>
      match emit eventTime now m data w with
      | Normal _ => [Scenario.event_of (emitter_ids (emitter w)) (eventTime, now, m, data)]
      | Throw _ => []
      end
  | _ => []
  end.

(** The events a schedule gets buffered, in order. *)
Fixpoint accepted (w : World) (schedule : list Action) : list BufferedEvent :=
  match schedule with
  | [] => []
  | a :: rest => accepted_by w a ++ accepted (step w a) rest
  end.

Definition about_topic (t : string) (evs : list BufferedEvent) : list BufferedEvent :=
  filter (fun ev => String.eqb (topic (meta ev)) t) evs.

(** A transport that publishes nothing. *)
Definition stalled_emitter : World :=
  start (new_EventEmitter {| publishRate := 0 |} Samples.alice 1000 0).

Definition payments : EventMetadata :=
  {| topic := "payments"; type := "settled"; subject := "payment-1"; id := None |}%string.

(** Emits to two topics around a flush, a failed and a successful send. *)
Definition busy : list Action :=
  [Emit 0 1 Samples.orders None;
   Emit 0 2 payments (Some (JNumber 7));
   Emit 0 3 Samples.orders (Some JNull);
   Flush;
   Emit 0 4 Samples.orders None;
   Flush;
   Settle 1 false;
   Settle 0 true;
   Then;
   Emit 0 5 payments None].

End Ledger.


(** ** The order of the default sort *)

Module Sorting.
Import Context.

(** [x] comes before every element of [l] in the order of [sort_le]. *)
Definition leads (x : option Z) (l : list (option Z)) : Prop :=
  Forall (fun y => sort_le x y = true) l.

Inductive Ordered : list (option Z) -> Prop :=
| Ordered_nil : Ordered []
| Ordered_cons x l : leads x l -> Ordered l -> Ordered (x :: l).

End Sorting.

(** ** Helpers for outgoing requests ([src/context.ts]) *)

Module Outgoing.
Import JS.

(** The fields of [Context] that [httpRequestHeaders] reads. [meta] holds
    [packageName], [fileName] and [revision]. *)
Record Context : Type := {
  meta : option (string * string * option string);
  operationId : option string;
  client : option Context.Client
}.

(** The context object [createContext] builds, seen as a [Context]. *)
Definition of_created (c : Context.Ctx) : Context :=
  {| meta := Context.meta c;
     operationId := Context.operationId c;
     client := Some (Context.client c) |}.

(** [if (s)] for an optional string: [undefined] and the empty string are
    falsy. *)
Definition truthy (s : option string) : bool :=
  match s with
  | Some x => negb (String.eqb x "")
  | None => false
  end.

(** [if (n)] for an optional number. *)
Definition truthy_number (n : option Z) : bool :=
  match n with
  | Some x => negb (x =? 0)
  | None => false
  end.

(** [s ?? d] *)
Definition or_else (s : option string) (d : string) : string :=
  match s with
  | Some x => x
  | None => d
  end.

(** [if (s) headers[k] = s] *)
Definition set_if (headers : Obj string) (k : string) (s : option string) : Obj string :=
  if truthy s then set headers k (or_else s "") else headers.

Definition httpRequestHeaders (context : Context) : Obj string :=
  let headers :=
    [("user-agent",
      or_else (option_map (fun m => fst (fst m)) (meta context)) "?" +++ "/" +++
      or_else (match meta context with
               | Some m => snd m
               | None => None
               end) "?")]%string in
  let headers := set_if headers "x-request-id" (operationId context) in
  match client context with
  | Some c =>
      let headers := set_if headers "x-client-id" (Context.client_id c) in
      let headers :=
        if truthy (Context.client_ip c) || truthy_number (Context.client_port c)
        then set headers "x-forwarded-for"
               (or_else (Context.client_ip c) "" +++ ":" +++
                or_else (option_map Number_toString (Context.client_port c)) "")
        else headers in
      set_if headers "x-forwarded-for-user-agent" (Context.client_userAgent c)
  | None => headers
  end.

(** [limitSize] *)
Definition limitSize (text : option string) : option string :=
  if Nat.ltb 2048 (match text with
                   | Some s => String.length s
                   | None => 0%nat
                   end)
  then option_map (substring 0 2048) text
  else text.

(** The response [throwOnNotOK] is given: its [ok] and [status], and what
    awaiting [text()] gives when there is such a method. *)
Record FetchResponse : Type := {
  ok : option bool;
  status : option Z;
  text : option (Completion string)
}.

(** What [throwOnNotOK] throws: the rejection of [text()], or the error
    it builds, given by the properties [Object.assign] leaves on it with
    [message] first (the stack is left out). *)
Inductive Raised : Type :=
| Rejection (reason : string)
| NotOK (error : Obj Json).

Definition throwOnNotOK (response : FetchResponse) (message : string)
    (data : option (Obj Json)) : FetchResponse + Raised :=
  match ok response with
  | Some false =>
      match text response with
      | Some (Throw reason) => inr (Rejection reason)
      | awaited =>
          let body := limitSize (match awaited with
                                 | Some (Normal s) => Some s
                                 | _ => None
                                 end) in
          inr (NotOK
                 (spread [("message", JString message)]
                    (spread_opt
                       [("response",
                         JObject [("status", of_option_number (status response));
                                  ("body", of_option_string body)])]
                       data)))%string
      end
  | _ => inl response
  end.

End Outgoing.

(** ** Choosing a CPU and an operating system ([resolve] and its callers) *)

Module Reflect.
Import JS.

Record PackageJsonConfiguration : Type := {
  nodeVersion : option string;
  cpus : option (list string);
  os : option (list string)
}.

(** [config.includes(s)] *)
Definition includes (config : list string) (s : string) : bool :=
  existsb (String.eqb s) config.

Definition resolve (config : option (list string)) (supported : list string)
    : option string :=
  match config with
  | None => hd_error supported
  | Some c =>
      find (fun s => includes c s && negb (includes c ("!" +++ s))) supported
  end.

(** What the two callers throw: the [Error] with its message, or the
    [TypeError] of calling [join] on [undefined]. *)
Inductive Failure : Type :=
| Unsupported (message : string)
| TypeError.

(** [if (!resolved) throw new Error(prefix + config!.join(', '))] *)
Definition resolved_or_throw (resolved : option string) (prefix : string)
    (config : option (list string)) : string + Failure :=
  if Outgoing.truthy resolved then inl (Outgoing.or_else resolved "")
  else match config with
       | Some c => inr (Unsupported (prefix +++ join ", " c))
       | None => inr TypeError
       end.

Definition resolveCpu (config : PackageJsonConfiguration) (supported : list string)
    : string + Failure :=
  resolved_or_throw (resolve (cpus config) supported) "Unsupported CPUs: " (cpus config).

Definition resolveOS (config : PackageJsonConfiguration) (supported : list string)
    : string + Failure :=
  resolved_or_throw (resolve (os config) supported)
    "Unsupported operating systems: " (os config).

(** [s] is listed in the configuration and not excluded by it. *)
Definition selectable (config : list string) (s : string) : Prop :=
  In s config /\ ~ In ("!" +++ s) config.

(** [r] is the first of [supported] that the configuration selects; with
    no configuration, the first of [supported]. *)
Definition first_selectable (config : option (list string)) (supported : list string)
    (r : string) : Prop :=
  exists before after,
    supported = before ++ r :: after
    /\ match config with
       | None => before = []
       | Some c => selectable c r /\ forall s, In s before -> ~ selectable c s
       end.

End Reflect.

(** ** Serving a request ([src/host/http.ts]) *)

Module Http.
Import JS.

(** [clientFromHeaders] *)
Definition nullish_or {A} (a b : option A) : option A :=
  match a with
  | Some x => Some x
  | None => b
  end.

Definition clientFromHeaders (headers : option (Obj string)) : Emitter.ClientInfo :=
  match headers with
  | None =>
      {| Emitter.operationId := None; Emitter.clientId := None;
         Emitter.clientIp := None; Emitter.clientPort := None;
         Emitter.userAgent := None |}
  | Some h =>
      {| Emitter.operationId := nullish_or (get h "x-request-id") (get h "request-id");
         Emitter.clientId :=
           nullish_or (get h "x-client-id")
             (nullish_or (get h "x-installation-id")
                (nullish_or (get h "client-id") (get h "installation-id")));
         Emitter.clientIp := get h "x-forwarded-for";
         Emitter.clientPort := None;
         Emitter.userAgent :=
           nullish_or (get h "x-forwarded-for-user-agent") (get h "user-agent") |}%string
  end.

(** A response body: a string or a [Buffer]. *)
Inductive Payload : Type :=
| Text (s : string)
| Binary (bytes : list Byte.byte).

(** The body a handler hands back: any value, or a [Buffer]. *)
Inductive Value : Type :=
| Plain (j : Json)
| Buffer (bytes : list Byte.byte).

Record FullResult : Type := {
  result_headers : option (Obj string);
  result_status : option Z;
  result_body : Value;
  result_isBase64Encoded : option bool
}.

(** [Result = void | string | FullResult] *)
Inductive Result : Type :=
| Void
| Str (s : string)
| Full (r : FullResult).

(** [Response & { logBody?: unknown }]; an absent [logBody] is
    [JUndefined]. *)
Record Response : Type := {
  headers : Obj string;
  status : Z;
  body : option Payload;
  isBase64Encoded : option bool;
  logBody : Json
}.

(** [{ headers, status }] *)
Definition bodyless (h : Obj string) (s : Z) : Response :=
  {| headers := h; status := s; body := None; isBase64Encoded := None;
     logBody := JUndefined |}.

(** [buffer.toString('base64')] *)
Definition base64_alphabet : string :=
  "ABCDEFGHIJKLMNOPQRSTUVWXYZabcdefghijklmnopqrstuvwxyz0123456789+/".

Definition base64_digit (n : nat) : ascii :=
  match String.get n base64_alphabet with
  | Some c => c
  | None => "="%char
  end.

Fixpoint base64 (bytes : list Byte.byte) : string :=
  match bytes with
  | [] => EmptyString
  | [a] =>
      let x := Byte.to_nat a in
      String (base64_digit (x / 4))
        (String (base64_digit (x mod 4 * 16)) "==")
  | [a; b] =>
      let x := Byte.to_nat a in
      let y := Byte.to_nat b in
      String (base64_digit (x / 4))
        (String (base64_digit (x mod 4 * 16 + y / 16))
           (String (base64_digit (y mod 16 * 4)) "="))
  | a :: b :: c :: rest =>
      let x := Byte.to_nat a in
      let y := Byte.to_nat b in
      let z := Byte.to_nat c in
      String (base64_digit (x / 4))
        (String (base64_digit (x mod 4 * 16 + y / 16))
           (String (base64_digit (y mod 16 * 4 + z / 64))
              (String (base64_digit (z mod 64)) (base64 rest))))
  end%nat.

(** [withContentType]: the handler's headers, with a content type when
    they have none. *)
Definition withContentType (headers : option (Obj string)) (contentType : string)
    : Obj string :=
  match headers with
  | None => [("content-type", contentType)]%string
  | Some h =>
      if Outgoing.truthy (get h "content-type") then h
      else set h "content-type" contentType
  end.

(** [result.status ?? 200] *)
Definition status_or (s : option Z) (d : Z) : Z :=
  match s with
  | Some x => x
  | None => d
  end.

Definition resultToResponse (result : Result) (withLogBody : bool) : Response :=
  match result with
  | Void => bodyless [] 204
  | Str s =>
      if String.eqb s "" then bodyless [] 204
      else {| headers := [("content-type", "text/plain")]%string;
              status := 200;
              body := Some (Text s);
              isBase64Encoded := None;
              logBody := if withLogBody then JString s else JUndefined |}
  | Full r =>
      match result_body r with
      | Plain JUndefined =>
          bodyless (match result_headers r with
                    | Some h => h
                    | None => []
                    end) (status_or (result_status r) 200)
      | Plain (JString s) =>
          {| headers := withContentType (result_headers r) "text/plain";
             status := status_or (result_status r) 200;
             body := Some (Text s);
             isBase64Encoded := result_isBase64Encoded r;
             logBody := if withLogBody then JString s else JUndefined |}
      | Buffer bytes =>
          {| headers := withContentType (result_headers r) "application/octet-stream";
             status := status_or (result_status r) 200;
             body := Some (Binary bytes);
             isBase64Encoded := result_isBase64Encoded r;
             logBody := if withLogBody then JString (base64 bytes) else JUndefined |}
      | Plain j =>
          {| headers := withContentType (result_headers r) "application/json";
             status := status_or (result_status r) 200;
             body := option_map Text (JSON_stringify j);
             isBase64Encoded := None;
             logBody := if withLogBody then j else JUndefined |}
      end
  end.

(** [RequestOptions]: the three shapes in one record; a [json] that is
    absent is [JUndefined]. *)
Record RequestOptions : Type := {
  uri : string;
  options_headers : option (Obj string);
  options_body : option string;
  json : Json
}.

(** [json !== undefined] *)
Definition hasJsonBody (options : RequestOptions) : bool :=
  match json options with
  | JUndefined => false
  | _ => true
  end.

(** [body !== undefined] *)
Definition hasStringBody (options : RequestOptions) : bool :=
  match options_body options with
  | Some _ => true
  | None => false
  end.

(** [withoutRequestBody]; the [method] its argument carries besides the
    options passes through unchanged. *)
Definition withoutRequestBody (options : RequestOptions) : RequestOptions :=
  if hasJsonBody options then
    {| uri := uri options; options_headers := options_headers options;
       options_body := options_body options; json := JUndefined |}
  else if hasStringBody options then
    {| uri := uri options; options_headers := options_headers options;
       options_body := None; json := json options |}
  else options.

Definition requestBody (options : RequestOptions) : Json :=
  if hasJsonBody options then json options
  else if hasStringBody options then of_option_string (options_body options)
  else JUndefined.

(** A thrown value as [errorToResponse] reads it,
    [e as { body?: unknown; statusCode?: number }]: [undefined] or [null],
    or a value with these two properties ([JUndefined] for no [body]). *)
Inductive Thrown : Type :=
| Nullish
| Carrying (body : Json) (statusCode : option Z).

(** [errorToResponse]; [None] is the [TypeError] of destructuring
    [undefined] or [null]. *)
Definition errorToResponse (e : Thrown) : option Response :=
  match e with
  | Nullish => None
  | Carrying b statusCode =>
      Some match b with
           | JString s =>
               {| headers := [("content-type", "text/plain")]%string;
                  status := status_or statusCode 500;
                  body := Some (Text s);
                  isBase64Encoded := None;
                  logBody := JUndefined |}
           | JNull | JArray _ | JObject _ =>
               {| headers := [("content-type", "application/json")]%string;
                  status := status_or statusCode 500;
                  body := option_map Text (JSON_stringify b);
                  isBase64Encoded := None;
                  logBody := JUndefined |}
           | _ => bodyless [] (status_or statusCode 500)
           end
  end.

(** What the handler is called with; the parsed [url] is left out. *)
Record HttpRequest : Type := {
  rawUrl : string;
  request_body : Json;
  request_headers : Obj string
}.

(** A call that returns or throws. *)
Inductive Outcome (A : Type) : Type :=
| Returns (a : A)
| Throws (e : Thrown).
Arguments Returns {A} a.
Arguments Throws {A} e.

(** What [executeRequest] does to its collaborators: the log calls by
    method and message (their fields are left out), the call of the
    handler and the call of [success]. *)
Inductive Event : Type :=
| Logged (method : Method) (message : string)
| Entered (request : HttpRequest)
| Succeeded.

(** A computation that calls collaborators and returns or throws. *)
Definition Run (A : Type) : Type := (list Event * Outcome A)%type.

Definition ret {A} (a : A) : Run A := ([], Returns a).

Definition raise {A} (e : Thrown) : Run A := ([], Throws e).

Definition bind {A B} (m : Run A) (f : A -> Run B) : Run B :=
  match m with
  | (events, Returns a) => let (more, r) := f a in (events ++ more, r)
  | (events, Throws e) => (events, Throws e)
  end.

(** [try { m } catch (e) { h e }] *)
Definition try_catch {A} (m : Run A) (h : Thrown -> Run A) : Run A :=
  match m with
  | (events, Throws e) => let (more, r) := h e in (events ++ more, r)
  | returned => returned
  end.

(** [try { m } finally { f }] for an [f] that does not throw. *)
Definition try_finally {A} (m : Run A) (f : Run unit) : Run A :=
  (fst m ++ fst f, snd m).

Definition call {A} (e : Event) (o : Outcome A) : Run A := ([e], o).

Definition log (method : Method) (message : string) : Run unit :=
  ([Logged method message], Returns tt).

Notation "x <- m ;; k" := (bind m (fun x => k))
  (at level 61, m at next level, right associativity).
Notation "m ;;; k" := (bind m (fun _ => k))
  (at level 61, right associativity).

(** [measure] of [src/context.ts]: whatever [fn] does, one trace entry. *)
Definition measure {A} (name : string) (fn : Run A) : Run A :=
  try_finally fn (log MTrace ("Measurement of " +++ name +++ " time")).

(** [HttpHandler]: what [executeRequest] reads of it.
    [excludeBodyFromLogs] is [handler.config?.excludeBodyFromLogs];
    [entry] is the handler applied to the context it is given, as a
    function of the request. *)
Record HttpHandler : Type := {
  handler_method : string;
  excludeBodyFromLogs : option bool;
  entry : HttpRequest -> Outcome Result
}.

(** [{ 'x-timeout': '1', ...response.headers }] *)
Definition timed_out (response : Response) : Response :=
  {| headers := spread [("x-timeout", "1")]%string (headers response);
     status := status response;
     body := body response;
     isBase64Encoded := isBase64Encoded response;
     logBody := logBody response |}.

(** [isShallow]; [SHALLOW_KEY] is [context.env.SHALLOW_KEY]. *)
Definition isShallow (SHALLOW_KEY : option string) (options : RequestOptions) : bool :=
  Outgoing.truthy SHALLOW_KEY
  && match options_headers options with
     | Some h =>
         match get h "x-shallow", SHALLOW_KEY with
         | Some given, Some key => String.eqb given key
         | _, _ => false
         end
     | None => false
     end.

(** [includeBodyInLogs] *)
Definition includeBodyInLogs (handler : HttpHandler) : bool :=
  negb match excludeBodyFromLogs handler with
       | Some b => b
       | None => false
       end.

(** The request object [req] the handler is called with. *)
Definition request_of (options : RequestOptions) : HttpRequest :=
  {| rawUrl := uri options;
     request_body := requestBody options;
     request_headers := match options_headers options with
                        | Some h => h
                        | None => []
                        end |}.

(** [executeRequest]. [aborted] is [context.signal.aborted] when the
    handler has returned, [success] is how the call of [success()] ends. *)
Definition executeRequest (SHALLOW_KEY : option string) (aborted : bool)
    (handler : HttpHandler) (options : RequestOptions)
    (success : Outcome unit) (rethrow : bool) : Run Response :=
  if isShallow SHALLOW_KEY options then
    log MTrace "Shallow request" ;;;
    ret (bodyless [] 204)
  else
    log MTrace "Request BEGIN" ;;;
    try_catch
      (let req := request_of options in
       result <- measure "execution" (call (Entered req) (entry handler req)) ;;
       let response := resultToResponse result (includeBodyInLogs handler) in
       let response := if aborted then timed_out response else response in
       (if status response <? 300 then
          log MDebug "Request END" ;;;
          call Succeeded success
        else
          log MWarn "Request END") ;;;
       ret response)
      (fun e =>
         match errorToResponse e with
         | Some response =>
             log MError "Request END" ;;;
             if negb rethrow || (rethrow && negb (status response =? 500))
             then ret response
             else raise e
         | None =>
             log MError "Could not convert exception to error response." ;;;
             ret (bodyless [] 500)
         end).




End Http.

(** ** The registry of handlers ([src/host/registry.ts]) *)

Module Registry.
Import JS.

(** [Method] *)
Inductive Method : Type := GET | POST | PUT | PATCH | DELETE.

Definition method_name (m : Method) : string :=
  match m with
  | GET => "GET"
  | POST => "POST"
  | PUT => "PUT"
  | PATCH => "PATCH"
  | DELETE => "DELETE"
  end.

(** A handler function, as [executeRequest] calls it. *)
Definition Handler : Type := Http.HttpRequest -> Http.Outcome Http.Result.

(** [Metadata]; a configuration is an object of settings. *)
Record Metadata : Type := {
  packageName : string;
  fileName : string;
  revision : option string;
  config : option (Obj Json)
}.

(** [HttpHandler]; the compiled [pathRegExp] is left out. *)
Record HttpHandler : Type := {
  handler_meta : option Metadata;
  handler_config : option (Obj Json);
  method : Method;
  pathPattern : string;
  entry : Handler
}.

(** The module state: [handlers], [metadata], and what was printed with
    [console.log]. [httpHostRegistry] is [httpHost] from the time the
    module is loaded. *)
Record State : Type := {
  handlers : Obj (list HttpHandler);
  metadata : option Metadata;
  console : list string
}.

Definition loaded : State :=
  {| handlers := []; metadata := None; console := [] |}.

(** [(handlers[type] ??= []).push(handler)] *)
Definition addHandler (type : string) (handler : HttpHandler) (s : State) : State :=
  {| handlers := set (handlers s) type
                   (match get (handlers s) type with
                    | Some registered => registered
                    | None => []
                    end ++ [handler]);
     metadata := metadata s;
     console := console s |}.

Definition getHandlers (type : string) (s : State) : list HttpHandler :=
  match get (handlers s) type with
  | Some registered => registered
  | None => []
  end.

Definition setMeta (packageName fileName : string) (revision : option string)
    (config : option (Obj Json)) (s : State) : State :=
  {| handlers := handlers s;
     metadata := Some {| packageName := packageName; fileName := fileName;
                         revision := revision; config := config |};
     console := console s |}.

Definition getMetadata (s : State) : option Metadata := metadata s.

Definition combineConfig (base override : option (Obj Json)) : option (Obj Json) :=
  match base, override with
  | None, _ => override
  | Some b, None => Some b
  | Some b, Some o => Some (spread (spread [] b) o)
  end.

Definition httpHost (meta : option Metadata) (cfg : option (Obj Json))
    (method : Method) (path : string) (entry : Handler) (s : State) : State :=
  addHandler "http"
    {| handler_meta := meta;
       handler_config := combineConfig (match meta with
                                        | Some m => config m
                                        | None => None
                                        end) cfg;
       method := method;
       pathPattern := path;
       entry := entry |} s.

(** [registerHttpHandler]: the state it leaves and how it ends. *)
Definition registerHttpHandler (method : Method) (path : string)
    (configOrHandler : Obj Json + Handler) (fn : option Handler) (s : State)
    : State * Completion unit :=
  match configOrHandler with
  | inr handler => (httpHost (getMetadata s) None method path handler s, Normal tt)
  | inl cfg =>
      match fn with
      | None => (s, Throw "Please provide a handler function.")
      | Some handler =>
          (httpHost (getMetadata s) (Some cfg) method path handler s, Normal tt)
      end
  end.

(** [console.log(a, b)] *)
Definition console_log (a b : string) (s : State) : State :=
  {| handlers := handlers s; metadata := metadata s;
     console := console s ++ [a +++ " " +++ b] |}.

End Registry.

(** ** Registering handlers ([src/http.ts]) *)

Module Api.
Import Registry.

Definition get (path : string) (configOrHandler : JS.Obj JS.Json + Handler)
    (fn : option Handler) (s : State) : State * JS.Completion unit :=
  registerHttpHandler GET path configOrHandler fn
    (console_log "Register GET handler" path s).

Definition post (path : string) (configOrHandler : JS.Obj JS.Json + Handler)
    (fn : option Handler) (s : State) : State * JS.Completion unit :=
  registerHttpHandler POST path configOrHandler fn
    (console_log "Register POST handler" path s).

Definition put (path : string) (configOrHandler : JS.Obj JS.Json + Handler)
    (fn : option Handler) (s : State) : State * JS.Completion unit :=
  registerHttpHandler PUT path configOrHandler fn
    (console_log "Register PUT handler" path s).

Definition patch (path : string) (configOrHandler : JS.Obj JS.Json + Handler)
    (fn : option Handler) (s : State) : State * JS.Completion unit :=
  registerHttpHandler PATCH path configOrHandler fn
    (console_log "Register PATCH handler" path s).

Definition del (path : string) (configOrHandler : JS.Obj JS.Json + Handler)
    (fn : option Handler) (s : State) : State * JS.Completion unit :=
  registerHttpHandler DELETE path configOrHandler fn
    (console_log "Register DELETE handler" path s).

(** What a module that registers handlers, and the host that loads it,
    may call. *)
Inductive Call : Type :=
| SetMeta (packageName fileName : string) (revision : option string)
    (config : option (JS.Obj JS.Json))
| Route (method : Method) (path : string) (configOrHandler : JS.Obj JS.Json + Handler)
    (fn : option Handler).

Definition route (method : Method) : string -> JS.Obj JS.Json + Handler -> option Handler ->
                                     State -> State * JS.Completion unit :=
  match method with
  | GET => get
  | POST => post
  | PUT => put
  | PATCH => patch
  | DELETE => del
  end.

(** A failed call leaves its exception with the caller; the state stays
    as the call left it. *)
Definition step (s : State) (c : Call) : State :=
  match c with
  | SetMeta packageName fileName revision config =>
      setMeta packageName fileName revision config s
  | Route method path configOrHandler fn =>
      fst (route method path configOrHandler fn s)
  end.

Definition run (s : State) (calls : list Call) : State := fold_left step calls s.

(** Whether a call registers a handler. *)
Definition accepted (c : Call) : bool :=
  match c with
  | Route _ _ (inr _) _ => true
  | Route _ _ (inl _) (Some _) => true
  | _ => false
  end.

(** The method and path of the handlers a list of calls registers. *)
Definition routes (calls : list Call) : list (Method * string) :=
  flat_map (fun c => match c with
                     | Route method path _ _ =>
                         if accepted c then [(method, path)] else []
                     | SetMeta _ _ _ _ => []
                     end) calls.

(** How many calls ask for a route. *)
Definition asked (calls : list Call) : nat :=
  List.length (filter (fun c => match c with
                                | Route _ _ _ _ => true
                                | SetMeta _ _ _ _ => false
                                end) calls).

End Api.

(** ** Sample requests, handlers and configurations *)

Module Served.
Import JS.

(** A handler that throws an error with [statusCode] 404. *)
Definition not_found : Http.HttpHandler :=
  {| Http.handler_method := "GET";
     Http.excludeBodyFromLogs := None;
     Http.entry := fun _ => Http.Throws (Http.Carrying (JString "missing") (Some 404)) |}%string.

(** A handler that throws an error without [statusCode]. *)
Definition broken : Http.HttpHandler :=
  {| Http.handler_method := "GET";
     Http.excludeBodyFromLogs := None;
     Http.entry := fun _ => Http.Throws (Http.Carrying JUndefined None) |}%string.

Definition plain_request : Http.RequestOptions :=
  {| Http.uri := "/orders"; Http.options_headers := None;
     Http.options_body := None; Http.json := JUndefined |}%string.

(** A package that excludes one CPU and lists none. *)
Definition without_arm : Reflect.PackageJsonConfiguration :=
  {| Reflect.nodeVersion := None; Reflect.cpus := Some ["!arm"]; Reflect.os := None |}%string.

(** Three transports: rates 7 and 3, and one without a rate. *)
Definition three_transports : list Logging.LogTransport :=
  [Samples.rated (Some 7); Samples.rated None; Samples.rated (Some 3)].

(** A handler registered with a configuration and no function. *)
Definition no_function : Api.Call :=
  Api.Route Registry.GET "/orders"%string (inl [("timeout", JNumber 5)]%string) None.

End Served.
(** * Facts *)

(** ** Doubles *)

Section NumberFacts.
Import JS.

Lemma pow2_pos (k : Z) : (0 < pow2 k)%Q.
Proof. unfold pow2. apply Qpower_0_lt. reflexivity. Qed.

Lemma pow2_plus (a b : Z) : (pow2 (a + b) == pow2 a * pow2 b)%Q.
Proof. unfold pow2. apply Qpower_plus. discriminate. Qed.

Lemma pow2_Z (k : Z) : 0 <= k -> (pow2 k == inject_Z (2 ^ k))%Q.
Proof. intros Hk. unfold pow2. rewrite (Zpower_Qpower 2 k Hk). reflexivity. Qed.

Lemma pow2_le (a b : Z) : a <= b -> (pow2 a <= pow2 b)%Q.
Proof. intros H. unfold pow2. apply Qpower_le_compat_l; [exact H|discriminate]. Qed.

Lemma pow2_lt_inv (a b : Z) : (pow2 a < pow2 b)%Q -> a < b.
Proof. intros H. unfold pow2 in H. apply (Qpower_lt_compat_l_inv 2); [exact H|reflexivity]. Qed.


(** [ilog2] is the binary exponent: [2 ^ ilog2 q <= q < 2 ^ (ilog2 q + 1)]. *)
Lemma ilog2_spec (q : Q) :
  (0 < q)%Q -> (pow2 (ilog2 q) <= q)%Q /\ (q < pow2 (ilog2 q + 1))%Q.
Proof.
  intros Hq. destruct q as [n d]. 
  assert (Hn : 0 < n).
  { unfold Qlt in Hq. simpl in Hq. lia. }
  unfold ilog2. cbn [Qnum Qden].
  set (a := Z.log2 n). set (c := Z.log2 (Z.pos d)).
  destruct (Z.log2_spec n Hn) as [Ha1 Ha2]. fold a in Ha1, Ha2.
  destruct (Z.log2_spec (Z.pos d) eq_refl) as [Hc1 Hc2]. fold c in Hc1, Hc2.
  assert (Ha0 : 0 <= a) by apply Z.log2_nonneg.
  assert (Hc0 : 0 <= c) by apply Z.log2_nonneg.
  assert (Hd : (0 < inject_Z (Z.pos d))%Q) by reflexivity.
  assert (Hnd : (n # d == inject_Z n / inject_Z (Z.pos d))%Q) by apply Qmake_Qdiv.
  assert (Qa1 : (pow2 a <= inject_Z n)%Q).
  { rewrite (pow2_Z a Ha0). rewrite <- Zle_Qle. exact Ha1. }
  assert (Qa2 : (inject_Z n < pow2 (a + 1))%Q).
  { rewrite (pow2_Z (a + 1)) by lia. rewrite <- Zlt_Qlt.
    replace (a + 1) with (Z.succ a) by lia. exact Ha2. }
  assert (Qc1 : (pow2 c <= inject_Z (Z.pos d))%Q).
  { rewrite (pow2_Z c Hc0). rewrite <- Zle_Qle. exact Hc1. }
  assert (Qc2 : (inject_Z (Z.pos d) < pow2 (c + 1))%Q).
  { rewrite (pow2_Z (c + 1)) by lia. rewrite <- Zlt_Qlt.
    replace (c + 1) with (Z.succ c) by lia. exact Hc2. }
  destruct (Qle_bool (pow2 (a - c)) (n # d)) eqn:Hle.
  - split; [apply Qle_bool_iff; exact Hle|].
    rewrite Hnd. apply Qlt_shift_div_r; [exact Hd|].
    apply Qlt_le_trans with (y := pow2 (a + 1)); [exact Qa2|].
    replace (a + 1) with (a - c + 1 + c) by lia. rewrite pow2_plus.
    apply Qmult_le_l; [apply pow2_pos|exact Qc1].
  - split.
    + rewrite Hnd. apply Qle_shift_div_l; [exact Hd|].
      apply Qle_trans with (y := pow2 a); [|exact Qa1].
      replace a with (a - c - 1 + (c + 1)) at 2 by lia. rewrite pow2_plus.
      apply Qmult_le_l; [apply pow2_pos|]. apply Qlt_le_weak. exact Qc2.
    + replace (a - c - 1 + 1) with (a - c) by lia.
      apply Qnot_le_lt. intros H. apply Qle_bool_iff in H. congruence.
Qed.

Lemma round_half_even_floor (x : Q) :
  Qfloor x <= round_half_even x <= Qfloor x + 1.
Proof.
  unfold round_half_even. destruct (Qcompare _ _); [destruct (Z.even _)| |]; lia.
Qed.

(** An integer below [x] is not above the rounding of [x]. *)
Lemma round_half_even_lower (x : Q) (k : Z) :
  (inject_Z k <= x)%Q -> k <= round_half_even x.
Proof.
  intros H. pose proof (round_half_even_floor x) as [Hf _].
  assert (k <= Qfloor x); [|lia].
  rewrite <- (Qfloor_Z k). apply Qfloor_resp_le. exact H.
Qed.

(** An integer above [x] is not below the rounding of [x]. *)
Lemma round_half_even_upper (x : Q) (k : Z) :
  (x <= inject_Z k)%Q -> round_half_even x <= k.
Proof.
  intros H. pose proof (round_half_even_floor x) as [_ Hf].
  pose proof (Qfloor_le x) as Hfl.
  assert (Hfk : Qfloor x <= k).
  { rewrite Zle_Qle. eapply Qle_trans; [exact Hfl|exact H]. }
  destruct (Z.eq_dec (Qfloor x) k) as [Heq|Hne]; [|lia].
  unfold round_half_even. rewrite Heq.
  assert (Hfrac : (x - inject_Z k < 1 # 2)%Q) by lra.
  destruct (Qcompare (x - inject_Z k) (1 # 2)) eqn:Hc; [|lia|].
  - apply Qeq_alt in Hc. rewrite Hc in Hfrac. discriminate Hfrac.
  - apply Qgt_alt in Hc. destruct (Qlt_irrefl _ (Qlt_trans _ _ _ Hc Hfrac)).
Qed.


Lemma MAX_VALUE_bounds : (inject_Z (2 ^ 53) <= MAX_VALUE)%Q /\ (0 < MAX_VALUE)%Q.
Proof. split; vm_compute; [discriminate|reflexivity]. Qed.


Lemma nearest_double_nonneg (q : Q) : (0 <= q)%Q -> (0 <= nearest_double q)%Q.
Proof.
  intros Hq. unfold nearest_double. destruct (Qeq_bool q 0); [apply Qle_refl|].
  set (e := Z.max _ _). apply Qmult_le_0_compat.
  - rewrite <- (Zle_Qle 0). apply round_half_even_lower.
    apply Qle_shift_div_l; [apply pow2_pos|]. rewrite Qmult_0_l. exact Hq.
  - apply Qlt_le_weak. apply pow2_pos.
Qed.

(** A quotient of two numbers that is not negative exceeds every
    negative number, however it is rounded. *)
Lemma to_double_nonneg (q t : Q) :
  (0 <= q)%Q -> (t < 0)%Q -> greater (to_double q) t = true.
Proof.
  intros Hq Ht. pose proof (nearest_double_nonneg q Hq) as Hr.
  destruct MAX_VALUE_bounds as [_ Hmax].
  unfold to_double. destruct (Qle_bool (nearest_double q) MAX_VALUE); [|reflexivity].
  destruct (Qle_bool (- MAX_VALUE) (nearest_double q)) eqn:Hlow.
  - simpl. apply negb_true_iff. apply not_true_iff_false. intros H.
    apply Qle_bool_iff in H. lra.
  - exfalso. apply not_true_iff_false in Hlow. apply Hlow. apply Qle_bool_iff. lra.
Qed.


Lemma round_half_even_whole (x : Q) (k : Z) : (x == inject_Z k)%Q -> round_half_even x = k.
Proof.
  intros H. apply Z.le_antisymm.
  - apply round_half_even_upper. rewrite H. apply Qle_refl.
  - apply round_half_even_lower. rewrite H. apply Qle_refl.
Qed.

(** A whole number of magnitude at most [2 ^ 53] is a double. *)
Lemma nearest_double_whole (q : Q) (z : Z) :
  (q == inject_Z z)%Q -> Z.abs z <= 2 ^ 53 -> (nearest_double q == inject_Z z)%Q.
Proof.
  intros Hq Hz. unfold nearest_double.
  destruct (Qeq_bool q 0) eqn:Hq0.
  { apply Qeq_bool_iff in Hq0. rewrite <- Hq, Hq0. reflexivity. }
  assert (Hnz : z <> 0).
  { intros ->. apply not_true_iff_false in Hq0. apply Hq0. apply Qeq_bool_iff. exact Hq. }
  assert (Ha : (Qabs q == inject_Z (Z.abs z))%Q).
  { rewrite Hq. unfold Qabs, inject_Z. reflexivity. }
  assert (Hpos : (0 < Qabs q)%Q).
  { rewrite Ha. rewrite <- (Zlt_Qlt 0). lia. }
  destruct (ilog2_spec _ Hpos) as [Hlo Hhi].
  set (k := ilog2 (Qabs q)) in *.
  assert (Hk0 : 0 <= k).
  { assert (0 < k + 1); [|lia]. apply pow2_lt_inv.
    apply Qle_lt_trans with (y := Qabs q); [|exact Hhi].
    rewrite Ha. change (pow2 0) with (inject_Z 1). rewrite <- Zle_Qle. lia. }
  assert (Hk53 : k <= 53).
  { assert (k < 54); [|lia]. apply pow2_lt_inv.
    apply Qle_lt_trans with (y := Qabs q); [exact Hlo|].
    rewrite Ha, (pow2_Z 54) by lia. rewrite <- Zlt_Qlt. lia. }
  replace (Z.max (k - 52) (-1074)) with (k - 52) by lia.
  destruct (Z.le_gt_cases k 52) as [Hk|Hk].
  - (* the quotient by a power of two below one is a whole number *)
    set (s := 52 - k).
    assert (Hinv : (/ pow2 (k - 52) == inject_Z (2 ^ s))%Q).
    { rewrite <- (pow2_Z s) by (unfold s; lia).
      replace (k - 52) with (- s) by (unfold s; lia).
      unfold pow2. rewrite Qpower_opp. apply Qinv_involutive. }
    assert (Hx : (q / pow2 (k - 52) == inject_Z (z * 2 ^ s))%Q).
    { unfold Qdiv. rewrite Hinv, Hq, inject_Z_mult. reflexivity. }
    rewrite (round_half_even_whole _ _ Hx).
    rewrite inject_Z_mult, <- Hinv.
    rewrite <- Qmult_assoc, (Qmult_comm (/ _)), Qmult_inv_r, Qmult_1_r;
      [reflexivity|].
    intros H0. pose proof (pow2_pos (k - 52)) as Hp. lra.
  - (* magnitude 2 ^ 53 *)
    assert (k = 53) by lia. subst k.
    assert (Hbig : 2 ^ 53 <= Z.abs z).
    { rewrite Zle_Qle, <- Ha, <- (pow2_Z 53) by lia.
      match goal with H : ilog2 (Qabs q) = 53 |- _ => rewrite <- H at 1 end.
      exact Hlo. }
    assert (Hhalf : z = 2 * (z / 2)).
    { assert (Z.abs z = 2 ^ 53) by lia.
      destruct (Z.abs_eq_or_opp z) as [He|He]; rewrite He in *.
      - match goal with H : z = 2 ^ 53 |- _ => rewrite H end. reflexivity.
      - assert (z = - 2 ^ 53) by lia.
        match goal with H : z = - 2 ^ 53 |- _ => rewrite H end. reflexivity. }
    match goal with H : ilog2 (Qabs q) = 53 |- _ => rewrite H end.
    change (53 - 52) with 1. change (pow2 1) with 2%Q.
    assert (Hx : (q / 2 == inject_Z (z / 2))%Q).
    { rewrite Hq. rewrite Hhalf at 1. rewrite inject_Z_mult.
      change (inject_Z 2) with 2%Q. field. }
    rewrite (round_half_even_whole _ _ Hx).
    rewrite Hhalf at 2. rewrite inject_Z_mult. change (inject_Z 2) with 2%Q. ring.
Qed.

(** On doubles of every kind the kernel's binary64 sum, product and
    quotient are what [to_double] makes of the exact result. *)
Lemma to_double_agrees_with_binary64 :
  forallb (fun a =>
             forallb (fun b =>
                        Binary64.agrees Qplus PrimFloat.add a b
                        && Binary64.agrees Qmult PrimFloat.mul a b
                        && Binary64.agrees_on_quotient a b)
               Binary64.some_doubles)
    Binary64.some_doubles = true.
Proof. vm_compute. reflexivity. Qed.

End NumberFacts.

(** ** Objects *)

Section ObjectFacts.
Import JS.

Lemma insert_index_permutation {V} (n : Z) (kv : string * V) (l : list (Z * (string * V))) :
  Permutation (map snd (insert_index n kv l)) (kv :: map snd l).
Proof.
  induction l as [|[n' kv'] l IH]; simpl; [apply Permutation_refl|].
  destruct (n <? n'); simpl; [apply Permutation_refl|].
  eapply Permutation_trans; [apply perm_skip; exact IH|apply perm_swap].
Qed.

(** [Object.entries] lists every property once. *)
Lemma entries_permutation {V} (o : Obj V) : Permutation (entries o) o.
Proof.
  unfold entries, named. induction o as [|kv o IH]; simpl; [apply Permutation_refl|].
  destruct (array_index (fst kv)) as [n|].
  - eapply Permutation_trans.
    + apply Permutation_app_tail. apply insert_index_permutation.
    + simpl. apply perm_skip. exact IH.
  - eapply Permutation_trans; [apply Permutation_sym; apply Permutation_middle|].
    apply perm_skip. exact IH.
Qed.

(** Without array indices among the keys, [Object.entries] keeps the
    order of creation. *)
Lemma entries_named {V} (o : Obj V) :
  (forall kv, In kv o -> array_index (fst kv) = None) -> entries o = o.
Proof.
  unfold entries, named. induction o as [|kv o IH]; intros H; [reflexivity|].
  simpl. rewrite (H kv (or_introl eq_refl)). simpl.
  assert (Hrest : forall kv', In kv' o -> array_index (fst kv') = None).
  { intros kv' Hin. apply H. right. exact Hin. }
  specialize (IH Hrest).
  assert (Hnil : map snd (indexed o) = []).
  { clear IH H. induction o as [|kv' o IH']; [reflexivity|]. simpl.
    rewrite (Hrest kv' (or_introl eq_refl)). apply IH'.
    intros kv'' Hin. apply Hrest. right. exact Hin. }
  rewrite Hnil in *. simpl in IH. rewrite IH. reflexivity.
Qed.

Lemma entries_one {V} (k : string) (v : V) : entries [(k, v)] = [(k, v)].
Proof. unfold entries, named. simpl. destruct (array_index k); reflexivity. Qed.

Lemma get_permutation {V} (a b : Obj V) (k : string) :
  Permutation a b -> NoDup (map fst a) -> get a k = get b k.
Proof.
  induction 1 as [|[k0 v0] a b Hab IH|[k1 v1] [k2 v2] a|a b c Hab IH1 Hbc IH2];
    intros Hnd.
  - reflexivity.
  - simpl. inversion Hnd; subst. rewrite IH by assumption. reflexivity.
  - simpl. destruct (String.eqb k2 k) eqn:H2, (String.eqb k1 k) eqn:H1; try reflexivity.
    apply String.eqb_eq in H1, H2. subst k1 k2.
    simpl in Hnd. inversion Hnd as [|? ? Hnotin _]; subst.
    exfalso. apply Hnotin. left. reflexivity.
  - rewrite IH1 by exact Hnd. apply IH2.
    apply (Permutation_NoDup (Permutation_map fst Hab)). exact Hnd.
Qed.

Lemma entries_keys {V} (o : Obj V) :
  NoDup (map fst o) -> NoDup (map fst (entries o)).
Proof.
  apply Permutation_NoDup, Permutation_map, Permutation_sym, entries_permutation.
Qed.

Lemma get_entries {V} (o : Obj V) (k : string) :
  NoDup (map fst o) -> get (entries o) k = get o k.
Proof.
  intros Hnd. symmetry. apply get_permutation; [|exact Hnd].
  apply Permutation_sym, entries_permutation.
Qed.

Lemma entries_nil {V} : entries (@nil (string * V)) = [].
Proof. reflexivity. Qed.

End ObjectFacts.

Section GateFacts.
Import JS Logging.

Lemma startFlush_progress (batch : Batch) (h : Host) :
  (progress h < progress (startFlush batch h))%nat.
Proof.
  unfold startFlush, progress.
  destruct (flusher (buffer h)) as [f|]; simpl.
  - rewrite length_app; simpl; lia.
  - rewrite length_app; simpl.
    destruct (sendEntries (transport (buffer h)) batch); simpl; lia.
Qed.

Lemma flush_progress (h : Host) :
  entries (buffer h) <> [] -> (progress h < progress (fst (flush h)))%nat.
Proof.
  intros Hne. unfold flush.
  destruct (entries (buffer h)) as [|e es] eqn:He; [congruence|].
  pose proof (startFlush_progress (e :: es) h) as Hp.
  remember (startFlush (e :: es) h) as h1.
  unfold progress in *; simpl.
  destruct (timeout (buffer h1)); simpl; lia.
Qed.

Lemma collect_progress offset lvl n message err fields reserved custom (h : Host) :
  (progress h < progress (collect offset lvl n message err fields reserved custom h))%nat.
Proof.
  unfold collect.
  set (e := make_entry _ _ _ _ _ _ _ _).
  set (h1 := update (push e) h).
  assert (Hsame : progress h1 = progress h) by reflexivity.
  assert (Hne : entries (buffer h1) <> []).
  { simpl. intros Habs. apply app_eq_nil in Habs. destruct Habs; discriminate. }
  destruct (asyncTransport (buffer h1)) as [[|]|] eqn:Hmode.
  - match goal with |- context [if ?c then _ else _] => destruct c end.
    + rewrite <- Hsame. apply flush_progress, Hne.
    + rewrite <- Hsame. unfold progress; simpl. lia.
  - rewrite <- Hsame. unfold progress; simpl. rewrite length_app. simpl. lia.
  - rewrite <- Hsame. unfold progress. simpl in *. rewrite Hmode. lia.
Qed.

Lemma collect_changes offset lvl n message err fields reserved custom (h : Host) :
  collect offset lvl n message err fields reserved custom h <> h.
Proof.
  intros Heq.
  pose proof (collect_progress offset lvl n message err fields reserved custom h) as Hp.
  rewrite Heq in Hp. lia.
Qed.

Lemma derived_level (es : list Enrichment) (lg : EnrichingLogger) :
  level (derived lg es) = level lg.
Proof.
  revert lg. induction es as [|e es IH]; intros lg; [reflexivity|].
  simpl. rewrite IH. destruct e; reflexivity.
Qed.

(** C5. Take the logger that [makeLogger] builds for the configured
    minimum, or any logger derived from it by [enrich] and
    [enrichReserved]. A leveled call reaches [collect] of the buffer, with
    the numeric severity of its level, exactly when its level is at least
    as severe as the minimum in the order trace < debug < info < warning <
    error < fatal; a fatal call always does; a rejected call leaves the
    host as it was, nothing is serialized or stored. *)
Theorem leveled_call_gate :
  forall (t : LogTransport) (minimumLogLevel : option LogLevel) (signal : AbortSignal)
         (es : list Enrichment) (m : Method) (offset : Q) (message : string)
         (err : Unknown) (fields : option (Obj Json)) (h : Host),
    let lg := derived (fst (makeLogger t minimumLogLevel signal)) es in
    let delegated :=
      exists name,
        invoke m lg offset message err fields h =
        collect offset name (numeric (method_level m)) message err fields
          (reservedEnrichment lg) (customEnrichment lg) h in
    (delegated <-> at_least_as_severe (method_level m) (threshold minimumLogLevel))
    /\ (~ at_least_as_severe (method_level m) (threshold minimumLogLevel) ->
        invoke m lg offset message err fields h = h)
    /\ (at_least_as_severe Fatal (threshold minimumLogLevel)
        /\ fatal lg offset message err fields h =
           collect offset Fatal 0 message err fields
             (reservedEnrichment lg) (customEnrichment lg) h).
Proof.
  intros t minimumLogLevel signal es m offset message err fields h lg delegated.
  assert (Hlevel : level lg = 5 - severity (threshold minimumLogLevel)).
  { unfold lg. rewrite derived_level. destruct minimumLogLevel as [[]|]; reflexivity. }
  assert (Hrej : ~ at_least_as_severe (method_level m) (threshold minimumLogLevel) ->
                 invoke m lg offset message err fields h = h).
  { unfold at_least_as_severe. intros Hn.
    destruct m; simpl in Hn |- *;
      unfold trace, debug, info, warn, error; rewrite ?Hlevel;
      try (exfalso; apply Hn; destruct minimumLogLevel as [[]|]; simpl; lia);
      match goal with
      | |- (if ?c then _ else _) = _ =>
          replace c with true; [reflexivity|symmetry; apply Z.ltb_lt; lia]
      end. }
  split; [|split].
  - split.
    + intros [name Hd].
      destruct (Z_le_gt_dec (severity (threshold minimumLogLevel))
                  (severity (method_level m))) as [Hle|Hgt]; [exact Hle|].
      exfalso. rewrite Hrej in Hd by (unfold at_least_as_severe; lia).
      symmetry in Hd. exact (collect_changes _ _ _ _ _ _ _ _ _ Hd).
    + unfold at_least_as_severe, delegated. intros Hs.
      destruct m; simpl in Hs |- *;
        unfold trace, debug, info, warn, error, fatal; rewrite ?Hlevel;
        try (eexists; reflexivity);
        match goal with
        | |- exists _, (if ?c then _ else _) = _ =>
            replace c with false; [eexists; reflexivity|symmetry; apply Z.ltb_ge; lia]
        end.
  - exact Hrej.
  - split.
    + unfold at_least_as_severe. destruct minimumLogLevel as [[]|]; simpl; lia.
    + reflexivity.
Qed.

End GateFacts.

(** ** What the logger writes *)

Section LoggerFacts.
Import JS Logging Samples.

(** C4. [info] and [warn] pass the gate of a logger without a minimum, and
    the entry each of them stores carries the level [debug], in the entry
    and in the serialized record, not [info] and [warning]. *)
Theorem info_and_warn_record_debug :
  let stored call :=
    map (fun e => (entry_level e, entry_json e))
      (entries (buffer (call root_logger (12 # 1)%Q "hello"%string UUndefined None fresh_host))) in
  let expected :=
    [(Debug,
      JSON_stringify_object
        [("timestamp", JString "2023-11-14T22:13:20.0120000Z");
         ("level", JString "debug");
         ("message", JString "hello")]%string)] in
  stored info = expected /\ stored warn = expected
  /\ level_name (method_level MInfo) = "info"%string
  /\ level_name (method_level MWarn) = "warning"%string.
Proof. vm_compute. repeat split; reflexivity. Qed.

(** C3. The logger [createContext] hands out, on the result and on the
    context, is the one [makeLogger] returned: its reserved enrichment is
    what the signal contributes, whatever the client is. The logger that
    carries the client's fields is computed and dropped, so a record
    written through the context's logger has no [operationId] and no
    [client], where a record written through the dropped logger has. *)
Theorem createContext_logger_lacks_client :
  (forall clientInfo loggers eventTransport timeouts outerSignal m origin now,
      let c := Context.createContext clientInfo loggers eventTransport timeouts
                 outerSignal m origin now in
      Context.log (Context.context c) = Context.created_log c
      /\ reservedEnrichment (Context.created_log c) = Some (enumerable outerSignal)
      /\ customEnrichment (Context.created_log c) = None)
  /\ (let c := Context.createContext alice [async_transport]
                 {| Emitter.publishRate := 1 |}
                 {| Context.default := 15; Context.cap := None |}
                 plain_signal None origin100ns 0 in
      let written lg :=
        log_record origin100ns 0 Info "hello" UUndefined None
          (reservedEnrichment lg) (customEnrichment lg) in
      let intended :=
        enrichReserved (Context.created_log c) (Context.ids_enrichment alice) in
      get (written (Context.log (Context.context c))) "operationId" = None
      /\ get (written (Context.log (Context.context c))) "client" = None
      /\ get (written intended) "operationId" = Some (JString "op-1")
      /\ get (written intended) "client" =
         Some (JObject [("id", JString "alice"); ("ip", JString "10.0.0.7");
                        ("port", JNumber 443); ("userAgent", JString "curl")]))%string.
Proof.
  split.
  - intros. unfold c, Context.createContext.
    destruct (makeLogger _ _ _) as [lg buf] eqn:Hmk.
    unfold makeLogger in Hmk. inversion Hmk; subst. simpl. repeat split.
  - vm_compute. repeat split; reflexivity.
Qed.

(** C2. For members declaring the rates 9 and 10 the fan-out transport
    declares 10: the default sort orders the rates as strings, and the
    string of 10 comes before the string of 9. The minimum is 9. *)
Theorem LogMulticaster_rate_is_not_minimum :
  let members := [rated (Some 9); rated (Some 10)] in
  publishRate (Context.LogMulticaster members) = Some 10
  /\ Reference.minimum_rate (map publishRate members) = 9
  /\ Context.sort (map publishRate members) = [Some 10; Some 9].
Proof. vm_compute. repeat split; reflexivity. Qed.

End LoggerFacts.

(** ** The overflow rule of the emitter *)

Section OverflowFacts.
Import JS Emitter Samples.





(** The quotient is a double. At a rate of a third, the double
    0.333..., with one event buffered and 3 ms left, the exact quotient
    exceeds 3 and the double it rounds to is 3: [emit] accepts. *)
Lemma emit_rounds_the_quotient :
  let third := nearest_double (1 # 3) in
  let w := run (start (new_EventEmitter {| publishRate := third |} alice 3 0))
               [Emit 0 0 orders None] in
  buffered (emitter w) = 1
  /\ (deadline (emitter w) - 0 < inject_Z (buffered (emitter w)) / third)%Q
  /\ match divide (inject_Z (buffered (emitter w))) third with
     | Finite q => (q == 3)%Q
     | _ => False
     end
  /\ exists w', emit 0 0 orders None w = Normal w'.
Proof.
  cbv zeta. split; [vm_compute; reflexivity|]. split; [vm_compute; reflexivity|].
  split; [vm_compute; reflexivity|]. eexists. vm_compute. reflexivity.
Qed.

(** A topic named like a property of [Object.prototype] finds that
    property where the list of the topic is looked up: [emit] throws a
    type error and buffers nothing. *)
Lemma emit_on_inherited_topic :
  emit 0 0 {| topic := "constructor"; type := "created"; subject := "order-1";
              id := None |} None unbounded_emitter
  = Throw "events.push is not a function".
Proof. vm_compute. reflexivity. Qed.

End OverflowFacts.

(** ** Flushing with nothing buffered *)

Section EmptyFlushFacts.
Import JS Samples Scenario.

(** C7, as the code has it. [flush] on a log buffer without entries
    gives the host back unchanged and a future that has returned. [flush]
    on an emitter whose buffer is empty calls no transport and no logger
    and keeps the buffer empty and the count of buffered events, but it
    sets the size to zero and puts an empty round on the chain of flushes,
    starting the chain when there is none; the future it returns awaits
    that chain, so it settles at once exactly when no earlier flush still
    waits for the transport. *)
Theorem flush_of_empty_buffers :
  (forall h : Logging.Host,
      Logging.entries (Logging.buffer h) = [] ->
      Logging.flush h = (h, Logging.Returned)
      /\ Logging.resolves_at_once (snd (Logging.flush h)) = true)
  /\ (forall w : Emitter.World,
         Emitter.emitted (Emitter.emitter w) = [] ->
         let w' := fst (Emitter.flush w) in
         let e := Emitter.emitter w in
         let e' := Emitter.emitter w' in
         Emitter.sent w' = Emitter.sent w
         /\ Emitter.fatals w' = Emitter.fatals w
         /\ Emitter.emitted e' = []
         /\ Emitter.buffered e' = Emitter.buffered e
         /\ Emitter.size e' = 0
         /\ Emitter.flusher e' =
            Some match Emitter.flusher e with
                 | Some f => {| Emitter.outstanding := Emitter.outstanding f;
                                Emitter.waiting := Emitter.waiting f ++ [[]] |}
                 | None => {| Emitter.outstanding := []; Emitter.waiting := [] |}
                 end
         /\ snd (Emitter.flush w) = Emitter.Awaiting (Emitter.flusher e')
         /\ Emitter.resolves_at_once (snd (Emitter.flush w)) =
            match Emitter.flusher e with
            | Some f => Emitter.idle f
            | None => true
            end).
Proof.
  split.
  - intros h He. unfold Logging.flush. rewrite He. split; reflexivity.
  - intros w He w' e e'. subst w' e' e. unfold Emitter.flush, Emitter.startFlush.
    rewrite He.
    destruct (Emitter.flusher (Emitter.emitter w)) as [f|] eqn:Hf; simpl; rewrite ?Hf; simpl.
    + repeat split. unfold Emitter.idle; simpl.
      rewrite forallb_app; simpl. rewrite andb_true_r. reflexivity.
    + repeat split. apply app_nil_r.
Qed.

Lemma flush_of_empty_buffers_witness :
  (Logging.entries (Logging.buffer fresh_host) = []
   /\ Logging.flush fresh_host = (fresh_host, Logging.Returned))
  /\ (Emitter.emitted (Emitter.emitter flushing) = []
      /\ Emitter.sent (fst (Emitter.flush flushing)) = Emitter.sent flushing).
Proof.
  split; (split; [reflexivity|]).
  - apply (proj1 flush_of_empty_buffers fresh_host). reflexivity.
  - apply (proj2 flush_of_empty_buffers flushing). reflexivity.
Defined.

(** C7, as stated, fails for the emitter. With one event handed to the
    transport and nothing buffered, [flush] changes the emitter and its
    future does not settle before that send does; and on an emitter that
    never held an event, [flush] still changes the state: it installs the
    chain. *)
Lemma emitter_flush_of_empty_buffer_is_not_a_noop :
  (Emitter.emitted (Emitter.emitter flushing) = []
   /\ fst (Emitter.flush flushing) <> flushing
   /\ Emitter.resolves_at_once (snd (Emitter.flush flushing)) = false)
  /\ (Emitter.emitted (Emitter.emitter slow_emitter) = []
      /\ Emitter.buffered (Emitter.emitter slow_emitter) = 0
      /\ Emitter.flusher (Emitter.emitter slow_emitter) = None
      /\ fst (Emitter.flush slow_emitter) <> slow_emitter).
Proof.
  split; [split; [reflexivity|split]|].
  - intros Heq.
    apply (f_equal (fun w => match Emitter.flusher (Emitter.emitter w) with
                             | Some f => List.length (Emitter.waiting f)
                             | None => 0%nat
                             end)) in Heq.
    vm_compute in Heq. discriminate.
  - reflexivity.
  - repeat (split; [reflexivity|]).
    intros Heq.
    apply (f_equal (fun w => match Emitter.flusher (Emitter.emitter w) with
                             | Some f => true
                             | None => false
                             end)) in Heq.
    vm_compute in Heq. discriminate.
Qed.

End EmptyFlushFacts.

(** ** The automatic flush of the emitter *)

Section AutoFlushFacts.
Import JS Emitter Samples Scenario.

Lemma get_set_same {V} (o : Obj V) (k : string) (v : V) :
  get (set o k v) k = Some v.
Proof.
  induction o as [|[k' v'] o IH]; simpl.
  - rewrite String.eqb_refl. reflexivity.
  - destruct (String.eqb k' k) eqn:Hk; simpl; rewrite Hk; [reflexivity|exact IH].
Qed.


















(** A flush calls the transport once per topic in the order of
    [Object.entries]: topics that read as array indices first, in
    ascending order, then the others in the order they were first
    emitted to. *)
Lemma flush_sends_index_topics_first :
  let about (t : string) :=
    Emit 0 0 {| topic := t; type := "created"; subject := "order-1"; id := None |}
         None in
  map fst (sent (run unbounded_emitter
                   [about "b"; about "10"; about "a"; about "2"; Flush]%string))
  = ["2"; "10"; "b"; "a"]%string.
Proof. vm_compute. reflexivity. Qed.

End AutoFlushFacts.

(** ** The order of the batches a log buffer sends *)

Section OrderingFacts.
Import JS Logging Samples Ordering.





Lemma tracked_snoc (w : list WireEvent) (e : WireEvent) :
  filter tracked (w ++ [e]) = filter tracked w ++ (if tracked e then [e] else []).
Proof. rewrite filter_app. simpl. destruct (tracked e); reflexivity. Qed.

Lemma delivered_snoc (w : list WireEvent) (e : WireEvent) :
  delivered (w ++ [e]) =
  delivered w ++ match e with Send _ b _ => [b] | Done _ _ => [] end.
Proof. unfold delivered. rewrite flat_map_app. simpl. rewrite app_nil_r. reflexivity. Qed.

Lemma flush_keeps (h : Host) : Invariant h -> Keeps h (fst (flush h)) [].
Proof.
  intros Hinv. pose proof Hinv as [Hser Hsync Hprobe]. unfold flush.
  case_eq (entries (buffer h)); [intros He | intros e es He].
  - simpl. split; [exact Hinv|]. split; [symmetry; apply app_nil_r|reflexivity].
  - assert (Hmode : asyncTransport (buffer h) <> Some false).
    { intros Hm. destruct (Hsync Hm) as [_ Hnil]. congruence. }
    unfold startFlush. unfold current in Hser.
    destruct (flusher (buffer h)) as [f|] eqn:Hf.
    + assert (Hgoal : forall h3,
                 wire h3 = wire h ->
                 buffer h3 = set_timeout None (set_entries [] 0
                    (set_flusher (Some {| in_flight := in_flight f;
                                          chained := chained f ++ [e :: es];
                                          rejected := rejected f |}) (buffer h))) ->
                 immediates h3 = immediates h ->
                 performanceTimeOrigin100ns h3 = performanceTimeOrigin100ns h ->
                 Keeps h h3 []).
      { intros h3 Hw Hb Hi Ho. split; [constructor|split].
        - unfold current. rewrite Hw, Hb. simpl. exact Hser.
        - rewrite Hb. simpl. intros Hm. contradiction.
        - rewrite Hi, Hb. simpl. exact Hprobe.
        - unfold history, queued. rewrite Hw, Hb. simpl. rewrite Hf, He.
          rewrite concat_app. simpl. rewrite !app_nil_r. reflexivity.
        - exact Ho. }
      simpl. destruct (timeout (buffer h)) eqn:Ht; simpl; apply Hgoal; simpl;
        try reflexivity.
      all: unfold set_timeout, set_entries, set_flusher; simpl; rewrite ?Ht; reflexivity.
    + unfold call_sendEntries.
      assert (Hgoal : forall h3,
                 wire h3 = wire h ++ [Send InStartFlush (e :: es)
                                        (sendEntries (transport (buffer h)) (e :: es))] ->
                 buffer h3 = set_timeout None (set_entries [] 0
                    (set_flusher (if sendEntries (transport (buffer h)) (e :: es)
                                  then Some (sending (e :: es)) else None) (buffer h))) ->
                 immediates h3 = immediates h ->
                 performanceTimeOrigin100ns h3 = performanceTimeOrigin100ns h ->
                 Keeps h h3 []).
      { intros h3 Hw Hb Hi Ho. split; [constructor|split].
        - unfold current. rewrite Hw, Hb, tracked_snoc. simpl.
          destruct (sendEntries (transport (buffer h)) (e :: es)); simpl.
          + apply serial_promised. exact Hser.
          + apply serial_answered. exact Hser.
        - rewrite Hb. simpl. intros Hm. contradiction.
        - rewrite Hi, Hb. simpl. exact Hprobe.
        - unfold history, queued. rewrite Hw, Hb, delivered_snoc. simpl. rewrite Hf, He.
          rewrite concat_app. simpl.
          destruct (sendEntries (transport (buffer h)) (e :: es)); simpl;
            rewrite !app_nil_r; reflexivity.
        - exact Ho. }
      simpl. destruct (timeout (buffer h)) eqn:Ht; simpl; apply Hgoal; simpl;
        try reflexivity.
      all: unfold set_timeout, set_entries, set_flusher; simpl; rewrite ?Ht; reflexivity.
Qed.

Lemma Keeps_trans (h h1 h2 : Host) (a b : Batch) :
  Keeps h h1 a -> Keeps h1 h2 b -> Keeps h h2 (a ++ b).
Proof.
  intros (_ & Hh1 & Ho1) (Hi2 & Hh2 & Ho2). split; [exact Hi2|]. split.
  - rewrite Hh2, Hh1, app_assoc. reflexivity.
  - rewrite Ho2. exact Ho1.
Qed.

Lemma collect_keeps offset lvl n message err fields reserved custom (h : Host) :
  Invariant h ->
  Keeps h (collect offset lvl n message err fields reserved custom h)
    [make_entry (performanceTimeOrigin100ns h) offset lvl message err
       fields reserved custom].
Proof.
  intros Hinv. pose proof Hinv as [Hser Hsync Hprobe]. unfold collect.
  set (e := make_entry _ _ _ _ _ _ _ _).
  set (h1 := update (push e) h).
  assert (Hhist : history h1 = history h ++ [e]).
  { unfold history, queued. simpl. rewrite !app_assoc. reflexivity. }
  change (asyncTransport (buffer h1)) with (asyncTransport (buffer h)).
  case_eq (asyncTransport (buffer h)); [intros [|] Hmode | intros Hmode].
  - (* batching *)
    assert (Hinv1 : Invariant h1).
    { constructor.
      - exact Hser.
      - simpl. rewrite Hmode. discriminate.
      - exact Hprobe. }
    match goal with |- context [if ?c then _ else _] => destruct c end.
    + change [e] with ([e] ++ []).
      apply (Keeps_trans h h1); [split; [exact Hinv1|split; [exact Hhist|reflexivity]]|].
      apply flush_keeps. exact Hinv1.
    + split; [constructor|split].
      * exact Hser.
      * simpl. rewrite Hmode. discriminate.
      * exact Hprobe.
      * exact Hhist.
      * reflexivity.
  - (* synchronous *)
    destruct (Hsync Hmode) as [Hf Hnil].
    split; [constructor|split].
    + unfold current. simpl. rewrite tracked_snoc. simpl. rewrite app_nil_r.
      unfold current in Hser. exact Hser.
    + simpl. intros _. split; [exact Hf|reflexivity].
    + simpl. destruct Hprobe as [H0|[_ H1]]; [left; exact H0|congruence].
    + unfold history, queued. simpl. rewrite delivered_snoc, concat_app. simpl.
      rewrite Hf, Hnil. simpl. rewrite !app_nil_r. reflexivity.
    + reflexivity.
  - (* the first entry *)
    split; [constructor|split].
    + exact Hser.
    + simpl. discriminate.
    + simpl. destruct Hprobe as [H0|[_ H1]]; [|congruence].
      right. rewrite H0. split; reflexivity.
    + exact Hhist.
    + reflexivity.
Qed.

Lemma immediate_callback_keeps (h : Host) :
  Invariant h -> asyncTransport (buffer h) = Some true -> immediates h = 0%nat ->
  Keeps h (immediate_callback h) [].
Proof.
  intros Hinv Hmode Himm. pose proof Hinv as [Hser Hsync Hprobe].
  unfold immediate_callback. unfold current in Hser.
  destruct (flusher (buffer h)) as [f|] eqn:Hf.
  - split; [exact Hinv|]. split; [symmetry; apply app_nil_r|reflexivity].
  - unfold call_sendEntries.
    destruct (sendEntries (transport (buffer h)) (entries (buffer h))) eqn:Hr.
    + split; [constructor|split].
      * unfold current. simpl. rewrite tracked_snoc. simpl.
        apply serial_promised. exact Hser.
      * simpl. rewrite Hmode. discriminate.
      * simpl. left. exact Himm.
      * unfold history, queued. simpl. rewrite delivered_snoc, concat_app, Hf. simpl.
        rewrite !app_nil_r. reflexivity.
      * reflexivity.
    + split; [constructor|split].
      * unfold current. simpl. rewrite Hf, tracked_snoc. simpl.
        apply serial_answered. exact Hser.
      * simpl. intros _. split; [exact Hf|reflexivity].
      * simpl. left. exact Himm.
      * unfold history, queued. simpl. rewrite delivered_snoc, concat_app, Hf. simpl.
        rewrite !app_nil_r. reflexivity.
      * reflexivity.
Qed.

Lemma step_keeps (h : Host) (a : Action) :
  Invariant h -> Keeps h (step h a) (collected_by (performanceTimeOrigin100ns h) a).
Proof.
  intros Hinv. pose proof Hinv as [Hser Hsync Hprobe].
  destruct a as [offset lvl n message err fields reserved custom | | | handle | ok | ];
    simpl.
  - apply collect_keeps. exact Hinv.
  - apply flush_keeps. exact Hinv.
  - destruct (immediates h) as [|k] eqn:Hk.
    + split; [exact Hinv|]. split; [symmetry; apply app_nil_r|reflexivity].
    + destruct Hprobe as [H0|[H1 Hmode]]; [discriminate|].
      injection H1 as ->.
      set (h0 := {| buffer := buffer h;
                    performanceTimeOrigin100ns := performanceTimeOrigin100ns h;
                    immediates := 0; timers := timers h;
                    next_timer := next_timer h; wire := wire h |}).
      assert (Hinv0 : Invariant h0).
      { constructor; [exact Hser|exact Hsync|left; reflexivity]. }
      destruct (immediate_callback_keeps h0 Hinv0 Hmode eq_refl) as (Hi & Hh & Ho).
      split; [exact Hi|]. split; [exact Hh|exact Ho].
  - destruct (existsb (Nat.eqb handle) (timers h)).
    + unfold timeout_callback.
      assert (Hinvc : Invariant (clearTimeout handle h)).
      { constructor; [exact Hser|exact Hsync|exact Hprobe]. }
      destruct (flush_keeps _ Hinvc) as ([Hs1 Hy1 Hp1] & Hh & Ho).
      split; [constructor|split].
      * exact Hs1.
      * exact Hy1.
      * exact Hp1.
      * exact Hh.
      * exact Ho.
    + split; [exact Hinv|]. split; [symmetry; apply app_nil_r|reflexivity].
  - unfold current in Hser.
    destruct (flusher (buffer h)) as [f|] eqn:Hf.
    2:{ split; [exact Hinv|]. split; [symmetry; apply app_nil_r|reflexivity]. }
    destruct (in_flight f) as [batch|] eqn:Hb.
    2:{ split; [exact Hinv|]. split; [symmetry; apply app_nil_r|reflexivity]. }
    split; [constructor|split].
    + unfold current. simpl. rewrite tracked_snoc. simpl.
      apply serial_settled. exact Hser.
    + simpl. intros Hm. destruct (Hsync Hm) as [Hnone _]. congruence.
    + exact Hprobe.
    + unfold history, queued. simpl. rewrite delivered_snoc, Hf. simpl.
      rewrite !app_nil_r. reflexivity.
    + reflexivity.
  - unfold current in Hser.
    destruct (flusher (buffer h)) as [f|] eqn:Hf.
    2:{ split; [exact Hinv|]. split; [symmetry; apply app_nil_r|reflexivity]. }
    destruct (in_flight f) as [batch|] eqn:Hb.
    1:{ split; [exact Hinv|]. split; [symmetry; apply app_nil_r|reflexivity]. }
    destruct (chained f) as [|batch rest] eqn:Hc.
    1:{ split; [exact Hinv|]. split; [symmetry; apply app_nil_r|reflexivity]. }
    destruct (rejected f) eqn:Hrej.
    1:{ split; [exact Hinv|]. split; [symmetry; apply app_nil_r|reflexivity]. }
    unfold then_callback, call_sendEntries.
    split; [constructor|split].
    + unfold current. simpl. rewrite tracked_snoc. simpl.
      destruct (sendEntries (transport (buffer h)) batch).
      * apply serial_promised. exact Hser.
      * apply serial_answered. exact Hser.
    + simpl. intros Hm. destruct (Hsync Hm) as [Hnone _]. congruence.
    + exact Hprobe.
    + unfold history, queued. simpl. rewrite delivered_snoc, concat_app, Hf, Hc. simpl.
      rewrite !app_nil_r, <- !app_assoc. reflexivity.
    + reflexivity.
Qed.

Lemma run_keeps (schedule : list Action) (h : Host) :
  Invariant h ->
  Keeps h (run h schedule) (collected (performanceTimeOrigin100ns h) schedule).
Proof.
  revert h. induction schedule as [|a schedule IH]; intros h Hinv.
  - simpl. split; [exact Hinv|]. split; [symmetry; apply app_nil_r|reflexivity].
  - simpl. pose proof (step_keeps h a Hinv) as Hstep.
    pose proof Hstep as (Hinv1 & _ & Ho).
    specialize (IH _ Hinv1). rewrite Ho in IH.
    exact (Keeps_trans _ _ _ _ _ Hstep IH).
Qed.

Lemma boot_invariant (origin : Z) (t : LogTransport) :
  Invariant (boot origin (new_LogBuffer t)).
Proof.
  constructor.
  - apply serial_start.
  - discriminate.
  - left. reflexivity.
Qed.







End OrderingFacts.

(** ** Flushing an empty log buffer while a send is in flight *)

Section InFlightFacts.
Import JS Logging Samples Ordering.

(** C10. When the buffer holds no entry and [#flusher] waits for a send,
    [flush] changes nothing and hands back a future that has returned: it
    neither awaits [#flusher] nor chains onto it, and the batch is still
    in flight afterwards, so the future settles before that batch is
    delivered. *)
Theorem flush_of_empty_buffer_skips_in_flight :
  forall (h : Host) (f : Flusher) (batch : Batch),
    entries (buffer h) = [] ->
    flusher (buffer h) = Some f ->
    in_flight f = Some batch ->
    flush h = (h, Returned)
    /\ resolves_at_once (snd (flush h)) = true
    /\ resolves_at_once (Awaiting (flusher (buffer h))) = false
    /\ current (fst (flush h)) = Some batch.
Proof.
  intros h f batch He Hf Hb. unfold flush. rewrite He. simpl.
  repeat split.
  - rewrite Hf. simpl. unfold idle. rewrite Hb. reflexivity.
  - unfold current. rewrite Hf. exact Hb.
Qed.

Lemma flush_of_empty_buffer_skips_in_flight_witness :
  (entries (buffer sending_host) = []
   /\ flusher (buffer sending_host) = Some (sending first_batch)
   /\ wire sending_host = [Send InImmediate first_batch true])
  /\ (flush sending_host = (sending_host, Returned)
      /\ resolves_at_once (snd (flush sending_host)) = true
      /\ resolves_at_once (Awaiting (flusher (buffer sending_host))) = false
      /\ current (fst (flush sending_host)) = Some first_batch).
Proof.
  split.
  - vm_compute. repeat split; reflexivity.
  - apply (flush_of_empty_buffer_skips_in_flight sending_host (sending first_batch));
      reflexivity.
Defined.

End InFlightFacts.

(** ** The idle timer of the log buffer *)

Section TimerFacts.
Import JS Logging Samples Ordering.

(** In batching mode [collect] flushes at once exactly when the entry is
    an error or worse, more than 8 entries are buffered, or the size
    exceeds 64,000; otherwise it reaches no transport and arms one more
    timer, next to those already armed. *)
Lemma collect_in_batching_mode offset lvl n message err fields reserved custom (h : Host) :
  asyncTransport (buffer h) = Some true ->
  let h1 := update (push (make_entry (performanceTimeOrigin100ns h) offset lvl
                            message err fields reserved custom)) h in
  let h' := collect offset lvl n message err fields reserved custom h in
  let urgent := n < 2 \/ 8 < Z.of_nat (List.length (entries (buffer h1)))
                \/ 64000 < size (buffer h1) in
  (urgent -> h' = fst (flush h1) /\ entries (buffer h') = [])
  /\ (~ urgent ->
      wire h' = wire h
      /\ flusher (buffer h') = flusher (buffer h)
      /\ entries (buffer h') = entries (buffer h1)
      /\ timers h' = timers h ++ [next_timer h]
      /\ timeout (buffer h') = Some (next_timer h)).
Proof.
  intros Hmode h1 h' urgent. subst h'. unfold collect. fold h1.
  change (asyncTransport (buffer h1)) with (asyncTransport (buffer h)).
  rewrite Hmode.
  destruct ((n <? 2) || (8 <? Z.of_nat (List.length (entries (buffer h1))))
            || (64000 <? size (buffer h1))) eqn:Hu.
  - split.
    + intros _. split; [reflexivity|].
      unfold flush. destruct (entries (buffer h1)) eqn:He.
      * simpl in He. apply app_eq_nil in He. destruct He; discriminate.
      * simpl. destruct (timeout _); reflexivity.
    + intros Hn. exfalso. apply Hn. unfold urgent.
      apply orb_true_iff in Hu. destruct Hu as [Hu|Hu].
      * apply orb_true_iff in Hu. destruct Hu as [Hu|Hu].
        -- left. apply Z.ltb_lt. exact Hu.
        -- right. left. apply Z.ltb_lt. exact Hu.
      * right. right. apply Z.ltb_lt. exact Hu.
  - apply orb_false_iff in Hu. destruct Hu as [Hu H3].
    apply orb_false_iff in Hu. destruct Hu as [H1 H2].
    apply Z.ltb_ge in H1, H2, H3.
    split.
    + intros [Hu|[Hu|Hu]]; exfalso; lia.
    + intros _. repeat split.
Qed.

(** C8. In batching mode two entries below every threshold leave two
    timers armed: the second [collect] arms a timer of its own and
    overwrites [#timeout] without clearing the timer of the first. That
    first timer then fires and flushes both entries, two seconds after the
    first entry and not after the last. *)
Theorem second_collect_keeps_first_timer :
  let h1 := step sending_host (Collect 2 Info 3 "a" UUndefined None None None) in
  let h2 := step h1 (Collect 3 Info 3 "b" UUndefined None None None) in
  let h3 := step h2 (Timer 0) in
  asyncTransport (buffer sending_host) = Some true
  /\ (timers h1, timeout (buffer h1)) = ([0%nat], Some 0%nat)
  /\ (timers h2, timeout (buffer h2)) = ([0%nat; 1%nat], Some 1%nat)
  /\ wire h2 = wire sending_host
  /\ List.length (entries (buffer h2)) = 2%nat
  /\ entries (buffer h3) = []
  /\ map (@List.length LogEntry) (queued h3) = [2%nat]
  /\ timers h3 = [].
Proof. vm_compute. repeat split; reflexivity. Qed.

End TimerFacts.

(** ** The counters of the log buffer *)

Section CounterFacts.
Import JS Logging Samples Ordering Accounting.

Lemma json_total_app (a b : Batch) : json_total (a ++ b) = json_total a + json_total b.
Proof. induction a as [|e a IH]; simpl; [reflexivity|]. rewrite IH. lia. Qed.

Lemma flush_bounded (h : Host) :
  (entries (buffer h) = [] -> Bounded h) -> Bounded (fst (flush h)).
Proof.
  intros Hb. unfold flush.
  case_eq (entries (buffer h)); [intros He; exact (Hb He) | intros e es He].
  unfold startFlush, call_sendEntries.
  destruct (flusher (buffer h)) as [f|]; simpl;
    destruct (timeout (buffer h)); simpl;
    (constructor; simpl; [reflexivity | lia | intros; lia | reflexivity]).
Qed.

Lemma collect_bounded offset lvl n message err fields reserved custom (h : Host) :
  Bounded h -> Bounded (collect offset lvl n message err fields reserved custom h).
Proof.
  intros [Hsize Hcount Hlarge Hfresh]. unfold collect.
  set (e := make_entry _ _ _ _ _ _ _ _).
  set (h1 := update (push e) h).
  assert (Hsize1 : size (buffer h1) = json_total (entries (buffer h1))).
  { simpl. rewrite json_total_app, Hsize. simpl. lia. }
  assert (Hlen1 : List.length (entries (buffer h1)) = S (List.length (entries (buffer h)))).
  { simpl. rewrite length_app. simpl. lia. }
  assert (Hne : entries (buffer h1) <> []).
  { intros Habs. rewrite Habs in Hlen1. discriminate. }
  change (asyncTransport (buffer h1)) with (asyncTransport (buffer h)).
  case_eq (asyncTransport (buffer h)); [intros [|] Hmode | intros Hmode].
  - destruct ((n <? 2) || (8 <? Z.of_nat (List.length (entries (buffer h1))))
              || (64000 <? size (buffer h1))) eqn:Hu.
    + apply flush_bounded. intros Habs. contradiction.
    + apply orb_false_iff in Hu. destruct Hu as [Hu H3].
      apply orb_false_iff in Hu. destruct Hu as [_ H2].
      apply Z.ltb_ge in H2, H3.
      constructor.
      * exact Hsize1.
      * change (entries (buffer (update (set_timeout (Some (next_timer h1))) (setTimeout h1))))
          with (entries (buffer h1)). lia.
      * intros _. exact H3.
      * simpl. rewrite Hmode. discriminate.
  - constructor; simpl; [reflexivity | lia | intros; lia | reflexivity].
  - constructor.
    + exact Hsize1.
    + change (entries (buffer (setImmediate (update (set_asyncTransport (Some true)) h1))))
        with (entries (buffer h1)).
      rewrite Hlen1, (Hfresh Hmode). simpl. lia.
    + change (entries (buffer (setImmediate (update (set_asyncTransport (Some true)) h1))))
        with (entries (buffer h1)).
      rewrite Hlen1, (Hfresh Hmode). simpl. lia.
    + simpl. discriminate.
Qed.

Lemma step_bounded (h : Host) (a : Action) : Bounded h -> Bounded (step h a).
Proof.
  intros Hb.
  destruct a as [offset lvl n message err fields reserved custom | | | handle | ok | ];
    simpl.
  - apply collect_bounded. exact Hb.
  - apply flush_bounded. intros _. exact Hb.
  - destruct (immediates h) as [|k]; [exact Hb|].
    unfold immediate_callback, call_sendEntries. simpl.
    destruct (flusher (buffer h)) as [f|].
    + destruct Hb as [H1 H2 H3 H4]. constructor; assumption.
    + destruct (sendEntries (transport (buffer h)) (entries (buffer h)));
        constructor; simpl; try reflexivity; try lia; intros; try lia; try discriminate.
  - destruct (existsb (Nat.eqb handle) (timers h)); [|exact Hb].
    unfold timeout_callback.
    assert (Hc : Bounded (fst (flush (clearTimeout handle h)))).
    { apply flush_bounded. intros _. destruct Hb as [H1 H2 H3 H4]. constructor; assumption. }
    destruct Hc as [H1 H2 H3 H4]. constructor; assumption.
  - destruct (flusher (buffer h)) as [f|]; [|exact Hb].
    destruct (in_flight f); [|exact Hb].
    destruct Hb as [H1 H2 H3 H4]. constructor; assumption.
  - destruct (flusher (buffer h)) as [f|]; [|exact Hb].
    destruct (in_flight f); [exact Hb|].
    destruct (chained f) as [|batch rest]; [exact Hb|].
    destruct (rejected f); [exact Hb|].
    unfold then_callback, call_sendEntries.
    destruct Hb as [H1 H2 H3 H4]. constructor; assumption.
Qed.

Lemma boot_bounded (origin : Z) (t : LogTransport) :
  Bounded (boot origin (new_LogBuffer t)).
Proof. constructor; simpl; try reflexivity; intros; lia. Qed.

Lemma run_bounded (schedule : list Action) (h : Host) :
  Bounded h -> Bounded (run h schedule).
Proof.
  revert h. induction schedule as [|a schedule IH]; intros h Hb; [exact Hb|].
  simpl. apply IH. apply step_bounded. exact Hb.
Qed.

(** X1. In every state a log buffer reaches, [#size] is the summed length of
    the serialized entries it holds, it holds at most 8 entries, and as soon
    as it holds more than one their summed length is within 64,000. *)
Theorem log_buffer_counters :
  forall (t : LogTransport) (origin : Z) (schedule : list Action),
    let b := buffer (run (boot origin (new_LogBuffer t)) schedule) in
    size b = json_total (entries b)
    /\ (List.length (entries b) <= 8)%nat
    /\ ((2 <= List.length (entries b))%nat -> size b <= 64000).
Proof.
  intros t origin schedule.
  destruct (run_bounded schedule _ (boot_bounded origin t)) as [H1 H2 H3 _].
  simpl. repeat split; assumption.
Qed.

End CounterFacts.

(** ** A rejected send *)

Section RejectionFacts.
Import JS Logging Samples Ordering Accounting.

Lemma run_app (h : Host) (s1 s2 : list Action) : run h (s1 ++ s2) = run (run h s1) s2.
Proof. unfold run. apply fold_left_app. Qed.

Lemma flush_dead (h : Host) : Dead h -> Dead (fst (flush h)) /\ wire (fst (flush h)) = wire h.
Proof.
  intros (f & Hf & Hr & Hi & Hm). unfold flush.
  destruct (entries (buffer h)) as [|e es]; [split; [exists f; auto|reflexivity]|].
  unfold startFlush. rewrite Hf. simpl.
  destruct (timeout (buffer h)); simpl; (split; [|reflexivity]);
    eexists; simpl; (split; [reflexivity|]); simpl; auto.
Qed.

Lemma step_dead (h : Host) (a : Action) :
  Dead h -> Dead (step h a) /\ wire (step h a) = wire h.
Proof.
  intros Hd. pose proof Hd as (f & Hf & Hr & Hi & Hm).
  destruct a as [offset lvl n message err fields reserved custom | | | handle | ok | ];
    simpl.
  - unfold collect. set (h1 := update (push _) h).
    assert (Hd1 : Dead h1) by (exists f; auto).
    change (asyncTransport (buffer h1)) with (asyncTransport (buffer h)).
    case_eq (asyncTransport (buffer h)); [intros [|] Hmode | intros Hmode].
    + match goal with |- context [if ?c then _ else _] => destruct c end.
      * destruct (flush_dead _ Hd1) as [Hd2 Hw]. split; [exact Hd2|exact Hw].
      * split; [|reflexivity]. exists f. simpl. auto.
    + contradiction.
    + split; [|reflexivity]. exists f. simpl. repeat split; auto. discriminate.
  - apply flush_dead. exact Hd.
  - destruct (immediates h) as [|k]; [split; [exact Hd|reflexivity]|].
    unfold immediate_callback. simpl. rewrite Hf.
    split; [|reflexivity]. exists f. auto.
  - destruct (existsb (Nat.eqb handle) (timers h)); [|split; [exact Hd|reflexivity]].
    unfold timeout_callback.
    assert (Hc : Dead (clearTimeout handle h)) by (exists f; auto).
    destruct (flush_dead _ Hc) as [(f' & Hf' & Hr' & Hi' & Hm') Hw].
    split; [|exact Hw]. exists f'. simpl. auto.
  - rewrite Hf, Hi. split; [exact Hd|reflexivity].
  - rewrite Hf, Hi, Hr. destruct (chained f); split; (exact Hd || reflexivity).
Qed.

Lemma run_dead (schedule : list Action) (h : Host) :
  Dead h -> Dead (run h schedule) /\ wire (run h schedule) = wire h.
Proof.
  revert h. induction schedule as [|a schedule IH]; intros h Hd.
  - split; [exact Hd|reflexivity].
  - simpl. destruct (step_dead h a Hd) as [Hd1 Hw1].
    destruct (IH _ Hd1) as [Hd2 Hw2]. split; [exact Hd2|]. rewrite Hw2. exact Hw1.
Qed.

Lemma flush_settled (h : Host) :
  Settled_when_rejected h -> Settled_when_rejected (fst (flush h)).
Proof.
  intros Hs. unfold flush.
  destruct (entries (buffer h)) as [|e es]; [exact Hs|].
  unfold startFlush, call_sendEntries, Settled_when_rejected in *.
  destruct (flusher (buffer h)) as [f|] eqn:Hf; simpl.
  - destruct (timeout (buffer h)); simpl; intros f' Heq Hr;
      inversion Heq; subst f'; simpl in *; apply (Hs f eq_refl Hr).
  - destruct (sendEntries (transport (buffer h)) (e :: es));
      destruct (timeout (buffer h)); simpl; intros f' Heq Hr;
      inversion Heq; subst f'; discriminate.
Qed.

Lemma step_settled (h : Host) (a : Action) :
  Settled_when_rejected h -> Settled_when_rejected (step h a).
Proof.
  intros Hs.
  destruct a as [offset lvl n message err fields reserved custom | | | handle | ok | ];
    simpl.
  - unfold collect. set (h1 := update (push _) h).
    assert (Hs1 : Settled_when_rejected h1) by exact Hs.
    change (asyncTransport (buffer h1)) with (asyncTransport (buffer h)).
    destruct (asyncTransport (buffer h)) as [[|]|].
    + match goal with |- context [if ?c then _ else _] => destruct c end.
      * apply flush_settled. exact Hs1.
      * exact Hs.
    + exact Hs.
    + exact Hs.
  - apply flush_settled. exact Hs.
  - destruct (immediates h) as [|k]; [exact Hs|].
    unfold immediate_callback, call_sendEntries. simpl.
    unfold Settled_when_rejected in *.
    destruct (flusher (buffer h)) as [f|] eqn:Hf; simpl.
    + rewrite Hf. exact Hs.
    + destruct (sendEntries (transport (buffer h)) (entries (buffer h))); simpl;
        intros f' Heq Hr; [inversion Heq; subst f'; discriminate|].
      rewrite Hf in Heq. discriminate.
  - destruct (existsb (Nat.eqb handle) (timers h)); [|exact Hs].
    unfold timeout_callback.
    assert (Hc : Settled_when_rejected (clearTimeout handle h)) by exact Hs.
    exact (flush_settled _ Hc).
  - unfold Settled_when_rejected in *.
    destruct (flusher (buffer h)) as [f|] eqn:Hf; [|rewrite Hf; exact Hs].
    destruct (in_flight f) eqn:Hi; [|rewrite Hf; exact Hs].
    simpl. intros f' Heq Hr. inversion Heq; subst f'. reflexivity.
  - unfold Settled_when_rejected in *.
    destruct (flusher (buffer h)) as [f|] eqn:Hf; [|rewrite Hf; exact Hs].
    destruct (in_flight f) eqn:Hi; [rewrite Hf; exact Hs|].
    destruct (chained f) as [|batch rest]; [rewrite Hf; exact Hs|].
    destruct (rejected f) eqn:Hrej; [rewrite Hf; exact Hs|].
    unfold then_callback, call_sendEntries. simpl.
    intros f' Heq Hr. inversion Heq; subst f'. discriminate.
Qed.

Lemma run_settled (schedule : list Action) (h : Host) :
  Settled_when_rejected h -> Settled_when_rejected (run h schedule).
Proof.
  revert h. induction schedule as [|a schedule IH]; intros h Hs; [exact Hs|].
  simpl. apply IH. apply step_settled. exact Hs.
Qed.

(** X2. Once a send of the chain of flushes is rejected, the buffer never
    calls the transport again: whatever is collected, flushed or fired
    afterwards, the transport has seen all it will ever see. *)
Theorem rejected_send_silences_buffer :
  forall (t : LogTransport) (origin : Z) (before after : list Action) (f : Flusher),
    let h := run (boot origin (new_LogBuffer t)) before in
    flusher (buffer h) = Some f ->
    rejected f = true ->
    wire (run (boot origin (new_LogBuffer t)) (before ++ after)) = wire h.
Proof.
  intros t origin before after f h Hf Hr.
  rewrite run_app. fold h.
  apply run_dead. exists f. repeat split; try assumption.
  - apply (run_settled before (boot origin (new_LogBuffer t))); try assumption.
    intros f' Habs. discriminate.
  - destruct (run_keeps before _ (boot_invariant origin t)) as ([_ Hsync _] & _).
    fold h in Hsync. intros Hm. destruct (Hsync Hm) as [Hnone _]. congruence.
Qed.

Lemma rejected_send_silences_buffer_witness :
  let h := run (boot origin100ns (new_LogBuffer async_transport)) MoreSamples.until_rejection in
  (flusher (buffer h) = Some {| in_flight := None; chained := []; rejected := true |}
   /\ rejected {| in_flight := None; chained := []; rejected := true |} = true)
  /\ wire (run (boot origin100ns (new_LogBuffer async_transport))
             (MoreSamples.until_rejection ++ MoreSamples.afterwards)) = wire h.
Proof.
  split; [split; reflexivity|].
  apply (rejected_send_silences_buffer async_transport origin100ns
           MoreSamples.until_rejection MoreSamples.afterwards
           {| in_flight := None; chained := []; rejected := true |});
    reflexivity.
Defined.

End RejectionFacts.

(** ** A transport that never answers a promise *)

Section SynchronousFacts.
Import JS Logging Samples Ordering Accounting.

Lemma Forall_snoc {A} (P : A -> Prop) (l : list A) (x : A) :
  Forall P l -> P x -> Forall P (l ++ [x]).
Proof. intros Hl Hx. apply Forall_app. split; [exact Hl|]. constructor; [exact Hx|constructor]. Qed.

Lemma flush_synchronous (t : LogTransport) (h : Host) :
  (forall b, sendEntries t b = false) ->
  Synchronous t h -> Synchronous t (fst (flush h)) /\ entries (buffer (fst (flush h))) = [].
Proof.
  intros Hsync [Ht Hf H0 H1 He Hw]. unfold flush.
  case_eq (entries (buffer h)); [intros Hnil | intros e es Hes].
  - split; [constructor; assumption|exact Hnil].
  - assert (Hmode : asyncTransport (buffer h) <> Some false).
    { intros Hm. rewrite (He Hm) in Hes. discriminate. }
    unfold startFlush, call_sendEntries. rewrite Hf, Ht, Hsync.
    simpl. destruct (timeout (buffer h)); simpl; (split; [|reflexivity]);
      (constructor; simpl; try assumption; try reflexivity;
       [apply Forall_snoc; [exact Hw|reflexivity]]).
Qed.

Lemma step_synchronous (t : LogTransport) (h : Host) (a : Action) :
  (forall b, sendEntries t b = false) ->
  Synchronous t h -> Synchronous t (step h a).
Proof.
  intros Hsync Hs. pose proof Hs as [Ht Hf H0 H1 He Hw].
  destruct a as [offset lvl n message err fields reserved custom | | | handle | ok | ];
    simpl.
  - unfold collect. set (h1 := update (push _) h).
    change (asyncTransport (buffer h1)) with (asyncTransport (buffer h)).
    case_eq (asyncTransport (buffer h)); [intros [|] Hmode | intros Hmode].
    + assert (Hs1 : Synchronous t h1).
      { constructor; try assumption. simpl. rewrite Hmode. discriminate. }
      match goal with |- context [if ?c then _ else _] => destruct c end.
      * apply flush_synchronous; assumption.
      * constructor; try assumption. simpl. rewrite Hmode. discriminate.
    + unfold call_sendEntries. simpl. rewrite Ht, Hsync.
      constructor; simpl; try assumption; try reflexivity.
      apply Forall_snoc; [exact Hw|reflexivity].
    + constructor; simpl; try assumption; try discriminate.
      intros _. rewrite (H0 Hmode). reflexivity.
  - apply flush_synchronous; assumption.
  - case_eq (immediates h); [intros Hk | intros k Hk]; [exact Hs|].
    unfold immediate_callback, call_sendEntries. simpl. rewrite Hf, Ht, Hsync. simpl.
    constructor; simpl; try assumption; try reflexivity; try discriminate.
    apply Forall_snoc; [exact Hw|reflexivity].
  - destruct (existsb (Nat.eqb handle) (timers h)); [|exact Hs].
    unfold timeout_callback.
    assert (Hc : Synchronous t (clearTimeout handle h)) by (constructor; assumption).
    destruct (flush_synchronous t _ Hsync Hc) as [[G1 G2 G3 G4 G5 G6] _].
    constructor; assumption.
  - rewrite Hf. exact Hs.
  - rewrite Hf. exact Hs.
Qed.

Lemma run_synchronous (t : LogTransport) (schedule : list Action) (h : Host) :
  (forall b, sendEntries t b = false) ->
  Synchronous t h -> Synchronous t (run h schedule).
Proof.
  intros Hsync. revert h. induction schedule as [|a schedule IH]; intros h Hs; [exact Hs|].
  simpl. apply IH. apply step_synchronous; assumption.
Qed.

(** X3. On a transport whose [sendEntries] never answers a promise, in
    every state the buffer reaches: [#flusher] is never set and no call
    answered a promise; once the immediate callback of the first entry has
    run the buffer is in synchronous mode, where it holds no entry and each
    [collect] hands its one entry to the transport at once, arms no timer
    and stays in that mode. *)
Theorem synchronous_transport_is_served_per_entry :
  forall (t : LogTransport) (origin : Z) (schedule : list Action),
    (forall b, sendEntries t b = false) ->
    let h := run (boot origin (new_LogBuffer t)) schedule in
    flusher (buffer h) = None
    /\ Forall (fun e => match e with
                        | Send _ _ promised => promised = false
                        | Done _ _ => False
                        end) (wire h)
    /\ (immediates h = 0%nat -> asyncTransport (buffer h) <> None ->
        asyncTransport (buffer h) = Some false)
    /\ (asyncTransport (buffer h) = Some false ->
        entries (buffer h) = []
        /\ forall offset lvl n message err fields reserved custom,
            let h' := collect offset lvl n message err fields reserved custom h in
            wire h' = wire h ++ [Send InCollect
                                   [make_entry origin offset lvl message err
                                      fields reserved custom] false]
            /\ entries (buffer h') = []
            /\ size (buffer h') = 0
            /\ timers h' = timers h
            /\ asyncTransport (buffer h') = Some false).
Proof.
  intros t origin schedule Hsync h.
  assert (Hs : Synchronous t h).
  { apply run_synchronous; [exact Hsync|].
    constructor; simpl; try reflexivity; try discriminate. constructor. }
  assert (Ho : performanceTimeOrigin100ns h = origin).
  { destruct (run_keeps schedule _ (boot_invariant origin t)) as (_ & _ & Ho). exact Ho. }
  destruct Hs as [Ht Hf H0 H1 He Hw].
  split; [exact Hf|]. split; [exact Hw|]. split.
  - intros Hi Hm. destruct (asyncTransport (buffer h)) as [[|]|]; try reflexivity.
    + specialize (H1 eq_refl). congruence.
    + contradiction.
  - intros Hm. split; [exact (He Hm)|].
    intros offset lvl n message err fields reserved custom h'. subst h'.
    unfold collect. change (asyncTransport (buffer (update _ h)))
      with (asyncTransport (buffer h)). rewrite Hm.
    unfold call_sendEntries. simpl. rewrite Ht, Hsync, (He Hm), Ho. simpl.
    repeat split. exact Hm.
Qed.

Lemma synchronous_transport_is_served_per_entry_witness :
  (forall b, sendEntries sync_transport b = false)
  /\ (let h := run (boot origin100ns (new_LogBuffer sync_transport)) MoreSamples.probed in
      flusher (buffer h) = None
      /\ asyncTransport (buffer h) = Some false
      /\ entries (buffer h) = []).
Proof.
  split; [reflexivity|].
  destruct (synchronous_transport_is_served_per_entry sync_transport origin100ns
              MoreSamples.probed (fun _ => eq_refl)) as (Hf & _ & Hm & He).
  split; [exact Hf|].
  assert (Hmode : asyncTransport
                    (buffer (run (boot origin100ns (new_LogBuffer sync_transport))
                               MoreSamples.probed)) = Some false).
  { apply Hm; [reflexivity|discriminate]. }
  split; [exact Hmode|]. exact (proj1 (He Hmode)).
Defined.

End SynchronousFacts.

(** ** How enrichment is merged *)

Section EnrichmentFacts.
Import JS Logging Samples Ordering Accounting Records.

Lemma get_set_other {V} (o : Obj V) (k k' : string) (v : V) :
  k <> k' -> get (set o k v) k' = get o k'.
Proof.
  intros Hne. induction o as [|[k0 v0] o IH]; simpl.
  - destruct (String.eqb k k') eqn:Hk; [apply String.eqb_eq in Hk; contradiction|reflexivity].
  - destruct (String.eqb k0 k) eqn:Hk0; simpl.
    + apply String.eqb_eq in Hk0. subst k0.
      destruct (String.eqb k k') eqn:Hk; [apply String.eqb_eq in Hk; contradiction|reflexivity].
    + destruct (String.eqb k0 k'); [reflexivity|exact IH].
Qed.

Lemma get_set {V} (o : Obj V) (k k' : string) (v : V) :
  get (set o k v) k' = if String.eqb k k' then Some v else get o k'.
Proof.
  destruct (String.eqb k k') eqn:Hk.
  - apply String.eqb_eq in Hk. subst k'. apply get_set_same.
  - apply get_set_other. intros Heq. subst k'. rewrite String.eqb_refl in Hk. discriminate.
Qed.

Lemma get_app {V} (a b : Obj V) (k : string) :
  get (a ++ b) k = get_or a k (get b k).
Proof.
  unfold get_or. induction a as [|[k0 v0] a IH]; simpl; [reflexivity|].
  destruct (String.eqb k0 k); [reflexivity|exact IH].
Qed.

(** Spreading gives each key the last value the source has for it, and
    keeps the rest. *)
Lemma get_assigned {V} (o s : Obj V) (k : string) :
  get (fold_left (fun acc kv => set acc (fst kv) (snd kv)) s o) k
  = get_or (rev s) k (get o k).
Proof.
  revert o. induction s as [|[k1 v1] s IH]; intros o; simpl.
  - reflexivity.
  - rewrite IH. unfold get_or. rewrite get_app. unfold get_or. simpl.
    destruct (get (rev s) k); [reflexivity|].
    rewrite get_set. destruct (String.eqb k1 k); reflexivity.
Qed.

Lemma get_spread_last {V} (o s : Obj V) (k : string) :
  get (spread o s) k = get_or (rev (JS.entries s)) k (get o k).
Proof. unfold spread. apply get_assigned. Qed.

Lemma get_absent {V} (o : Obj V) (k : string) :
  ~ In k (map fst o) -> get o k = None.
Proof.
  induction o as [|[k0 v0] o IH]; simpl; intros Hn; [reflexivity|].
  destruct (String.eqb k0 k) eqn:Hk.
  - apply String.eqb_eq in Hk. exfalso. apply Hn. left. exact Hk.
  - apply IH. intros Hin. apply Hn. right. exact Hin.
Qed.

Lemma get_rev {V} (o : Obj V) (k : string) :
  well_formed o -> get (rev o) k = get o k.
Proof.
  unfold well_formed. induction o as [|[k0 v0] o IH]; simpl; intros Hnd; [reflexivity|].
  inversion Hnd as [|? ? Hnotin Hnd']; subst.
  rewrite get_app. unfold get_or. rewrite (IH Hnd'). simpl.
  destruct (String.eqb k0 k) eqn:Hk.
  - apply String.eqb_eq in Hk. subst k0. rewrite (get_absent _ _ Hnotin). reflexivity.
  - destruct (get o k); reflexivity.
Qed.

Lemma get_spread {V} (o s : Obj V) (k : string) :
  well_formed s -> get (spread o s) k = get_or s k (get o k).
Proof.
  intros Hwf. rewrite get_spread_last. unfold get_or.
  rewrite (get_rev _ _ (entries_keys _ Hwf)), (get_entries _ _ Hwf). reflexivity.
Qed.

Lemma keys_set {V} (o : Obj V) (k : string) (v : V) :
  map fst (set o k v) = if existsb (String.eqb k) (map fst o) then map fst o
                        else map fst o ++ [k].
Proof.
  induction o as [|[k0 v0] o IH]; simpl; [reflexivity|].
  destruct (String.eqb k0 k) eqn:Hk; simpl.
  - rewrite String.eqb_sym, Hk. reflexivity.
  - rewrite String.eqb_sym, Hk. simpl. rewrite IH.
    destruct (existsb (String.eqb k) (map fst o)); reflexivity.
Qed.

Lemma set_well_formed {V} (o : Obj V) (k : string) (v : V) :
  well_formed o -> well_formed (set o k v).
Proof.
  unfold well_formed. intros Hnd. rewrite keys_set.
  destruct (existsb (String.eqb k) (map fst o)) eqn:Hex; [exact Hnd|].
  apply NoDup_app; [exact Hnd | constructor; [intros []|constructor] |].
  intros x Hin [Hx|[]]. subst x.
  assert (Habs : existsb (String.eqb k) (map fst o) = true).
  { apply existsb_exists. exists k. split; [exact Hin|apply String.eqb_refl]. }
  congruence.
Qed.

Lemma spread_well_formed {V} (o s : Obj V) :
  well_formed o -> well_formed (spread o s).
Proof.
  unfold spread. generalize (JS.entries s). intros l. revert o.
  induction l as [|[k v] l IH]; intros o Hwf; simpl; [exact Hwf|].
  apply IH. apply set_well_formed. exact Hwf.
Qed.

(** X4. In the record [collect] serializes, every key but [fields] has the
    value the reserved enrichment gives it, and otherwise the record's own
    timestamp, level, message or error: the reserved fields lie beside
    [fields] and come after the four own properties. [fields] holds the
    caller's fields over the custom enrichment, key by key, whatever the
    reserved enrichment says; it falls back to the reserved enrichment only
    when there are neither caller fields nor custom enrichment. *)
Theorem record_field_precedence :
  forall (origin : Z) (offset : Q) (lvl : LogLevel) (message : string) (err : Unknown)
         (fields reserved custom : option (Obj Json)),
    well_formed (or_empty fields) ->
    well_formed (or_empty custom) ->
    well_formed (or_empty reserved) ->
    let record := log_record origin offset lvl message err fields reserved custom in
    (forall k, k <> "fields"%string ->
               get record k =
               get_or (or_empty reserved) k
                 (get (base_record origin offset lvl message err) k))
    /\ match fields, custom with
       | None, None => get record "fields" = get (or_empty reserved) "fields"
       | _, _ =>
           exists merged,
             get record "fields" = Some (JObject merged)
             /\ forall k, get merged k =
                          get_or (or_empty fields) k (get (or_empty custom) k)
       end.
Proof.
  intros origin offset lvl message err fields reserved custom Hf Hc Hr record.
  assert (Hres : forall k,
             get (spread_opt (base_record origin offset lvl message err) reserved) k =
             get_or (or_empty reserved) k
               (get (base_record origin offset lvl message err) k)).
  { intros k. destruct reserved as [r|]; cbn [spread_opt or_empty].
    - apply get_spread. exact Hr.
    - reflexivity. }
  split.
  - intros k Hk. unfold record, log_record. fold (base_record origin offset lvl message err).
    destruct fields as [f|], custom as [c|]; cbn [spread_opt];
      try (unfold spread at 1; rewrite entries_one; cbn [fold_left fst snd]; rewrite get_set_other by auto);
      apply Hres.
  - unfold record, log_record. fold (base_record origin offset lvl message err).
    destruct fields as [f|], custom as [c|]; cbn [spread_opt].
    + eexists. split.
      * unfold spread at 1. rewrite entries_one. cbn [fold_left fst snd]. apply get_set_same.
      * intros k. cbn [or_empty] in *. rewrite get_spread by exact Hf.
        unfold get_or. destruct (get f k); [reflexivity|].
        rewrite get_spread by exact Hc. unfold get_or. simpl.
        destruct (get c k); reflexivity.
    + exists f. split.
      * unfold spread at 1. rewrite entries_one. cbn [fold_left fst snd]. apply get_set_same.
      * intros k. unfold get_or. cbn [or_empty get]. destruct (get f k); reflexivity.
    + exists c. split.
      * unfold spread at 1. rewrite entries_one. cbn [fold_left fst snd]. apply get_set_same.
      * intros k. reflexivity.
    + rewrite Hres. unfold get_or. simpl. destruct (get (or_empty reserved) "fields"); reflexivity.
Qed.

Lemma record_field_precedence_witness :
  (well_formed fields_bc /\ well_formed custom_ab /\ well_formed reserved_a)
  /\ exists merged,
      get (log_record origin100ns 0 Info "hello" UUndefined
             (Some fields_bc) (Some reserved_a) (Some custom_ab)) "fields"
      = Some (JObject merged)
      /\ forall k, get merged k = get_or fields_bc k (get custom_ab k).
Proof.
  assert (Hwf : well_formed fields_bc /\ well_formed custom_ab /\ well_formed reserved_a).
  { unfold well_formed. simpl. repeat split; repeat constructor; simpl; intuition discriminate. }
  split; [exact Hwf|].
  destruct Hwf as (Hf & Hc & Hr).
  exact (proj2 (record_field_precedence origin100ns 0 Info "hello" UUndefined
                  (Some fields_bc) (Some reserved_a) (Some custom_ab) Hf Hc Hr)).
Defined.

(** X5. [enrich] and [enrichReserved] build a new logger and merge key by
    key with the new fields winning: [enrich] changes the custom
    enrichment only, [enrichReserved] the reserved enrichment only, both
    keep the level, and the merged enrichment has distinct keys. *)
Theorem enrichment_merges_new_over_old :
  forall (lg : EnrichingLogger) (fields : Obj Json),
    well_formed fields ->
    well_formed (or_empty (customEnrichment lg)) ->
    well_formed (or_empty (reservedEnrichment lg)) ->
    (level (enrich lg fields) = level lg
     /\ reservedEnrichment (enrich lg fields) = reservedEnrichment lg
     /\ well_formed (or_empty (customEnrichment (enrich lg fields)))
     /\ forall k, get (or_empty (customEnrichment (enrich lg fields))) k =
                  get_or fields k (get (or_empty (customEnrichment lg)) k))
    /\ (level (enrichReserved lg fields) = level lg
        /\ customEnrichment (enrichReserved lg fields) = customEnrichment lg
        /\ well_formed (or_empty (reservedEnrichment (enrichReserved lg fields)))
        /\ forall k, get (or_empty (reservedEnrichment (enrichReserved lg fields))) k =
                     get_or fields k (get (or_empty (reservedEnrichment lg)) k)).
Proof.
  intros lg fields Hf Hc Hr.
  assert (Hmerge : forall old : Obj Json,
             well_formed old ->
             well_formed (spread (spread [] old) fields)
             /\ forall k, get (spread (spread [] old) fields) k = get_or fields k (get old k)).
  { intros old Hold. split.
    - apply spread_well_formed, spread_well_formed. constructor.
    - intros k. rewrite get_spread by exact Hf. unfold get_or.
      destruct (get fields k); [reflexivity|].
      rewrite get_spread by exact Hold. unfold get_or. simpl.
      destruct (get old k); reflexivity. }
  split; (split; [reflexivity|]); (split; [reflexivity|]); simpl.
  - exact (Hmerge _ Hc).
  - exact (Hmerge _ Hr).
Qed.

Lemma enrichment_merges_new_over_old_witness :
  (well_formed fields_bc /\ well_formed custom_ab)
  /\ forall k,
      get (or_empty (customEnrichment (enrich (enrich root_logger custom_ab) fields_bc))) k
      = get_or fields_bc k (get custom_ab k).
Proof.
  assert (Hwf : well_formed fields_bc /\ well_formed custom_ab).
  { unfold well_formed. simpl. repeat split; repeat constructor; simpl; intuition discriminate. }
  split; [exact Hwf|].
  destruct Hwf as (Hf & Hc).
  assert (Hnil : well_formed (@nil (string * Json))) by constructor.
  destruct (enrichment_merges_new_over_old root_logger custom_ab Hc Hnil Hnil)
    as ((_ & _ & Hwf1 & H1) & _).
  destruct (enrichment_merges_new_over_old (enrich root_logger custom_ab) fields_bc Hf Hwf1 Hnil)
    as ((_ & _ & _ & H2) & _).
  intros k. rewrite H2. unfold get_or. destruct (get fields_bc k); [reflexivity|].
  rewrite H1. unfold get_or. destruct (get custom_ab k); reflexivity.
Defined.

End EnrichmentFacts.

(** ** What an emitter holds *)

Section LedgerFacts.
Import JS Emitter Samples Scenario Accounting Ledger.

Lemma count_app (a b : EmitBuffer) : count (a ++ b) = count a + count b.
Proof. induction a as [|x a IH]; simpl; [reflexivity|]. rewrite IH. lia. Qed.

Lemma count_permutation (a b : EmitBuffer) :
  Permutation a b -> count a = count b.
Proof.
  induction 1 as [|x a b _ IH|x y a|a b c _ IH1 _ IH2]; simpl; lia.
Qed.

Lemma count_entries (o : EmitBuffer) : count (JS.entries o) = count o.
Proof. apply count_permutation, entries_permutation. Qed.

Lemma lists_within_entries (lo hi : nat) (o : EmitBuffer) :
  lists_within lo hi o -> lists_within lo hi (JS.entries o).
Proof.
  unfold lists_within. intros H.
  apply (Permutation_Forall (Permutation_sym (entries_permutation o))). exact H.
Qed.

Lemma count_set (o : EmitBuffer) (k : string) (evs : list BufferedEvent) :
  count (set o k evs) =
  count o - match get o k with
            | Some old => Z.of_nat (List.length old)
            | None => 0
            end + Z.of_nat (List.length evs).
Proof.
  induction o as [|[k0 v0] o IH]; simpl; [lia|].
  destruct (String.eqb k0 k); simpl; [lia|]. rewrite IH. lia.
Qed.

Lemma count_remove_nth (o : EmitBuffer) (i : nat) (t : string) (evs : list BufferedEvent) :
  nth_error o i = Some (t, evs) ->
  count (remove_nth i o) = count o - Z.of_nat (List.length evs).
Proof.
  revert i. induction o as [|x o IH]; intros [|i]; simpl; intros H; try discriminate.
  - inversion H; subst. simpl. lia.
  - rewrite (IH _ H). lia.
Qed.

Lemma lists_within_set (lo hi : nat) (o : EmitBuffer) (k : string) (evs : list BufferedEvent) :
  lists_within lo hi o -> (lo <= List.length evs <= hi)%nat ->
  lists_within lo hi (set o k evs).
Proof.
  unfold lists_within. intros Ho He. induction o as [|[k0 v0] o IH]; simpl.
  - constructor; [exact He|constructor].
  - inversion Ho; subst. destruct (String.eqb k0 k); constructor; auto.
Qed.

Lemma lists_within_weaken (lo hi hi' : nat) (o : EmitBuffer) :
  (hi <= hi')%nat -> lists_within lo hi o -> lists_within lo hi' o.
Proof.
  unfold lists_within. intros Hle Ho. eapply Forall_impl; [|exact Ho].
  simpl. intros entry H. lia.
Qed.

Lemma lists_within_remove_nth (lo hi : nat) (o : EmitBuffer) (i : nat) :
  lists_within lo hi o -> lists_within lo hi (remove_nth i o).
Proof.
  unfold lists_within. revert i. induction o as [|x o IH]; intros [|i] Ho; simpl; auto.
  - inversion Ho; assumption.
  - inversion Ho; subst. constructor; auto.
Qed.

Lemma lists_within_lookup (lo hi : nat) (o : EmitBuffer) (k : string)
    (evs : list BufferedEvent) :
  lists_within lo hi o -> get o k = Some evs -> (lo <= List.length evs <= hi)%nat.
Proof.
  unfold lists_within. intros Ho. induction o as [|[k0 v0] o IH]; simpl; [discriminate|].
  inversion Ho; subst. destruct (String.eqb k0 k).
  - intros H; inversion H; subst. assumption.
  - auto.
Qed.

Lemma waiting_count_snoc (l : list EmitBuffer) (buf : EmitBuffer) :
  fold_right (fun b acc => count b + acc) 0 (l ++ [buf]) =
  fold_right (fun b acc => count b + acc) 0 l + count buf.
Proof. induction l as [|b l IH]; simpl; [lia|]. rewrite IH. lia. Qed.

Lemma flush_pending (w : World) :
  pending (fst (flush w)) = pending w
  /\ buffered (emitter (fst (flush w))) = buffered (emitter w).
Proof.
  unfold flush, startFlush, flushEvents, pending, in_chain.
  destruct (flusher (emitter w)) as [f|] eqn:Hf; simpl; rewrite ?Hf; simpl.
  - rewrite waiting_count_snoc. split; [lia|reflexivity].
  - rewrite count_entries. split; [lia|reflexivity].
Qed.

Lemma flush_shaped (w : World) :
  lists_within 1 65 (emitted (emitter w)) ->
  lists_within 1 65 (sent w) ->
  match flusher (emitter w) with
  | Some f => lists_within 1 65 (outstanding f) /\ Forall (lists_within 1 65) (waiting f)
  | None => True
  end ->
  Shaped (fst (flush w)).
Proof.
  intros Hl Hs Hch. unfold flush, startFlush, flushEvents, Shaped.
  destruct (flusher (emitter w)) as [f|] eqn:Hf; simpl.
  - destruct Hch as [Ho Hw]. repeat split; try constructor; try assumption.
    apply Forall_app. split; [exact Hw|]. constructor; [exact Hl|constructor].
  - pose proof (lists_within_entries _ _ _ Hl) as Hl'.
    repeat split; try constructor; try assumption.
    apply Forall_app. split; assumption.
Qed.

Lemma emit_tidy eventTime now m data (w w' : World) :
  Tidy w -> emit eventTime now m data w = Normal w' -> Tidy w'.
Proof.
  intros [Hc Hk Hl Hs Hch]. unfold emit.
  destruct (greater _ _); [discriminate|].
  destruct (prototype_hit _ _); [discriminate|].
  set (ev := {| eventTime := eventTime; meta := m; ids := emitter_ids (emitter w);
                json := match data with Some d => JSON_stringify d | None => None end |}).
  set (put := fun evs : list BufferedEvent =>
                {| emitter := {| transport := transport (emitter w);
                                 emitter_ids := emitter_ids (emitter w);
                                 emitted := set (emitted (emitter w)) (topic m) evs;
                                 size := size (emitter w); flusher := flusher (emitter w);
                                 deadline := deadline (emitter w);
                                 buffered := buffered (emitter w) |};
                   sent := sent w; fatals := fatals w |}).
  assert (Hput : forall evs old,
             match get (emitted (emitter w)) (topic m) with
             | Some x => evs = x ++ [ev] /\ old = x
             | None => evs = [ev] /\ old = []
             end ->
             pending (put evs) = pending w + 1
             /\ buffered (emitter (put evs)) = buffered (emitter w)
             /\ well_formed (emitted (emitter (put evs)))
             /\ lists_within 1 65 (emitted (emitter (put evs)))
             /\ ((List.length evs <= 64)%nat -> lists_within 1 64 (emitted (emitter (put evs))))
             /\ List.length evs = S (List.length old)).
  { intros evs old Hcase.
    assert (Hlen : List.length evs = S (List.length old)
                   /\ match get (emitted (emitter w)) (topic m) with
                      | Some x => Z.of_nat (List.length x)
                      | None => 0
                      end = Z.of_nat (List.length old)
                   /\ (List.length old <= 64)%nat).
    { destruct (get (emitted (emitter w)) (topic m)) as [x|] eqn:Hg;
        destruct Hcase as [-> ->].
      - rewrite length_app. simpl. split; [lia|]. split; [reflexivity|].
        pose proof (lists_within_lookup _ _ _ _ _ Hl Hg). lia.
      - simpl. repeat split; lia. }
    destruct Hlen as (Hlen & Hold & Hbound).
    unfold put, pending, in_chain. simpl. rewrite count_set, Hold.
    split; [lia|]. split; [reflexivity|]. split; [apply set_well_formed; exact Hk|].
    split; [|split; [|exact Hlen]].
    - apply lists_within_set; [apply (lists_within_weaken 1 64 65); [lia|exact Hl]|lia].
    - intros Hle. apply lists_within_set; [exact Hl|lia]. }
  intros Heq. inversion Heq as [Hw']. clear Heq Hw'.
  assert (Hfinish : forall w1,
             pending w1 = pending w + 1 ->
             buffered (emitter w1) = buffered (emitter w) ->
             Shaped w1 ->
             Tidy {| emitter := {| transport := transport (emitter w1);
                                   emitter_ids := emitter_ids (emitter w1);
                                   emitted := emitted (emitter w1);
                                   size := size (emitter w1) + json_length ev;
                                   flusher := flusher (emitter w1);
                                   deadline := deadline (emitter w1);
                                   buffered := buffered (emitter w1) + 1 |};
                     sent := sent w1; fatals := fatals w1 |}).
  { intros w1 Hp Hb (S1 & S2 & S3 & S4). constructor; simpl; try assumption.
    unfold pending, in_chain in *. simpl. rewrite Hb, Hc. lia. }
  fold ev. fold (put [ev]).
  case_eq (get (emitted (emitter w)) (topic m)); [intros events Hg | intros Hg].
  - fold (put (events ++ [ev])).
    destruct (Hput (events ++ [ev]) events) as (P1 & P2 & P3 & P4 & P5 & P6).
    { rewrite Hg. split; reflexivity. }
    destruct ((64 <? Z.of_nat (List.length (events ++ [ev]))) || (64000 <? size (emitter w)))
      eqn:Hflush.
    + destruct (flush_pending (put (events ++ [ev]))) as [F1 F2].
      apply (Hfinish (fst (flush (put (events ++ [ev]))))).
      * rewrite F1. exact P1.
      * rewrite F2. exact P2.
      * apply flush_shaped; [exact P4|exact Hs|exact Hch].
    + apply orb_false_iff in Hflush. destruct Hflush as [Hlen _].
      apply Z.ltb_ge in Hlen.
      apply (Hfinish (put (events ++ [ev]))); [exact P1|exact P2|].
      repeat split; try assumption. apply P5. lia.
  - destruct (Hput [ev] []) as (P1 & P2 & P3 & P4 & P5 & P6).
    { rewrite Hg. split; reflexivity. }
    apply (Hfinish (put [ev])); [exact P1|exact P2|].
    repeat split; try assumption. apply P5. simpl. lia.
Qed.

Lemma step_tidy (w : World) (a : Action) : Tidy w -> Tidy (step w a).
Proof.
  intros Ht. pose proof Ht as [Hc Hk Hl Hs Hch].
  destruct a as [eventTime now m data | | i ok | ]; simpl.
  - destruct (emit eventTime now m data w) as [w1|msg] eqn:He; [|exact Ht].
    exact (emit_tidy _ _ _ _ _ _ Ht He).
  - destruct (flush_pending w) as [F1 F2].
    destruct (flush_shaped w) as (S1 & S2 & S3 & S4);
      [apply (lists_within_weaken 1 64 65); [lia|exact Hl]|exact Hs|exact Hch|].
    constructor; try assumption.
    change (buffered (emitter (fst (flush w))) = pending (fst (flush w))).
    rewrite F2, F1. exact Hc.
  - destruct (flusher (emitter w)) as [f|] eqn:Hf; [|exact Ht].
    destruct (nth_error (outstanding f) i) as [[t events]|] eqn:Hn; [|exact Ht].
    destruct Hch as [Ho Hw].
    constructor; simpl; try assumption.
    + unfold pending, in_chain in *. simpl. rewrite Hf in Hc.
      rewrite (count_remove_nth _ _ _ _ Hn), Hc. lia.
    + split; [apply lists_within_remove_nth; exact Ho|exact Hw].
  - destruct (flusher (emitter w)) as [f|] eqn:Hf; [|exact Ht].
    destruct f as [out wait]. destruct out as [|o out]; [|exact Ht].
    destruct wait as [|buf rest]; [exact Ht|].
    simpl in Hch. destruct Hch as [Ho Hw]. inversion Hw as [|? ? Hbuf Hrest]; subst.
    pose proof (lists_within_entries _ _ _ Hbuf) as Hbuf'.
    unfold flushEvents. constructor; simpl; try assumption.
    + unfold pending, in_chain in *. simpl. rewrite Hf in Hc. simpl in Hc.
      rewrite Hc, count_entries. lia.
    + apply Forall_app. split; assumption.
    + split; assumption.
Qed.

Lemma start_tidy (t : EventTransport) (client : ClientInfo) (timeout now : Q) :
  Tidy (start (new_EventEmitter t client timeout now)).
Proof. constructor; simpl; try reflexivity; constructor. Qed.

Lemma run_tidy (schedule : list Action) (w : World) : Tidy w -> Tidy (run w schedule).
Proof.
  revert w. induction schedule as [|a schedule IH]; intros w Ht; [exact Ht|].
  simpl. apply IH. apply step_tidy. exact Ht.
Qed.

Lemma count_nonneg (buf : EmitBuffer) : 0 <= count buf.
Proof. induction buf as [|x buf IH]; simpl; lia. Qed.

Lemma pending_nonneg (w : World) : 0 <= pending w.
Proof.
  unfold pending, in_chain. pose proof (count_nonneg (emitted (emitter w))).
  destruct (flusher (emitter w)) as [f|]; [|lia].
  pose proof (count_nonneg (outstanding f)).
  assert (0 <= fold_right (fun (buf : EmitBuffer) acc => count buf + acc) 0 (waiting f)).
  { induction (waiting f) as [|b l IH]; simpl; [lia|]. pose proof (count_nonneg b). lia. }
  lia.
Qed.


(** X7. In every state an emitter reaches, a topic has one list in the
    buffer, that list holds between 1 and 64 events, and every call of
    [sendEvents] carried between 1 and 65 events. *)
Theorem topic_lists_are_bounded :
  forall (t : EventTransport) (client : ClientInfo) (timeout now : Q)
         (schedule : list Action),
    let w := run (start (new_EventEmitter t client timeout now)) schedule in
    NoDup (map fst (emitted (emitter w)))
    /\ Forall (fun entry => (1 <= List.length (snd entry) <= 64)%nat) (emitted (emitter w))
    /\ Forall (fun call => (1 <= List.length (snd call) <= 65)%nat) (sent w).
Proof.
  intros t client timeout now schedule w.
  destruct (run_tidy schedule _ (start_tidy t client timeout now)) as [_ Hk Hl Hs _].
  repeat split; assumption.
Qed.

End LedgerFacts.

(** ** The events an emitter hands over, and its overflow guard *)

Section EventOrderFacts.
Import JS Emitter Samples Scenario Accounting Ledger.

Lemma topic_events_app (t : string) (a b : EmitBuffer) :
  topic_events t (a ++ b) = topic_events t a ++ topic_events t b.
Proof. unfold topic_events. apply flat_map_app. Qed.

Lemma topic_events_absent (t : string) (o : EmitBuffer) :
  ~ In t (map fst o) -> topic_events t o = [].
Proof.
  induction o as [|[k v] o IH]; simpl; intros Hn; [reflexivity|].
  destruct (String.eqb k t) eqn:Hk.
  - apply String.eqb_eq in Hk. exfalso. apply Hn. left. exact Hk.
  - apply IH. intros Hin. apply Hn. right. exact Hin.
Qed.

Lemma topic_events_get (t : string) (o : EmitBuffer) :
  well_formed o ->
  topic_events t o = match get o t with Some evs => evs | None => [] end.
Proof.
  unfold well_formed. induction o as [|[k v] o IH]; simpl; intros Hnd; [reflexivity|].
  inversion Hnd as [|? ? Hnotin Hnd']; subst.
  destruct (String.eqb k t) eqn:Hk.
  - apply String.eqb_eq in Hk. subst k.
    rewrite (topic_events_absent _ _ Hnotin). apply app_nil_r.
  - exact (IH Hnd').
Qed.

Lemma topic_events_set_other (t k : string) (o : EmitBuffer) (evs : list BufferedEvent) :
  k <> t -> topic_events t (set o k evs) = topic_events t o.
Proof.
  intros Hne. induction o as [|[k0 v0] o IH]; simpl.
  - destruct (String.eqb k t) eqn:Hk; [apply String.eqb_eq in Hk; contradiction|reflexivity].
  - destruct (String.eqb k0 k) eqn:Hk0; simpl.
    + apply String.eqb_eq in Hk0. subst k0.
      destruct (String.eqb k t) eqn:Hk; [apply String.eqb_eq in Hk; contradiction|reflexivity].
    + rewrite IH. reflexivity.
Qed.

Lemma topic_events_entries (t : string) (o : EmitBuffer) :
  well_formed o -> topic_events t (JS.entries o) = topic_events t o.
Proof.
  intros Hwf.
  rewrite (topic_events_get t (JS.entries o)) by (apply entries_keys; exact Hwf).
  rewrite (topic_events_get t o Hwf), (get_entries o t Hwf). reflexivity.
Qed.

Lemma flush_handed (t : string) (w : World) :
  well_formed (emitted (emitter w)) -> handed t (fst (flush w)) = handed t w.
Proof.
  intros Hwf. unfold flush, startFlush, flushEvents, handed.
  destruct (flusher (emitter w)) as [f|]; simpl.
  - f_equal. rewrite flat_map_app. simpl. rewrite !app_nil_r. reflexivity.
  - rewrite topic_events_app, (topic_events_entries t _ Hwf), !app_nil_r. reflexivity.
Qed.

Lemma flush_keyed (w : World) :
  well_formed (emitted (emitter w)) -> Keyed w -> Keyed (fst (flush w)).
Proof.
  intros Hwf Hk. unfold flush, startFlush, flushEvents, Keyed in *.
  destruct (flusher (emitter w)) as [f|]; simpl.
  - apply Forall_app. split; [exact Hk|]. constructor; [exact Hwf|constructor].
  - constructor.
Qed.

Lemma step_keyed (w : World) (a : Action) : Tidy w -> Keyed w -> Keyed (step w a).
Proof.
  intros [_ Hwf _ _ _] Hk.
  destruct a as [eventTime now m data | | i ok | ]; cbn [step].
  - unfold emit. destruct (greater _ _); [exact Hk|].
    destruct (prototype_hit _ _); [exact Hk|].
    destruct (get (emitted (emitter w)) (topic m)) as [events|]; [|exact Hk].
    match goal with |- context [if ?c then _ else _] => destruct c end; [|exact Hk].
    match goal with
    | |- context [flush ?x] =>
        assert (Hf : Keyed (fst (flush x)));
          [apply flush_keyed; [apply set_well_formed; exact Hwf|exact Hk]|]
    end.
    exact Hf.
  - apply flush_keyed; assumption.
  - unfold Keyed in *. destruct (flusher (emitter w)) as [f|] eqn:Hf; [|rewrite Hf; exact I].
    destruct (nth_error (outstanding f) i) as [[t0 events]|];
      [simpl; exact Hk|rewrite Hf; exact Hk].
  - unfold Keyed in *. destruct (flusher (emitter w)) as [f|] eqn:Hf; [|rewrite Hf; exact I].
    destruct f as [[|o out] [|buf rest]]; try (rewrite Hf; exact Hk).
    simpl in Hk. inversion Hk; subst. simpl. assumption.
Qed.

Lemma run_keyed (schedule : list Action) (w : World) :
  Tidy w -> Keyed w -> Keyed (run w schedule).
Proof.
  revert w. induction schedule as [|a schedule IH]; intros w Ht Hk; [exact Hk|].
  simpl. apply IH; [apply step_tidy; exact Ht|apply step_keyed; assumption].
Qed.

Lemma flush_ids (w : World) :
  emitter_ids (emitter (fst (flush w))) = emitter_ids (emitter w).
Proof.
  unfold flush, startFlush, flushEvents.
  destruct (flusher (emitter w)); reflexivity.
Qed.

Lemma step_ids (w : World) (a : Action) :
  emitter_ids (emitter (step w a)) = emitter_ids (emitter w).
Proof.
  destruct a as [eventTime now m data | | i ok | ]; simpl.
  - unfold emit. destruct (greater _ _); [reflexivity|].
    destruct (prototype_hit _ _); [reflexivity|].
    destruct (get (emitted (emitter w)) (topic m)); [|reflexivity].
    destruct ((64 <? Z.of_nat (List.length (l ++ _))) || (64000 <? size (emitter w)));
      [|reflexivity].
    cbn [emitter emitter_ids]. rewrite flush_ids. reflexivity.
  - apply flush_ids.
  - destruct (flusher (emitter w)) as [f|]; [|reflexivity].
    destruct (nth_error (outstanding f) i) as [[t events]|]; reflexivity.
  - destruct (flusher (emitter w)) as [[[|o out] [|buf rest]]|]; reflexivity.
Qed.

Lemma step_handed (t : string) (w : World) (a : Action) :
  Tidy w -> Keyed w ->
  handed t (step w a) = handed t w ++ about_topic t (accepted_by w a).
Proof.
  intros [_ Hk _ _ _] Hkeyed.
  destruct a as [eventTime now m data | | i ok | ]; cbn [step accepted_by].
  - unfold emit. destruct (greater _ _); [simpl; symmetry; apply app_nil_r|].
    destruct (prototype_hit _ _); [simpl; symmetry; apply app_nil_r|].
    set (ev := {| eventTime := eventTime; meta := m; ids := emitter_ids (emitter w);
                  json := match data with Some d => JSON_stringify d | None => None end |}).
    set (put := fun evs : list BufferedEvent =>
                  {| emitter := {| transport := transport (emitter w);
                                   emitter_ids := emitter_ids (emitter w);
                                   emitted := set (emitted (emitter w)) (topic m) evs;
                                   size := size (emitter w); flusher := flusher (emitter w);
                                   deadline := deadline (emitter w);
                                   buffered := buffered (emitter w) |};
                     sent := sent w; fatals := fatals w |}).
    assert (Hput : forall evs,
               evs = match get (emitted (emitter w)) (topic m) with
                     | Some x => x ++ [ev]
                     | None => [ev]
                     end ->
               handed t (put evs) = handed t w ++ about_topic t [ev]).
    { intros evs Hevs. unfold handed, put. simpl. rewrite <- !app_assoc. do 2 f_equal.
      destruct (String.eqb (topic m) t) eqn:Ht.
      - apply String.eqb_eq in Ht. subst t.
        rewrite (topic_events_get _ _ (set_well_formed _ _ evs Hk)), get_set_same.
        rewrite (topic_events_get _ _ Hk), Hevs.
        destruct (get (emitted (emitter w)) (topic m)); reflexivity.
      - rewrite topic_events_set_other, app_nil_r; [reflexivity|].
        intros Heq. subst t. rewrite String.eqb_refl in Ht. discriminate. }
    fold ev. fold (put [ev]).
    change (about_topic t [event_of (emitter_ids (emitter w)) (eventTime, now, m, data)])
      with (about_topic t [ev]).
    case_eq (get (emitted (emitter w)) (topic m)); [intros events Hg | intros Hg].
    + fold (put (events ++ [ev])).
      match goal with |- context [if ?c then _ else _] => destruct c end.
      * change (handed t (fst (flush (put (events ++ [ev]))))
                = handed t w ++ about_topic t [ev]).
        rewrite flush_handed by (apply set_well_formed; exact Hk).
        apply Hput. rewrite Hg. reflexivity.
      * change (handed t (put (events ++ [ev])) = handed t w ++ about_topic t [ev]).
        apply Hput. rewrite Hg. reflexivity.
    + change (handed t (put [ev]) = handed t w ++ about_topic t [ev]).
      apply Hput. rewrite Hg. reflexivity.
  - rewrite flush_handed by exact Hk. symmetry. apply app_nil_r.
  - simpl. rewrite app_nil_r. destruct (flusher (emitter w)) as [f|] eqn:Hf; [|reflexivity].
    destruct (nth_error (outstanding f) i) as [[t0 events]|]; [|reflexivity].
    unfold handed. simpl. rewrite Hf. reflexivity.
  - simpl. rewrite app_nil_r. destruct (flusher (emitter w)) as [f|] eqn:Hf; [|reflexivity].
    destruct f as [[|o out] [|buf rest]]; try reflexivity.
    unfold Keyed in Hkeyed. rewrite Hf in Hkeyed. simpl in Hkeyed.
    inversion Hkeyed as [|? ? Hbuf _]; subst.
    unfold flushEvents, handed. simpl. rewrite Hf. simpl.
    rewrite topic_events_app, (topic_events_entries t _ Hbuf), <- !app_assoc. reflexivity.
Qed.

Lemma run_handed (t : string) (schedule : list Action) (w : World) :
  Tidy w -> Keyed w ->
  handed t (run w schedule) = handed t w ++ about_topic t (accepted w schedule).
Proof.
  revert w. induction schedule as [|a schedule IH]; intros w Ht Hk; simpl.
  - symmetry. apply app_nil_r.
  - rewrite (IH _ (step_tidy _ a Ht) (step_keyed _ a Ht Hk)), (step_handed _ _ _ Ht Hk).
    unfold about_topic. rewrite filter_app, app_assoc. reflexivity.
Qed.

Lemma accepted_ids (schedule : list Action) (w : World) :
  Forall (fun ev => ids ev = emitter_ids (emitter w)) (accepted w schedule).
Proof.
  revert w. induction schedule as [|a schedule IH]; intros w; simpl; [constructor|].
  apply Forall_app. split.
  - destruct a as [eventTime now m data | | i ok | ]; simpl; try constructor.
    destruct (emit eventTime now m data w); constructor; [reflexivity|constructor].
  - rewrite <- (step_ids w a). apply IH.
Qed.

(** X8. Whatever an emitter is made to do, the events of a topic that
    [emit] accepted are all there, once each and in the order they were
    emitted: first those in the calls of [sendEvents], in the order of the
    calls, then those queued behind a flush, then those still buffered.
    Each carries the client given to the constructor. *)
Theorem accepted_events_are_kept_in_order :
  forall (t : EventTransport) (client : ClientInfo) (timeout now : Q)
         (schedule : list Action) (name : string),
    let w0 := start (new_EventEmitter t client timeout now) in
    handed name (run w0 schedule) = about_topic name (accepted w0 schedule)
    /\ Forall (fun ev => ids ev = client) (accepted w0 schedule).
Proof.
  intros t client timeout now schedule name w0. split.
  - rewrite (run_handed name schedule w0 (start_tidy t client timeout now) I). reflexivity.
  - exact (accepted_ids schedule w0).
Qed.

Lemma step_transport (x : World) (a : Action) :
  transport (emitter (step x a)) = transport (emitter x).
Proof.
  destruct a as [e1 n1 m1 d1 | | i ok | ]; simpl.
  - unfold emit. destruct (greater _ _); [reflexivity|].
    destruct (prototype_hit _ _); [reflexivity|].
    destruct (get (emitted (emitter x)) (topic m1)); [|reflexivity].
    destruct ((64 <? Z.of_nat (List.length (l ++ _))) || (64000 <? size (emitter x)));
      [|reflexivity].
    cbn [emitter transport]. unfold flush, startFlush, flushEvents. simpl.
    destruct (flusher (emitter x)); reflexivity.
  - unfold flush, startFlush, flushEvents.
    destruct (flusher (emitter x)); reflexivity.
  - destruct (flusher (emitter x)) as [f|]; [|reflexivity].
    destruct (nth_error (outstanding f) i) as [[t0 events]|]; reflexivity.
  - destruct (flusher (emitter x)) as [[[|o out] [|buf rest]]|]; reflexivity.
Qed.

Lemma run_transport (schedule : list Action) (x : World) :
  transport (emitter (run x schedule)) = transport (emitter x).
Proof.
  revert x. induction schedule as [|a s IH]; intros x; [reflexivity|].
  simpl. rewrite IH. apply step_transport.
Qed.

(** X9. Two edges of the overflow rule, in every state an emitter reaches.
    With a positive publish rate, once the deadline has passed every
    [emit] throws, even with nothing buffered. With a publish rate of zero
    [emit] throws exactly when an event is buffered: the first event is
    accepted and none after it until a send has settled. *)
Theorem overflow_past_deadline_and_at_rate_zero :
  forall (t : EventTransport) (client : ClientInfo) (timeout now0 : Q)
         (schedule : list Action) (eventTime now : Q) (m : EventMetadata)
         (data : option Json),
    let w := run (start (new_EventEmitter t client timeout now0)) schedule in
    ((0 < publishRate t)%Q -> (deadline (emitter w) < now)%Q ->
     emit eventTime now m data w = Throw "Event overflow.")
    /\ ((publishRate t == 0)%Q ->
        (emit eventTime now m data w = Throw "Event overflow."
         <-> 0 < buffered (emitter w))).
Proof.
  intros t client timeout now0 schedule eventTime now m data w.
  assert (Ht : transport (emitter w) = t) by apply run_transport.
  assert (Hb : 0 <= buffered (emitter w)).
  { destruct (run_tidy schedule _ (start_tidy t client timeout now0)) as [Hc _ _ _ _].
    fold w in Hc. rewrite Hc. apply pending_nonneg. }
  split.
  - intros Hr Hlate. unfold emit. rewrite Ht.
    replace (greater _ _) with true; [reflexivity|].
    symmetry. unfold divide.
    replace (Qeq_bool (publishRate t) 0) with false.
    + apply to_double_nonneg; [|lra].
      apply Qle_shift_div_l; [exact Hr|].
      rewrite Qmult_0_l. change 0%Q with (inject_Z 0). rewrite <- Zle_Qle. exact Hb.
    + symmetry. apply not_true_iff_false. intros H. apply Qeq_bool_iff in H. lra.
  - intros Hz. unfold emit. rewrite Ht. unfold divide.
    apply Qeq_bool_iff in Hz. rewrite Hz.
    destruct (Qeq_bool (inject_Z (buffered (emitter w))) 0) eqn:Hb0.
    + apply Qeq_bool_iff in Hb0. unfold Qeq in Hb0. simpl in Hb0.
      cbn [greater]. cbv iota.
      split; [destruct (prototype_hit _ _); discriminate|intros Hp; exfalso; lia].
    + assert (Hpos : 0 < buffered (emitter w)).
      { assert (buffered (emitter w) <> 0); [|lia].
        intros H0. rewrite H0 in Hb0. discriminate. }
      replace (Qle_bool 0 (inject_Z (buffered (emitter w)))) with true.
      * cbn [greater]. split; [intros _; exact Hpos|reflexivity].
      * symmetry. apply Qle_bool_iff. change 0%Q with (inject_Z 0).
        rewrite <- Zle_Qle. lia.
Qed.

Lemma overflow_past_deadline_and_at_rate_zero_witness :
  ((0 < publishRate {| publishRate := 1 |})%Q
   /\ (deadline (emitter slow_emitter) < 1001)%Q
   /\ emit 0 1001 orders None slow_emitter = Throw "Event overflow.")
  /\ ((publishRate {| publishRate := 0 |} == 0)%Q
      /\ (emit 0 0 orders None (run stalled_emitter [Emit 0 0 orders None])
          = Throw "Event overflow."
          <-> 0 < buffered (emitter (run stalled_emitter [Emit 0 0 orders None])))).
Proof.
  split.
  - split; [reflexivity|]. split; [reflexivity|].
    apply (proj1 (overflow_past_deadline_and_at_rate_zero
                    {| publishRate := 1 |} alice 1000 0 [] 0 1001 orders None));
      reflexivity.
  - split; [reflexivity|].
    apply (proj2 (overflow_past_deadline_and_at_rate_zero
                    {| publishRate := 0 |} alice 1000 0 [Emit 0 0 orders None]
                    0 0 orders None)).
    reflexivity.
Defined.

End EventOrderFacts.

(** ** The publish rate of several log transports *)

Section MulticasterFacts.
Import JS Logging Context Sorting.

Lemma ascii_compare_lt (a b : ascii) :
  Ascii.compare a b = Lt <-> (N_of_ascii a < N_of_ascii b)%N.
Proof. unfold Ascii.compare. apply N.compare_lt_iff. Qed.

Lemma ascii_compare_refl (a : ascii) : Ascii.compare a a = Eq.
Proof. unfold Ascii.compare. apply N.compare_refl. Qed.

Lemma string_compare_refl (s : string) : String.compare s s = Eq.
Proof.
  induction s as [|c s IH]; simpl; [reflexivity|].
  rewrite ascii_compare_refl. exact IH.
Qed.

Lemma string_compare_lt_trans (s1 : string) :
  forall s2 s3, String.compare s1 s2 = Lt -> String.compare s2 s3 = Lt ->
                String.compare s1 s3 = Lt.
Proof.
  induction s1 as [|a s1 IH]; intros [|b s2] [|c s3]; simpl; try discriminate;
    try reflexivity.
  destruct (Ascii.compare a b) eqn:Hab; try discriminate;
    destruct (Ascii.compare b c) eqn:Hbc; try discriminate; intros H12 H23.
  - apply Ascii.compare_eq_iff in Hab, Hbc. subst. rewrite ascii_compare_refl.
    exact (IH _ _ H12 H23).
  - apply Ascii.compare_eq_iff in Hab. subst. rewrite Hbc. reflexivity.
  - apply Ascii.compare_eq_iff in Hbc. subst. rewrite Hab. reflexivity.
  - apply ascii_compare_lt in Hab. apply ascii_compare_lt in Hbc.
    replace (Ascii.compare a c) with Lt; [reflexivity|].
    symmetry. apply ascii_compare_lt. exact (N.lt_trans _ _ _ Hab Hbc).
Qed.

Lemma string_leb_cases (s1 s2 : string) :
  String.leb s1 s2 = true <-> s1 = s2 \/ String.compare s1 s2 = Lt.
Proof.
  unfold String.leb. destruct (String.compare s1 s2) eqn:Hc.
  - apply String.compare_eq_iff in Hc. tauto.
  - tauto.
  - split; [discriminate|]. intros [He|Hl]; [|discriminate].
    subst. rewrite string_compare_refl in Hc. discriminate.
Qed.

Lemma string_leb_trans (s1 s2 s3 : string) :
  String.leb s1 s2 = true -> String.leb s2 s3 = true -> String.leb s1 s3 = true.
Proof.
  rewrite !string_leb_cases. intros [H12|H12] [H23|H23]; subst; auto.
  right. exact (string_compare_lt_trans _ _ _ H12 H23).
Qed.

Lemma sort_le_trans (x y z : option Z) :
  sort_le x y = true -> sort_le y z = true -> sort_le x z = true.
Proof.
  destruct x as [a|], y as [b|], z as [c|]; simpl; try discriminate; try reflexivity.
  apply string_leb_trans.
Qed.

Lemma sort_le_total (x y : option Z) : sort_le x y = false -> sort_le y x = true.
Proof.
  destruct x as [a|], y as [b|]; simpl; try discriminate; try reflexivity.
  intros Hf. destruct (String.leb_total (Number_toString a) (Number_toString b)) as [H|H].
  - rewrite H in Hf. discriminate.
  - exact H.
Qed.

Lemma sort_insert_In (x y : option Z) (l : list (option Z)) :
  In y (sort_insert x l) <-> y = x \/ In y l.
Proof.
  induction l as [|z l IH]; simpl.
  - intuition congruence.
  - destruct (sort_le x z); simpl; rewrite ?IH; intuition congruence.
Qed.

Lemma sort_In (y : option Z) (l : list (option Z)) : In y (sort l) <-> In y l.
Proof.
  induction l as [|z l IH]; simpl; [tauto|].
  rewrite sort_insert_In, IH. intuition congruence.
Qed.

Lemma sort_insert_Ordered (x : option Z) (l : list (option Z)) :
  Ordered l -> Ordered (sort_insert x l).
Proof.
  induction 1 as [|z l Hz Hl IH]; simpl.
  - constructor; constructor.
  - destruct (sort_le x z) eqn:Hxz.
    + constructor; [|constructor; assumption].
      constructor; [exact Hxz|].
      unfold leads in *. rewrite Forall_forall in *. intros y Hy.
      exact (sort_le_trans _ _ _ Hxz (Hz y Hy)).
    + constructor; [|exact IH].
      unfold leads in *. rewrite Forall_forall in *. intros y Hy.
      apply sort_insert_In in Hy. destruct Hy as [->|Hy].
      * exact (sort_le_total _ _ Hxz).
      * exact (Hz y Hy).
Qed.

Lemma sort_Ordered (l : list (option Z)) : Ordered (sort l).
Proof.
  induction l as [|x l IH]; simpl; [constructor|].
  apply sort_insert_Ordered. exact IH.
Qed.

Lemma sort_head (l : list (option Z)) (x : option Z) (rest : list (option Z)) :
  sort l = x :: rest -> In x l /\ forall y, In y l -> sort_le x y = true.
Proof.
  intros Hs. split.
  - apply sort_In. rewrite Hs. left. reflexivity.
  - intros y Hy. pose proof (sort_Ordered l) as Ho. rewrite Hs in Ho.
    apply sort_In in Hy. rewrite Hs in Hy.
    inversion Ho as [|x' l' Hlead Hrest]; subst.
    destruct Hy as [<-|Hy].
    + destruct x as [a|]; simpl; [|reflexivity].
      apply string_leb_cases. left. reflexivity.
    + unfold leads in Hlead. rewrite Forall_forall in Hlead. exact (Hlead y Hy).
Qed.

Lemma filter_true_length (l : list bool) :
  Nat.eqb (List.length (filter (fun p : bool => p) l)) 0 = false <-> In true l.
Proof.
  induction l as [|[|] l IH]; simpl.
  - split; [discriminate|tauto].
  - split; [auto|reflexivity].
  - rewrite IH. split; [auto|]. intros [H|H]; [discriminate|exact H].
Qed.

Lemma digit_order (a b : Z) :
  0 <= a <= 9 -> 0 <= b <= 9 ->
  String.leb (Number_toString a) (Number_toString b) = true -> a <= b.
Proof.
  intros Ha Hb.
  assert (Ea : a = 0 \/ a = 1 \/ a = 2 \/ a = 3 \/ a = 4 \/ a = 5 \/ a = 6 \/ a = 7
               \/ a = 8 \/ a = 9) by lia.
  assert (Eb : b = 0 \/ b = 1 \/ b = 2 \/ b = 3 \/ b = 4 \/ b = 5 \/ b = 6 \/ b = 7
               \/ b = 8 \/ b = 9) by lia.
  clear Ha Hb.
  repeat (destruct Ea as [Ea|Ea]; [subst a|]); try subst a;
    repeat (destruct Eb as [Eb|Eb]; [subst b|]); try subst b;
    vm_compute; intros H; congruence.
Qed.

(** X10. The [publishRate] of a [LogMulticaster] is always a number. It
    is [MAX_SAFE_INTEGER] when no transport declares a rate; otherwise it is
    one of the declared rates, whatever the position of the transports
    that declare none. When the declared rates are safe integers (of
    magnitude at most [MAX_SAFE_INTEGER], which print as their decimal
    digits), it is the one whose decimal text comes first in string order;
    among rates of one digit that is the smallest rate. Its [sendEntries]
    answers a promise exactly when one of the transports does. *)
Theorem LogMulticaster_rate_is_first_in_string_order :
  forall (transports : list LogTransport),
    let rates := map publishRate transports in
    let multicaster := LogMulticaster transports in
    exists r,
      publishRate multicaster = Some r
      /\ ((forall x, In x rates -> x = None) -> r = MAX_SAFE_INTEGER)
      /\ ((exists d, In (Some d) rates) -> In (Some r) rates)
      /\ ((forall d, In (Some d) rates -> Z.abs d <= MAX_SAFE_INTEGER) ->
          forall d, In (Some d) rates ->
                    String.leb (Number_toString r) (Number_toString d) = true)
      /\ ((forall d, In (Some d) rates -> 0 <= d <= 9) ->
          forall d, In (Some d) rates -> r <= d)
      /\ (forall entries,
             sendEntries multicaster entries = true
             <-> exists t, In t transports /\ sendEntries t entries = true).
Proof.
  intros transports rates multicaster.
  assert (Hsend : forall entries,
             sendEntries multicaster entries = true
             <-> exists t, In t transports /\ sendEntries t entries = true).
  { intros entries. unfold multicaster, LogMulticaster. cbn [sendEntries].
    rewrite negb_true_iff, filter_true_length, in_map_iff.
    split; intros [t [H1 H2]]; exists t; tauto. }
  unfold multicaster at 1. unfold LogMulticaster. cbn [publishRate]. fold rates.
  destruct (sort rates) as [|[r|] rest] eqn:Hs.
  - exists MAX_SAFE_INTEGER. split; [reflexivity|]. split; [reflexivity|].
    assert (Hnone : forall d, ~ In (Some d) rates).
    { intros d Hd. apply sort_In in Hd. rewrite Hs in Hd. exact Hd. }
    split; [intros [d Hd]; destruct (Hnone d Hd)|].
    split; [intros _ d Hd; destruct (Hnone d Hd)|].
    split; [intros _ d Hd; destruct (Hnone d Hd)|exact Hsend].
  - exists r. split; [reflexivity|].
    destruct (sort_head _ _ _ Hs) as [Hin Hmin].
    split; [intros Hall; specialize (Hall _ Hin); discriminate|].
    split; [intros _; exact Hin|].
    split; [intros _ d Hd; exact (Hmin _ Hd)|].
    split; [|exact Hsend].
    intros Hdigits d Hd. apply digit_order; [apply Hdigits; exact Hin|apply Hdigits; exact Hd|].
    exact (Hmin _ Hd).
  - exists MAX_SAFE_INTEGER. split; [reflexivity|]. split; [reflexivity|].
    destruct (sort_head _ _ _ Hs) as [Hin Hmin].
    assert (Hnone : forall d, ~ In (Some d) rates).
    { intros d Hd. specialize (Hmin _ Hd). simpl in Hmin. discriminate. }
    split; [intros [d Hd]; destruct (Hnone d Hd)|].
    split; [intros _ d Hd; destruct (Hnone d Hd)|].
    split; [intros _ d Hd; destruct (Hnone d Hd)|exact Hsend].
Qed.

(** Rates 7 and 3 and a transport without one: the rate is 3; rates 10
    and 9: the rate is 10, whose text comes first. *)
Lemma LogMulticaster_rate_is_first_in_string_order_witness :
  (exists r,
      Logging.publishRate (Context.LogMulticaster Served.three_transports) = Some r
      /\ r <= 7)
  /\ Logging.publishRate
       (Context.LogMulticaster [Samples.rated (Some 9); Samples.rated (Some 10)])
     = Some 10.
Proof.
  split; [|reflexivity].
  destruct (LogMulticaster_rate_is_first_in_string_order Served.three_transports)
    as [r [Hr [_ [_ [_ [Hdigits _]]]]]].
  exists r. split; [exact Hr|]. apply Hdigits.
  - intros d Hd. simpl in Hd. destruct Hd as [Hd|[Hd|[Hd|[]]]]; try discriminate;
      injection Hd as <-; lia.
  - simpl. left. reflexivity.
Defined.

End MulticasterFacts.

(** ** The timeout of a context *)

Section TimeoutFacts.
Import JS Emitter Context Samples Ledger.

Lemma step_deadline (x : World) (a : Action) :
  deadline (emitter (step x a)) = deadline (emitter x).
Proof.
  destruct a as [e1 n1 m1 d1 | | i ok | ]; simpl.
  - unfold emit. destruct (greater _ _); [reflexivity|].
    destruct (prototype_hit _ _); [reflexivity|].
    destruct (get (emitted (emitter x)) (topic m1)); [|reflexivity].
    destruct ((64 <? Z.of_nat (List.length (l ++ _))) || (64000 <? size (emitter x)));
      [|reflexivity].
    cbn [emitter deadline]. unfold flush, startFlush, flushEvents. simpl.
    destruct (flusher (emitter x)); reflexivity.
  - unfold flush, startFlush, flushEvents.
    destruct (flusher (emitter x)); reflexivity.
  - destruct (flusher (emitter x)) as [f|]; [|reflexivity].
    destruct (nth_error (outstanding f) i) as [[t0 events]|]; reflexivity.
  - destruct (flusher (emitter x)) as [[[|o out] [|buf rest]]|]; reflexivity.
Qed.

Lemma run_deadline (schedule : list Action) (x : World) :
  deadline (emitter (run x schedule)) = deadline (emitter x).
Proof.
  revert x. induction schedule as [|a s IH]; intros x; [reflexivity|].
  simpl. rewrite IH. apply step_deadline.
Qed.

Lemma emit_after_deadline (w : World) (eventTime now : Q) (m : EventMetadata)
    (data : option Json) :
  0 <= buffered (emitter w) ->
  (0 < publishRate (transport (emitter w)))%Q ->
  (deadline (emitter w) < now)%Q ->
  emit eventTime now m data w = Throw "Event overflow.".
Proof.
  intros Hb Hr Hlate. unfold emit.
  replace (greater _ _) with true; [reflexivity|].
  symmetry. unfold divide.
  replace (Qeq_bool (publishRate (transport (emitter w))) 0) with false.
  - apply to_double_nonneg; [|lra].
    apply Qle_shift_div_l; [exact Hr|].
    rewrite Qmult_0_l. change 0%Q with (inject_Z 0). rewrite <- Zle_Qle. exact Hb.
  - symmetry. apply not_true_iff_false. intros H. apply Qeq_bool_iff in H. lra.
Qed.

Lemma Qmin_l (a b : Q) : (a <= b)%Q -> Qmin a b = a.
Proof. intros H. unfold Qmin. apply Qle_bool_iff in H. rewrite H. reflexivity. Qed.

Lemma Qmin_r (a b : Q) : ~ (a <= b)%Q -> Qmin a b = b.
Proof.
  intros H. unfold Qmin. destruct (Qle_bool a b) eqn:Hle; [|reflexivity].
  apply Qle_bool_iff in Hle. contradiction.
Qed.

(** X11. The timeout [createContext] works with is a double, in
    milliseconds: the double nearest to 1000 times the seconds the handler
    is configured with, else the default, when there is no cap, the cap is
    zero or the cap is not below them; and the double nearest to 1000
    times the cap otherwise. A whole number of milliseconds within
    [2 ^ 53] is kept as it is. The emitter it creates keeps one deadline
    whatever is emitted, flushed or settled: the double nearest to the
    time of creation plus that timeout, which is their sum when both are
    whole numbers of milliseconds and the sum is within [2 ^ 53]. An event
    emitted later than the deadline is refused when the transport has a
    positive publish rate. *)
Theorem createContext_timeout_bounds_the_emitter :
  forall (clientInfo : ClientInfo) (loggers : list Logging.LogTransport)
         (eventTransport : EventTransport) (timeouts : Timeouts)
         (outerSignal : Logging.AbortSignal) (m : option Metadata)
         (origin100ns : Z) (now : Q) (schedule : list Action)
         (eventTime later : Q) (md : EventMetadata) (data : option Json),
    let created := createContext clientInfo loggers eventTransport timeouts
                     outerSignal m origin100ns now in
    let wanted := match meta_timeout m with
                  | Some t => t
                  | None => default timeouts
                  end in
    let w := run (events created) schedule in
    (match cap timeouts with
     | Some c => (c == 0)%Q \/ (wanted <= c)%Q
     | None => True
     end -> timeout_ms created = nearest_double (wanted * 1000))
    /\ (forall c, cap timeouts = Some c -> ~ (c == 0)%Q -> ~ (wanted <= c)%Q ->
                  timeout_ms created = nearest_double (c * 1000))
    /\ (forall seconds ms,
           timeout_ms created = nearest_double (seconds * 1000) ->
           (seconds * 1000 == inject_Z ms)%Q -> Z.abs ms <= 2 ^ 53 ->
           (timeout_ms created == inject_Z ms)%Q)
    /\ deadline (emitter w) = nearest_double (now + timeout_ms created)
    /\ (forall n ms,
           (now == inject_Z n)%Q -> (timeout_ms created == inject_Z ms)%Q ->
           Z.abs (n + ms) <= 2 ^ 53 ->
           (deadline (emitter w) == inject_Z (n + ms))%Q)
    /\ ((0 < publishRate eventTransport)%Q ->
        (deadline (emitter w) < later)%Q ->
        emit eventTime later md data w = Throw "Event overflow.").
Proof.
  intros clientInfo loggers eventTransport timeouts outerSignal m origin100ns now
         schedule eventTime later md data created wanted w.
  assert (Ht : timeout_ms created
               = nearest_double
                   (match cap timeouts with
                    | Some c => if Qeq_bool c 0 then wanted else Qmin wanted c
                    | None => wanted
                    end * 1000)) by reflexivity.
  assert (He : events created
               = start (new_EventEmitter eventTransport clientInfo
                          (timeout_ms created) now)) by reflexivity.
  assert (Hd : deadline (emitter w) = nearest_double (now + timeout_ms created)).
  { unfold w. rewrite run_deadline, He. reflexivity. }
  split; [|split; [|split; [|split; [|split]]]].
  - intros Hcap. rewrite Ht. destruct (cap timeouts) as [c|]; [|reflexivity].
    destruct (Qeq_bool c 0) eqn:Hz; [reflexivity|].
    destruct Hcap as [H0|Hle].
    + apply Qeq_bool_iff in H0. rewrite H0 in Hz. discriminate.
    + rewrite (Qmin_l _ _ Hle). reflexivity.
  - intros c Hc Hnz Hbelow. rewrite Ht, Hc.
    destruct (Qeq_bool c 0) eqn:Hz.
    + apply Qeq_bool_iff in Hz. destruct (Hnz Hz).
    + rewrite (Qmin_r _ _ Hbelow). reflexivity.
  - intros seconds ms Hs Hms Hbound. rewrite Hs.
    apply nearest_double_whole; assumption.
  - exact Hd.
  - intros n ms Hn Hms Hbound. rewrite Hd.
    apply nearest_double_whole; [|exact Hbound].
    rewrite Hn, Hms, inject_Z_plus. reflexivity.
  - intros Hr Hlate. unfold w in *. rewrite He in *. apply emit_after_deadline.
    + destruct (run_tidy schedule _
                  (start_tidy eventTransport clientInfo (timeout_ms created) now))
        as [Hc _ _ _ _].
      rewrite Hc. apply pending_nonneg.
    + rewrite run_transport. exact Hr.
    + exact Hlate.
Qed.

(** A default of 0.7 + 0.1 seconds, the double 0.7999999999999999, and a
    context created at 1700000000000: the timeout is the double
    799.9999999999999, the deadline is the double 1700000000800, an event
    emitted at that time is accepted and one emitted a millisecond later is
    refused. *)
Lemma createContext_timeout_bounds_the_emitter_witness :
  let created :=
    Context.createContext Samples.alice [Samples.async_transport]
      {| Emitter.publishRate := 1 |}
      {| Context.default := 7205759403792793 # 9007199254740992;
         Context.cap := None |}
      Samples.plain_signal None Samples.origin100ns 1700000000000 in
  (Context.timeout_ms created == 7036874417766399 # 8796093022208)%Q
  /\ (Emitter.deadline (Emitter.emitter (Context.events created)) == 1700000000800)%Q
  /\ (exists w', Emitter.emit 0 1700000000800 Samples.orders None
                   (Context.events created) = Normal w')
  /\ Emitter.emit 0 1700000000801 Samples.orders None
       (Emitter.run (Context.events created) [])
     = Throw "Event overflow.".
Proof.
  cbv zeta.
  destruct (createContext_timeout_bounds_the_emitter Samples.alice
              [Samples.async_transport] {| Emitter.publishRate := 1 |}
              {| Context.default := 7205759403792793 # 9007199254740992;
                 Context.cap := None |}
              Samples.plain_signal None Samples.origin100ns 1700000000000 [] 0
              1700000000801 Samples.orders None) as (_ & _ & _ & _ & _ & Hlate).
  split; [vm_compute; reflexivity|].
  split; [vm_compute; reflexivity|].
  split; [eexists; vm_compute; reflexivity|].
  apply Hlate; vm_compute; reflexivity.
Defined.

End TimeoutFacts.

(** ** Outgoing requests and the headers they carry *)

Section OutgoingFacts.
Import JS Logging Accounting Records Outgoing Http.

Lemma substring_0_length (n : nat) :
  forall s, String.length (substring 0 n s) = Nat.min n (String.length s).
Proof.
  induction n as [|n IH]; intros [|c s]; simpl; try reflexivity.
  rewrite IH. reflexivity.
Qed.

Lemma substring_0_prefix (n : nat) :
  forall s, exists rest, s = (substring 0 n s ++ rest)%string.
Proof.
  induction n as [|n IH]; intros [|c s].
  - exists EmptyString. reflexivity.
  - exists (String c s). reflexivity.
  - exists EmptyString. reflexivity.
  - destruct (IH s) as [rest Hrest]. exists rest.
    change (String c s = String c (substring 0 n s ++ rest)%string).
    rewrite <- Hrest. reflexivity.
Qed.

Lemma substring_0_all (n : nat) :
  forall s, (String.length s <= n)%nat -> substring 0 n s = s.
Proof.
  induction n as [|n IH]; intros [|c s] Hl; simpl in *; try reflexivity; try lia.
  rewrite IH; [reflexivity|lia].
Qed.

(** What [limitSize] gives for a text: its first 2048 characters. *)
Lemma limitSize_text (s : string) :
  exists b, limitSize (Some s) = Some b
            /\ String.length b = Nat.min 2048 (String.length s)
            /\ exists rest, s = (b ++ rest)%string.
Proof.
  unfold limitSize. destruct (Nat.ltb 2048 (String.length s)) eqn:Hl.
  - exists (substring 0 2048 s). split; [reflexivity|].
    split; [apply substring_0_length|apply substring_0_prefix].
  - exists s. apply Nat.ltb_ge in Hl. split; [reflexivity|].
    split; [symmetry; apply Nat.min_r; exact Hl|].
    exists EmptyString. clear Hl. induction s as [|c s IH]; [reflexivity|].
    simpl. rewrite <- IH. reflexivity.
Qed.

(** X12. [throwOnNotOK] hands back its response unless [ok] is [false]; a
    response without [ok] passes. When [ok] is [false] it throws: the
    rejection of [text()] when reading the body fails, else an error with
    the message, a [response] holding the status and the first 2048
    characters of the body (no body when there is no [text] method), and
    the caller's data, whose keys win over [message] and [response]. *)
Theorem throwOnNotOK_limits_the_body :
  forall (response : FetchResponse) (message : string) (data : option (Obj Json)),
    well_formed (or_empty data) ->
    (ok response <> Some false -> throwOnNotOK response message data = inl response)
    /\ (ok response = Some false ->
        match text response with
        | Some (Throw reason) =>
            throwOnNotOK response message data = inr (Rejection reason)
        | awaited =>
            exists error body,
              throwOnNotOK response message data = inr (NotOK error)
              /\ (forall k,
                     get error k =
                     get_or (or_empty data) k
                       (get [("message", JString message);
                             ("response",
                              JObject [("status", of_option_number (Outgoing.status response));
                                       ("body", of_option_string body)])]%string k))
              /\ match awaited, body with
                 | Some (Normal s), Some b =>
                     String.length b = Nat.min 2048 (String.length s)
                     /\ exists rest, s = (b ++ rest)%string
                 | None, None => True
                 | _, _ => False
                 end
        end).
Proof.
  intros response message data Hwf. split.
  - intros Hok. unfold throwOnNotOK.
    destruct (ok response) as [[|]|]; try reflexivity. destruct Hok. reflexivity.
  - intros Hok. unfold throwOnNotOK. rewrite Hok.
    assert (Hget : forall body k,
      get (spread [("message", JString message)]
             (spread_opt
                [("response",
                  JObject [("status", of_option_number (Outgoing.status response));
                           ("body", of_option_string body)])] data))%string k =
      get_or (or_empty data) k
        (get [("message", JString message);
              ("response",
               JObject [("status", of_option_number (Outgoing.status response));
                        ("body", of_option_string body)])]%string k)).
    { intros body k.
      set (R := JObject [("status", of_option_number (Outgoing.status response));
                         ("body", of_option_string body)]%string).
      assert (Hone : well_formed [("response"%string, R)]).
      { unfold well_formed. simpl. constructor; [intros []|constructor]. }
      destruct data as [d|]; cbn [spread_opt or_empty].
      - assert (Hwf2 : well_formed (spread [("response", R)]%string d)).
        { apply spread_well_formed. exact Hone. }
        cbn [or_empty] in Hwf.
        rewrite (get_spread _ _ _ Hwf2). unfold get_or at 1.
        rewrite (get_spread _ _ _ Hwf).
        unfold get_or. destruct (get d k); [reflexivity|].
        cbn [get]. destruct (String.eqb "response" k) eqn:Hk.
        + apply String.eqb_eq in Hk. subst k. reflexivity.
        + destruct (String.eqb "message" k); reflexivity.
      - rewrite (get_spread _ _ _ Hone). unfold get_or. cbn [get].
        destruct (String.eqb "response" k) eqn:Hk.
        + apply String.eqb_eq in Hk. subst k. reflexivity.
        + destruct (String.eqb "message" k); reflexivity. }
    destruct (text response) as [[s|reason]|].
    + destruct (limitSize_text s) as [b [Hb [Hlen Hpre]]].
      eexists. exists (Some b). rewrite Hb.
      split; [reflexivity|]. split; [apply Hget|]. split; assumption.
    + reflexivity.
    + eexists. exists None. split; [reflexivity|]. split; [apply Hget|exact I].
Qed.

Lemma throwOnNotOK_limits_the_body_witness :
  well_formed (or_empty (Some [("url", JString "/orders")]%string))
  /\ throwOnNotOK {| ok := None; Outgoing.status := Some 404; text := None |} "Failed"
       (Some [("url", JString "/orders")]%string)
     = inl {| ok := None; Outgoing.status := Some 404; text := None |}.
Proof.
  assert (Hwf : well_formed (or_empty (Some [("url", JString "/orders")]%string))).
  { unfold well_formed. simpl. constructor; [intros []|constructor]. }
  split; [exact Hwf|].
  apply (proj1 (throwOnNotOK_limits_the_body
                  {| ok := None; Outgoing.status := Some 404; text := None |} "Failed"
                  (Some [("url", JString "/orders")]%string) Hwf)).
  simpl. discriminate.
Defined.

Lemma length_append (a b : string) :
  String.length (a ++ b)%string = (String.length a + String.length b)%nat.
Proof. induction a as [|c a IH]; simpl; [reflexivity|]. rewrite IH. reflexivity. Qed.

Lemma append_colon_differs (ip port : string) : (ip ++ ":" ++ port)%string <> ip.
Proof.
  intros H. apply (f_equal String.length) in H.
  rewrite !length_append in H. simpl in H. lia.
Qed.

Lemma get_set_if (h : Obj string) (k : string) (s : option string) (k' : string) :
  get (set_if h k s) k' = if String.eqb k k' && truthy s then s else get h k'.
Proof.
  unfold set_if. destruct (truthy s) eqn:Hs.
  - rewrite get_set. destruct (String.eqb k k'); [|reflexivity].
    destruct s; [reflexivity|discriminate].
  - rewrite andb_false_r. reflexivity.
Qed.

(** The headers [httpRequestHeaders] makes, key by key. *)
Lemma forwarded_headers (context : Outgoing.Context) :
  let h := httpRequestHeaders context in
  (exists agent,
      get h "user-agent" = Some agent /\ agent <> ""%string
      /\ agent = (or_else (option_map (fun m => fst (fst m)) (meta context)) "?" +++ "/" +++
                  or_else (match meta context with
                           | Some m => snd m
                           | None => None
                           end) "?")%string)
  /\ get h "x-request-id"
     = (if truthy (operationId context) then operationId context else None)
  /\ get h "request-id" = None
  /\ get h "x-client-id"
     = match client context with
       | Some c => if truthy (Context.client_id c) then Context.client_id c else None
       | None => None
       end
  /\ get h "x-installation-id" = None
  /\ get h "client-id" = None
  /\ get h "installation-id" = None
  /\ get h "x-forwarded-for"
     = match client context with
       | Some c =>
           if truthy (Context.client_ip c) || truthy_number (Context.client_port c)
           then Some (or_else (Context.client_ip c) "" +++ ":" +++
                      or_else (option_map Number_toString (Context.client_port c)) "")
           else None
       | None => None
       end
  /\ get h "x-forwarded-for-user-agent"
     = match client context with
       | Some c =>
           if truthy (Context.client_userAgent c) then Context.client_userAgent c else None
       | None => None
       end.
Proof.
  intros h. unfold h, httpRequestHeaders.
  set (agent := (or_else (option_map (fun m0 => fst (fst m0)) (meta context)) "?" +++ "/" +++
                 or_else match meta context with
                         | Some m0 => snd m0
                         | None => None
                         end "?")%string).
  assert (Hagent : agent <> ""%string).
  { unfold agent. intros H. apply (f_equal String.length) in H.
    rewrite !length_append in H. simpl in H. lia. }
  destruct (client context) as [c|].
  - destruct (truthy (Context.client_ip c) || truthy_number (Context.client_port c));
      rewrite ?get_set_if, ?get_set, ?get_set_if; cbn [String.eqb Ascii.eqb Bool.eqb andb get];
      (split; [exists agent; split; [reflexivity|split; [exact Hagent|reflexivity]]|]);
      repeat split; reflexivity.
  - rewrite ?get_set_if; cbn [String.eqb Ascii.eqb Bool.eqb andb get].
    split; [exists agent; split; [reflexivity|split; [exact Hagent|reflexivity]]|].
    repeat split; reflexivity.
Qed.

(** X13. What a service learns of the client when it is called with the
    headers [httpRequestHeaders] makes and reads them with
    [clientFromHeaders]; a port is a safe integer. The operation id and
    the client id arrive unless they are empty. The port never arrives as
    a port: when the client has an address that is not empty or a port
    that is not zero, the address that arrives is the address sent, or the
    empty text when there is none, then a colon, then the decimal digits
    of the port, or nothing when there is none; so it is never the address
    that was sent. Otherwise no address arrives. A user agent always
    arrives: the client's when it has one that is not empty, else the
    package name of the caller, a slash and its revision, each a question
    mark when missing. *)
Theorem forwarded_client_round_trip :
  forall (context : Outgoing.Context),
    (forall c p, client context = Some c -> Context.client_port c = Some p ->
                 Z.abs p <= Context.MAX_SAFE_INTEGER) ->
    let received := clientFromHeaders (Some (httpRequestHeaders context)) in
    let package_agent :=
      (or_else (option_map (fun m => fst (fst m)) (meta context)) "?" +++ "/" +++
       or_else (match meta context with
                | Some m => snd m
                | None => None
                end) "?")%string in
    Emitter.operationId received
    = (if truthy (operationId context) then operationId context else None)
    /\ Emitter.clientPort received = None
    /\ (exists agent, Emitter.userAgent received = Some agent /\ agent <> ""%string)
    /\ match client context with
       | None =>
           Emitter.clientId received = None
           /\ Emitter.clientIp received = None
           /\ Emitter.userAgent received = Some package_agent
       | Some c =>
           Emitter.clientId received
           = (if truthy (Context.client_id c) then Context.client_id c else None)
           /\ Emitter.clientIp received
              = (if truthy (Context.client_ip c) || truthy_number (Context.client_port c)
                 then Some (or_else (Context.client_ip c) "" +++ ":" +++
                            or_else (option_map Number_toString (Context.client_port c)) "")
                 else None)%string
           /\ (forall ip, Context.client_ip c = Some ip ->
                          Emitter.clientIp received <> Some ip)
           /\ Emitter.userAgent received
              = (if truthy (Context.client_userAgent c)
                 then Context.client_userAgent c
                 else Some package_agent)
       end.
Proof.
  intros context _ received package_agent.
  destruct (forwarded_headers context)
    as [Hagent [Hrid [Hrid' [Hxc [Hxi [Hci [Hii [Hff Hfua]]]]]]]].
  unfold received, clientFromHeaders.
  cbn [Emitter.operationId Emitter.clientId Emitter.clientIp Emitter.clientPort
       Emitter.userAgent].
  rewrite Hrid, Hrid', Hxc, Hxi, Hci, Hii, Hff, Hfua.
  destruct Hagent as [agent [Hagent [Hne Hpkg]]]. rewrite Hagent in *.
  fold package_agent in Hpkg. subst agent.
  unfold nullish_or.
  split; [|split; [reflexivity|split]].
  - destruct (truthy (operationId context)) eqn:Hop; [|reflexivity].
    destruct (operationId context); [reflexivity|discriminate].
  - destruct (client context) as [c|]; [|exists package_agent; split; [reflexivity|exact Hne]].
    destruct (truthy (Context.client_userAgent c)) eqn:Hu;
      [|exists package_agent; split; [reflexivity|exact Hne]].
    destruct (Context.client_userAgent c) as [u|]; [|discriminate].
    exists u. split; [reflexivity|]. intros ->. discriminate.
  - destruct (client context) as [c|]; [|repeat split; reflexivity].
    split; [|split; [|split]].
    + destruct (truthy (Context.client_id c)) eqn:Hid; [|reflexivity].
      destruct (Context.client_id c); [reflexivity|discriminate].
    + reflexivity.
    + intros ip Hip.
      destruct (truthy (Context.client_ip c) || truthy_number (Context.client_port c));
        [|discriminate].
      rewrite Hip. cbn [or_else]. intros Heq. injection Heq as Heq.
      exact (append_colon_differs _ _ Heq).
    + destruct (truthy (Context.client_userAgent c)) eqn:Hu; [|reflexivity].
      destruct (Context.client_userAgent c); [reflexivity|discriminate].
Qed.

(** A client at 10.0.0.7, port 8080, without a user agent, calling from
    the package orders at revision r42. *)
Lemma forwarded_client_round_trip_witness :
  let context :=
    {| Outgoing.meta := Some ("orders", "index.js", Some "r42");
       Outgoing.operationId := Some "op-1";
       Outgoing.client :=
         Some {| Context.client_id := Some "alice";
                 Context.client_ip := Some "10.0.0.7";
                 Context.client_port := Some 8080;
                 Context.client_userAgent := None |} |}%string in
  (forall c p, client context = Some c -> Context.client_port c = Some p ->
               Z.abs p <= Context.MAX_SAFE_INTEGER)
  /\ Emitter.clientIp (clientFromHeaders (Some (httpRequestHeaders context)))
     = Some "10.0.0.7:8080"%string
  /\ Emitter.userAgent (clientFromHeaders (Some (httpRequestHeaders context)))
     = Some "orders/r42"%string.
Proof.
  cbv zeta.
  assert (Hport : forall c p,
             client {| Outgoing.meta := Some ("orders", "index.js", Some "r42");
                       Outgoing.operationId := Some "op-1";
                       Outgoing.client :=
                         Some {| Context.client_id := Some "alice";
                                 Context.client_ip := Some "10.0.0.7";
                                 Context.client_port := Some 8080;
                                 Context.client_userAgent := None |} |}%string = Some c ->
             Context.client_port c = Some p ->
             Z.abs p <= Context.MAX_SAFE_INTEGER).
  { intros c p Hc Hp. simpl in Hc. injection Hc as <-. simpl in Hp.
    injection Hp as <-. vm_compute. discriminate. }
  split; [exact Hport|].
  destruct (forwarded_client_round_trip _ Hport) as (_ & _ & _ & _ & Hip & _ & Hua).
  split; [exact Hip|exact Hua].
Defined.

End OutgoingFacts.

(** ** Choosing among supported values *)

Section ReflectFacts.
Import JS Outgoing Reflect.

Lemma includes_In (config : list string) (s : string) :
  includes config s = true <-> In s config.
Proof.
  unfold includes. rewrite existsb_exists. split.
  - intros [x [Hin Heq]]. apply String.eqb_eq in Heq. subst x. exact Hin.
  - intros Hin. exists s. split; [exact Hin|apply String.eqb_refl].
Qed.

Lemma selects_selectable (config : list string) (s : string) :
  includes config s && negb (includes config ("!" +++ s)) = true
  <-> selectable config s.
Proof.
  unfold selectable. rewrite andb_true_iff, negb_true_iff, includes_In.
  split; intros [H1 H2]; split; try exact H1.
  - intros Hin. apply includes_In in Hin. congruence.
  - destruct (includes config ("!" +++ s)) eqn:Hi; [|reflexivity].
    apply includes_In in Hi. contradiction.
Qed.

Lemma find_first {A} (f : A -> bool) (l : list A) (r : A) :
  find f l = Some r ->
  exists before after,
    l = before ++ r :: after /\ f r = true /\ forall s, In s before -> f s = false.
Proof.
  induction l as [|x l IH]; simpl; [discriminate|].
  destruct (f x) eqn:Hx.
  - intros H. injection H as <-. exists [], l. split; [reflexivity|].
    split; [exact Hx|intros s []].
  - intros H. destruct (IH H) as [before [after [Hl [Hr Hb]]]].
    exists (x :: before), after. split; [rewrite Hl; reflexivity|].
    split; [exact Hr|]. intros s [<-|Hs]; [exact Hx|exact (Hb s Hs)].
Qed.

Lemma find_nothing {A} (f : A -> bool) (l : list A) :
  (forall s, In s l -> f s = false) -> find f l = None.
Proof.
  induction l as [|x l IH]; simpl; intros H; [reflexivity|].
  rewrite (H x (or_introl eq_refl)). apply IH. intros s Hs. apply H. right. exact Hs.
Qed.

Lemma resolve_first (config : option (list string)) (supported : list string) (r : string) :
  resolve config supported = Some r -> first_selectable config supported r.
Proof.
  unfold resolve, first_selectable. destruct config as [c|].
  - intros H. destruct (find_first _ _ _ H) as [before [after [Hl [Hr Hb]]]].
    exists before, after. split; [exact Hl|]. split.
    + apply selects_selectable. exact Hr.
    + intros s Hs Hsel. apply selects_selectable in Hsel.
      rewrite (Hb s Hs) in Hsel. discriminate.
  - destruct supported as [|x l]; simpl; [discriminate|].
    intros H. injection H as <-. exists [], l. split; reflexivity.
Qed.

Lemma resolve_nothing (c : list string) (supported : list string) :
  (forall s, In s supported -> ~ selectable c s) -> resolve (Some c) supported = None.
Proof.
  intros H. unfold resolve. apply find_nothing. intros s Hs.
  destruct (includes c s && negb (includes c ("!" +++ s))) eqn:Hsel; [|reflexivity].
  apply selects_selectable in Hsel. destruct (H s Hs Hsel).
Qed.

Lemma find_at {A} (f : A -> bool) (before after : list A) (r : A) :
  f r = true -> (forall s, In s before -> f s = false) ->
  find f (before ++ r :: after) = Some r.
Proof.
  intros Hr. induction before as [|x before IH]; intros Hb; simpl.
  - rewrite Hr. reflexivity.
  - rewrite (Hb x (or_introl eq_refl)). apply IH. intros s Hs. apply Hb. right. exact Hs.
Qed.

Lemma first_resolve (config : option (list string)) (supported : list string) (r : string) :
  first_selectable config supported r -> resolve config supported = Some r.
Proof.
  unfold resolve, first_selectable. intros [before [after [Hl Hsel]]]. subst supported.
  destruct config as [c|].
  - destruct Hsel as [Hr Hb]. apply find_at.
    + apply selects_selectable. exact Hr.
    + intros s Hs.
      destruct (includes c s && negb (includes c ("!" +++ s))) eqn:Hf; [|reflexivity].
      apply selects_selectable in Hf. destruct (Hb s Hs Hf).
  - subst before. reflexivity.
Qed.

(** What the two callers of [resolve] have in common. *)
Lemma resolved_or_throw_outcome (config : option (list string))
    (supported : list string) (prefix : string) :
  let result := resolved_or_throw (resolve config supported) prefix config in
  (forall r, result = inl r <-> r <> ""%string /\ first_selectable config supported r)
  /\ (forall c, config = Some c ->
                (forall r, first_selectable config supported r -> r = ""%string) ->
                result = inr (Unsupported (prefix +++ join ", " c)))
  /\ (config = None ->
      (forall r, first_selectable config supported r -> r = ""%string) ->
      result = inr TypeError).
Proof.
  intros result. unfold result, resolved_or_throw. split; [|split].
  - intros r. split.
    + destruct (resolve config supported) as [x|] eqn:Hres; cbn [truthy or_else].
      * destruct (String.eqb x "") eqn:Hx; cbn [negb].
        -- destruct config; discriminate.
        -- intros H. injection H as <-. split.
           ++ intros ->. discriminate.
           ++ apply resolve_first. exact Hres.
      * destruct config; discriminate.
    + intros [Hne Hfirst]. rewrite (first_resolve _ _ _ Hfirst). cbn [truthy or_else].
      destruct (String.eqb r "") eqn:Hr; [|reflexivity].
      apply String.eqb_eq in Hr. contradiction.
  - intros c Hc Hnone.
    destruct (resolve config supported) as [x|] eqn:Hres; cbn [truthy].
    + rewrite (Hnone x (resolve_first _ _ _ Hres)). rewrite Hc. reflexivity.
    + rewrite Hc. reflexivity.
  - intros Hc Hnone.
    destruct (resolve config supported) as [x|] eqn:Hres; cbn [truthy].
    + rewrite (Hnone x (resolve_first _ _ _ Hres)). rewrite Hc. reflexivity.
    + rewrite Hc. reflexivity.
Qed.

(** X14. [resolveCpu] and [resolveOS] return a value exactly when a
    supported value is selected and it is not the empty text, and they
    return that value: the first supported value that the configuration
    lists and does not exclude, and with no configuration the first
    supported value. In every other case they throw. With a configuration
    the error names the whole configuration; a configuration made of
    exclusions only selects nothing, so it always ends in that error.
    With no configuration the error is the [TypeError] of joining
    [undefined]. *)
Theorem resolve_selects_first_listed_value :
  forall (config : PackageJsonConfiguration) (supported : list string),
    let outcome (wanted : option (list string)) (prefix : string)
                (result : string + Failure) :=
      (forall r, result = inl r <->
                 r <> ""%string /\ first_selectable wanted supported r)
      /\ (forall c, wanted = Some c ->
                    (forall r, first_selectable wanted supported r -> r = ""%string) ->
                    result = inr (Unsupported (prefix +++ join ", " c)))
      /\ (forall c, wanted = Some c ->
                    (forall s, In s supported -> ~ selectable c s) ->
                    result = inr (Unsupported (prefix +++ join ", " c)))
      /\ (forall c, wanted = Some c ->
                    (forall x, In x c -> exists y, x = "!" +++ y) ->
                    (forall s y, In s supported -> s <> "!" +++ y) ->
                    result = inr (Unsupported (prefix +++ join ", " c)))
      /\ (wanted = None ->
          (forall r, first_selectable wanted supported r -> r = ""%string) ->
          result = inr TypeError)
      /\ (wanted = None -> supported = [] -> result = inr TypeError) in
    outcome (cpus config) "Unsupported CPUs: "%string (resolveCpu config supported)
    /\ outcome (os config) "Unsupported operating systems: "%string
         (resolveOS config supported).
Proof.
  intros config supported outcome.
  assert (Hall : forall wanted prefix,
             outcome wanted prefix
               (resolved_or_throw (resolve wanted supported) prefix wanted)).
  { intros wanted prefix.
    destruct (resolved_or_throw_outcome wanted supported prefix) as [H1 [H2 H3]].
    assert (Hnone : forall c, wanted = Some c ->
               (forall s, In s supported -> ~ selectable c s) ->
               resolved_or_throw (resolve wanted supported) prefix wanted
               = inr (Unsupported (prefix +++ join ", " c))).
    { intros c Hc Hno. apply (H2 c Hc). intros r [before [after [Hl Hsel]]].
      rewrite Hc in Hsel. destruct Hsel as [Hr _].
      exfalso. apply (Hno r); [|exact Hr].
      rewrite Hl. apply in_or_app. right. left. reflexivity. }
    unfold outcome. split; [exact H1|]. split; [exact H2|]. split; [exact Hnone|].
    split; [|split; [exact H3|]].
    - intros c Hc Hexcl Hplain. apply (Hnone c Hc).
      intros s Hs [Hin _]. destruct (Hexcl s Hin) as [y Hy].
      exact (Hplain s y Hs Hy).
    - intros Hc Hs. apply (H3 Hc). intros r [before [after [Hl _]]].
      rewrite Hs in Hl. destruct before; discriminate. }
  split; apply Hall.
Qed.

(** A package that lists two CPUs and excludes one of them gets the
    other; a package that only excludes gets the error. *)
Lemma resolve_selects_first_listed_value_witness :
  Reflect.resolveCpu
    {| Reflect.nodeVersion := None;
       Reflect.cpus := Some ["x64"; "arm"; "!arm"]%string;
       Reflect.os := None |} ["arm"; "x64"]%string
  = inl "x64"%string
  /\ Reflect.resolveCpu Served.without_arm ["arm"; "x64"]%string
     = inr (Reflect.Unsupported "Unsupported CPUs: !arm").
Proof.
  split.
  - destruct (resolve_selects_first_listed_value
                {| Reflect.nodeVersion := None;
                   Reflect.cpus := Some ["x64"; "arm"; "!arm"]%string;
                   Reflect.os := None |} ["arm"; "x64"]%string)
      as [[Hvalue _] _].
    apply Hvalue. split; [discriminate|].
    exists ["arm"%string], []. split; [reflexivity|]. split.
    + split; [left; reflexivity|].
      intros [H|[H|[H|[]]]]; discriminate.
    + intros s [<-|[]] [_ Hnot]. apply Hnot. right. right. left. reflexivity.
  - destruct (resolve_selects_first_listed_value Served.without_arm ["arm"; "x64"]%string)
      as [[_ [_ [_ [Hexcluded _]]]] _].
    apply (Hexcluded ["!arm"]%string).
    + reflexivity.
    + intros x [<-|[]]. exists "arm"%string. reflexivity.
    + intros s y [<-|[<-|[]]]; discriminate.
Defined.

End ReflectFacts.

(** ** From a handler's result to a response *)

Section ResponseFacts.
Import JS Outgoing Http.

Lemma JSON_stringify_defined (j : Json) :
  j <> JUndefined -> exists s, JSON_stringify j = Some s.
Proof.
  destruct j; intros Hj; try (eexists; reflexivity). destruct Hj. reflexivity.
Qed.

Lemma withContentType_type (h : option (Obj string)) (contentType : string) :
  contentType <> ""%string ->
  exists given,
    get (withContentType h contentType) "content-type" = Some given
    /\ given <> ""%string
    /\ (forall kept, match h with
                     | Some o => get o "content-type" = Some kept
                     | None => False
                     end -> kept <> ""%string -> given = kept)
    /\ ((match h with
         | Some o => truthy (get o "content-type")
         | None => false
         end) = false -> given = contentType).
Proof.
  intros Hct. unfold withContentType. destruct h as [o|].
  - destruct (truthy (get o "content-type")) eqn:Ht.
    + destruct (get o "content-type") as [c|] eqn:Hc; [|discriminate].
      exists c. split; [reflexivity|]. split.
      * intros ->. discriminate.
      * split; [|discriminate]. intros kept Hk _. congruence.
    + exists contentType. split; [apply get_set_same|]. split; [exact Hct|].
      split; [|reflexivity]. intros kept Hk Hne. rewrite Hk in Ht.
      simpl in Ht. destruct (String.eqb kept "") eqn:He; [|discriminate].
      apply String.eqb_eq in He. contradiction.
  - exists contentType. split; [reflexivity|]. split; [exact Hct|].
    split; [intros kept []|reflexivity].
Qed.

Lemma withContentType_others (h : option (Obj string)) (contentType k : string) :
  k <> "content-type"%string ->
  get (withContentType h contentType) k = match h with
                                          | Some o => get o k
                                          | None => None
                                          end.
Proof.
  intros Hk. unfold withContentType. destruct h as [o|].
  - destruct (truthy (get o "content-type")); [reflexivity|].
    apply get_set_other. intros Heq. apply Hk. symmetry. exact Heq.
  - cbn [get]. destruct (String.eqb "content-type" k) eqn:He; [|reflexivity].
    apply String.eqb_eq in He. destruct Hk. symmetry. exact He.
Qed.

(** X15. The response [resultToResponse] makes of what a handler
    returned. It has no body exactly when the handler returned nothing,
    the empty string, or a result whose body is undefined; status 204 is
    given to the first two only, a result with undefined body and no
    status gets 200 like any other. A result's status and headers are
    kept, a response with a body always names a content type, and the
    handler's own content type is kept unless it is empty. Nothing of the
    body is kept for the log when logging of bodies is off. *)
Theorem resultToResponse_keeps_what_the_handler_set :
  forall (result : Result) (withLogBody : bool),
    let response := resultToResponse result withLogBody in
    (body response = None
     <-> result = Void \/ result = Str ""
         \/ exists r, result = Full r /\ result_body r = Plain JUndefined)
    /\ (withLogBody = false -> logBody response = JUndefined)
    /\ (body response <> None ->
        exists given, get (headers response) "content-type" = Some given
                      /\ given <> ""%string)
    /\ match result with
       | Void => response = bodyless [] 204
       | Str s =>
           (s = ""%string -> response = bodyless [] 204)
           /\ (s <> ""%string ->
               status response = 200 /\ body response = Some (Text s))
       | Full r =>
           status response = match result_status r with
                             | Some s => s
                             | None => 200
                             end
           /\ (forall k, k <> "content-type"%string ->
                         get (headers response) k
                         = match result_headers r with
                           | Some h => get h k
                           | None => None
                           end)
           /\ (forall h kept, result_headers r = Some h ->
                              get h "content-type" = Some kept ->
                              kept <> ""%string ->
                              get (headers response) "content-type" = Some kept)
       end.
Proof.
  intros result withLogBody response. unfold response.
  destruct result as [|s|r].
  - simpl. split; [split; [intros _; left; reflexivity|reflexivity]|].
    split; [reflexivity|]. split; [intros H; destruct H; reflexivity|reflexivity].
  - cbn [resultToResponse]. destruct (String.eqb s "") eqn:Hs.
    + apply String.eqb_eq in Hs. subst s. simpl.
      split; [split; [intros _; right; left; reflexivity|reflexivity]|].
      split; [reflexivity|]. split; [intros H; destruct H; reflexivity|].
      split; [reflexivity|]. intros H. destruct H. reflexivity.
    + assert (Hne : s <> ""%string).
      { intros ->. discriminate. }
      simpl. split.
      * split; [discriminate|].
        intros [H|[H|[r [H _]]]]; try discriminate. injection H as ->. destruct Hne. reflexivity.
      * split; [intros ->; reflexivity|].
        split; [intros _; eexists; split; [reflexivity|discriminate]|].
        split; [intros ->; destruct Hne; reflexivity|]. intros _. split; reflexivity.
  - cbn [resultToResponse].
    assert (Hkinds : forall ct, ct <> ""%string ->
              (exists given,
                  get (withContentType (result_headers r) ct) "content-type" = Some given
                  /\ given <> ""%string)
              /\ (forall k, k <> "content-type"%string ->
                            get (withContentType (result_headers r) ct) k
                            = match result_headers r with
                              | Some h => get h k
                              | None => None
                              end)
              /\ (forall h kept, result_headers r = Some h ->
                                 get h "content-type" = Some kept ->
                                 kept <> ""%string ->
                                 get (withContentType (result_headers r) ct) "content-type"
                                 = Some kept)).
    { intros ct Hct.
      destruct (withContentType_type (result_headers r) ct Hct)
        as [given [Hg [Hgne [Hkept _]]]].
      split; [exists given; split; assumption|].
      split; [intros k Hk; apply withContentType_others; exact Hk|].
      intros h kept Hrh Hk Hne. rewrite Hg. f_equal. apply Hkept; [|exact Hne].
      rewrite Hrh. exact Hk. }
    assert (Hfull : forall ct b lb enc,
              ct <> ""%string ->
              result_body r <> Plain JUndefined ->
              let response :=
                {| headers := withContentType (result_headers r) ct;
                   status := status_or (result_status r) 200;
                   body := Some b;
                   isBase64Encoded := enc;
                   logBody := if withLogBody then lb else JUndefined |} in
              (body response = None
               <-> Full r = Void \/ Full r = Str ""
                   \/ exists r0, Full r = Full r0 /\ result_body r0 = Plain JUndefined)
              /\ (withLogBody = false -> logBody response = JUndefined)
              /\ (body response <> None ->
                  exists given, get (headers response) "content-type" = Some given
                                /\ given <> ""%string)
              /\ status response = match result_status r with
                                   | Some s => s
                                   | None => 200
                                   end
              /\ (forall k, k <> "content-type"%string ->
                            get (headers response) k
                            = match result_headers r with
                              | Some h => get h k
                              | None => None
                              end)
              /\ (forall h kept, result_headers r = Some h ->
                                 get h "content-type" = Some kept ->
                                 kept <> ""%string ->
                                 get (headers response) "content-type" = Some kept)).
    { intros ct b lb enc Hct Hdef resp. unfold resp.
      cbn [headers status body logBody].
      destruct (Hkinds ct Hct) as [Hgiven [Hothers Hkept]].
      split.
      - split; [discriminate|].
        intros [H|[H|[r0 [H H0]]]]; try discriminate.
        injection H as <-. contradiction.
      - split; [intros ->; reflexivity|]. split; [intros _; exact Hgiven|].
        split; [reflexivity|]. split; [exact Hothers|exact Hkept]. }
    destruct (result_body r) as [j|bytes] eqn:Hb.
    + destruct j as [| |b|n|s|items|props]; cbv iota.
      * simpl. split.
        -- split; [intros _; right; right; exists r; split; [reflexivity|exact Hb]|reflexivity].
        -- split; [reflexivity|]. split; [intros H; destruct H; reflexivity|].
           split; [reflexivity|].
           split; [intros k _; destruct (result_headers r); reflexivity|].
           intros h kept Hrh Hk _. rewrite Hrh. exact Hk.
      * destruct (JSON_stringify_defined JNull ltac:(discriminate)) as [text Htext].
        rewrite Htext. apply Hfull; discriminate.
      * destruct (JSON_stringify_defined (JBool b) ltac:(discriminate)) as [text Htext].
        rewrite Htext. apply Hfull; discriminate.
      * destruct (JSON_stringify_defined (JNumber n) ltac:(discriminate)) as [text Htext].
        rewrite Htext. apply Hfull; discriminate.
      * apply Hfull; discriminate.
      * destruct (JSON_stringify_defined (JArray items) ltac:(discriminate)) as [text Htext].
        rewrite Htext. apply Hfull; discriminate.
      * destruct (JSON_stringify_defined (JObject props) ltac:(discriminate)) as [text Htext].
        rewrite Htext. apply Hfull; discriminate.
    + cbv iota. apply Hfull; discriminate.
Qed.

(** X16. [withoutRequestBody] takes away the body [requestBody] reads,
    and nothing else, when the options hold one body. When they hold both
    a [json] and a string [body], the handler is given the [json], only
    the [json] is taken away, and the string [body] is what stays for the
    log. *)
Theorem withoutRequestBody_takes_one_body_away :
  forall (options : RequestOptions),
    let stripped := withoutRequestBody options in
    uri stripped = uri options
    /\ options_headers stripped = options_headers options
    /\ (requestBody stripped = JUndefined
        <-> hasJsonBody options && hasStringBody options = false)
    /\ (hasJsonBody options = true ->
        requestBody options = json options
        /\ json stripped = JUndefined
        /\ options_body stripped = options_body options)
    /\ (hasJsonBody options = false -> hasStringBody options = true ->
        requestBody options = of_option_string (options_body options)
        /\ options_body stripped = None)
    /\ (hasJsonBody options = false -> hasStringBody options = false ->
        requestBody options = JUndefined /\ stripped = options).
Proof.
  intros [u h b j] stripped. unfold stripped, withoutRequestBody, requestBody.
  destruct j, b; simpl; repeat split; try reflexivity; try discriminate;
    try (intros H; discriminate).
Qed.

End ResponseFacts.

(** ** Serving a request *)

Section RequestFacts.
Import JS Outgoing Http.

Lemma status_timed_out (aborted : bool) (response : Response) :
  status (if aborted then timed_out response else response) = status response.
Proof. destruct aborted; reflexivity. Qed.

(** How [executeRequest] ends after it has caught [e]; [before] is what
    it did until then. *)
Lemma errorToResponse_status (b : Json) (statusCode : option Z) :
  exists response,
    errorToResponse (Carrying b statusCode) = Some response
    /\ status response = status_or statusCode 500
    /\ get (headers response) "x-timeout" = None.
Proof.
  destruct b; eexists; (split; [reflexivity|split; reflexivity]).
Qed.

(** [executeRequest] case by case. *)
Lemma executeRequest_cases (key : option string) (aborted : bool) (handler : HttpHandler)
    (options : RequestOptions) (success : Outcome unit) (rethrow : bool) :
  let req := request_of options in
  let begun := [Logged MTrace "Request BEGIN"; Entered req;
                Logged MTrace "Measurement of execution time"]%string in
  let caught (before : list Event) (e : Thrown) : Run Response :=
    match errorToResponse e with
    | Some response =>
        (before ++ [Logged MError "Request END"]%string,
         if rethrow && (status response =? 500) then Throws e else Returns response)
    | None =>
        (before ++ [Logged MError "Could not convert exception to error response."]%string,
         Returns (bodyless [] 500))
    end in
  executeRequest key aborted handler options success rethrow =
  if isShallow key options
  then ([Logged MTrace "Shallow request"]%string, Returns (bodyless [] 204))
  else match entry handler req with
       | Returns result =>
           let made := resultToResponse result (includeBodyInLogs handler) in
           let response := if aborted then timed_out made else made in
           if status made <? 300 then
             match success with
             | Returns _ =>
                 (begun ++ [Logged MDebug "Request END"; Succeeded]%string, Returns response)
             | Throws e =>
                 caught (begun ++ [Logged MDebug "Request END"; Succeeded]%string) e
             end
           else (begun ++ [Logged MWarn "Request END"]%string, Returns response)
       | Throws e => caught begun e
       end.
Proof.
  intros req begun caught. unfold executeRequest.
  destruct (isShallow key options); [reflexivity|].
  fold req. unfold measure, try_finally, call, log, bind, try_catch, ret, raise.
  destruct (entry handler req) as [result|e]; cbn [fst snd app].
  - rewrite status_timed_out.
    destruct (status (resultToResponse result (includeBodyInLogs handler)) <? 300).
    + destruct success as [u|e]; cbn [fst snd app]; [reflexivity|].
      unfold caught. destruct (errorToResponse e) as [response|]; [|reflexivity].
      destruct rethrow; destruct (status response =? 500); reflexivity.
    + reflexivity.
  - unfold caught. destruct (errorToResponse e) as [response|]; [|reflexivity].
    destruct rethrow; destruct (status response =? 500); reflexivity.
Qed.

(** What the [catch] clause of [executeRequest] answers. *)
Lemma caught_outcome (e : Thrown) (rethrow : bool) :
  match e with
  | Nullish => errorToResponse e = None
  | Carrying b statusCode =>
      exists response,
        errorToResponse e = Some response
        /\ status response = status_or statusCode 500
        /\ get (headers response) "x-timeout" = None
  end.
Proof.
  destruct e as [|b statusCode]; [reflexivity|apply errorToResponse_status].
Qed.

(** X17. When [executeRequest] throws. A request fails when the handler
    throws, or when the handler returns a status below 300 and [success]
    throws. Without [rethrow] it always answers a response. With
    [rethrow] it throws the value that failed the request exactly when
    that value has no [statusCode] or the [statusCode] 500; any other
    [statusCode] is answered as the status of a response, and a thrown
    [undefined] or [null] is answered with a bare 500 even then. Whenever
    a failed request is answered, the response is the one
    [errorToResponse] makes of the value, its status is the [statusCode]
    or else 500, and it never carries [x-timeout], whether or not the
    signal is aborted. What is logged and called does not depend on
    [rethrow]. *)
Theorem executeRequest_rethrows_only_status_500 :
  forall (key : option string) (aborted : bool) (handler : HttpHandler)
         (options : RequestOptions) (success : Outcome unit),
    let run rethrow := executeRequest key aborted handler options success rethrow in
    let failed e :=
      isShallow key options = false
      /\ (entry handler (request_of options) = Throws e
          \/ exists result,
               entry handler (request_of options) = Returns result
               /\ status (resultToResponse result (includeBodyInLogs handler)) < 300
               /\ success = Throws e) in
    (exists response, snd (run false) = Returns response)
    /\ (forall e, snd (run true) = Throws e
                  <-> failed e
                      /\ exists b, e = Carrying b None \/ e = Carrying b (Some 500))
    /\ (failed Nullish -> forall rethrow, snd (run rethrow) = Returns (bodyless [] 500))
    /\ (forall b statusCode rethrow,
           failed (Carrying b statusCode) ->
           (rethrow = false \/ exists code, statusCode = Some code /\ code <> 500) ->
           exists response,
             snd (run rethrow) = Returns response
             /\ errorToResponse (Carrying b statusCode) = Some response
             /\ status response = status_or statusCode 500
             /\ get (headers response) "x-timeout" = None)
    /\ (forall e rethrow response,
           failed e -> snd (run rethrow) = Returns response ->
           get (headers response) "x-timeout" = None)
    /\ fst (run true) = fst (run false).
Proof.
  intros key aborted handler options success run failed.
  assert (Hcaught : forall before e rethrow,
            let answer : Run Response :=
              match errorToResponse e with
              | Some response =>
                  (before ++ [Logged MError "Request END"]%string,
                   if rethrow && (status response =? 500) then Throws e
                   else Returns response)
              | None =>
                  (before ++ [Logged MError
                                "Could not convert exception to error response."]%string,
                   Returns (bodyless [] 500))
              end in
            (rethrow = false -> exists response, snd answer = Returns response)
            /\ (forall e', rethrow = true ->
                           (snd answer = Throws e'
                            <-> e' = e /\ exists b, e = Carrying b None
                                                    \/ e = Carrying b (Some 500)))
            /\ (e = Nullish -> snd answer = Returns (bodyless [] 500))
            /\ (forall b statusCode, e = Carrying b statusCode ->
                  (rethrow = false \/ exists code, statusCode = Some code /\ code <> 500) ->
                  exists response,
                    snd answer = Returns response
                    /\ errorToResponse e = Some response
                    /\ status response = status_or statusCode 500
                    /\ get (headers response) "x-timeout" = None)
            /\ (forall response, snd answer = Returns response ->
                                 get (headers response) "x-timeout" = None)
            /\ fst answer = fst (match errorToResponse e with
                                 | Some response =>
                                     (before ++ [Logged MError "Request END"]%string,
                                      @Returns Response response)
                                 | None =>
                                     (before ++ [Logged MError
                                        "Could not convert exception to error response."]%string,
                                      Returns (bodyless [] 500))
                                 end)).
  { intros before e rethrow answer. unfold answer.
    pose proof (caught_outcome e rethrow) as Hc. destruct e as [|b statusCode].
    - rewrite Hc. cbn [fst snd].
      split; [intros _; eexists; reflexivity|].
      split; [intros e' _; split; [discriminate|intros [_ [b [H|H]]]; discriminate]|].
      split; [reflexivity|]. split; [discriminate|].
      split; [intros response H; injection H as <-; reflexivity|reflexivity].
    - destruct Hc as [response [He [Hs Ht]]]. rewrite He. cbn [fst snd].
      split; [intros ->; eexists; reflexivity|].
      split.
      + intros e' ->. cbn [andb]. rewrite Hs.
        destruct statusCode as [code|]; cbn [status_or].
        * destruct (code =? 500) eqn:Hcode.
          -- apply Z.eqb_eq in Hcode. subst code.
             split; [intros H; injection H as <-; split; [reflexivity|]; exists b; right;
                     reflexivity|intros [-> _]; reflexivity].
          -- apply Z.eqb_neq in Hcode.
             split; [discriminate|]. intros [_ [b' [H|H]]]; [discriminate|].
             injection H as _ H. destruct Hcode. exact H.
        * split; [intros H; injection H as <-; split; [reflexivity|]; exists b; left;
                  reflexivity|intros [-> _]; reflexivity].
      + split; [discriminate|]. split; [|split; [|reflexivity]].
        * intros b' sc H Hcond. injection H as <- <-. exists response.
          assert (Hkeep : rethrow && (status response =? 500) = false).
          { destruct Hcond as [->|[code [-> Hcode]]]; [reflexivity|].
            rewrite Hs. cbn [status_or]. apply Z.eqb_neq in Hcode.
            rewrite Hcode. apply andb_false_r. }
          rewrite Hkeep. repeat split; first [exact He|exact Ht|exact Hs|reflexivity].
        * intros response' H.
          destruct (rethrow && (status response =? 500)); [discriminate|].
          injection H as <-. exact Ht. }
  assert (Hrun : forall rethrow,
            run rethrow = executeRequest key aborted handler options success rethrow)
    by reflexivity.
  pose proof (fun rethrow =>
                executeRequest_cases key aborted handler options success rethrow) as Hcases.
  cbv zeta in Hcases.
  assert (Hfailed : forall e, failed e <->
            isShallow key options = false
            /\ (entry handler (request_of options) = Throws e
                \/ exists result,
                     entry handler (request_of options) = Returns result
                     /\ status (resultToResponse result (includeBodyInLogs handler)) < 300
                     /\ success = Throws e)) by (intros e; reflexivity).
  destruct (isShallow key options) eqn:Hshallow.
  { split; [eexists; rewrite Hrun, Hcases; reflexivity|].
    split; [intros e; rewrite Hrun, Hcases; split;
            [discriminate|intros [[H _] _]; discriminate]|].
    split; [intros [H _]; discriminate|].
    split; [intros b sc rethrow [H _]; discriminate|].
    split; [intros e rethrow response [H _]; discriminate|].
    rewrite !Hrun, !Hcases. reflexivity. }
  destruct (entry handler (request_of options)) as [result|thrown] eqn:Hentry.
  - destruct (status (resultToResponse result (includeBodyInLogs handler)) <? 300) eqn:Hlow.
    + destruct success as [u|thrown].
      * split; [eexists; rewrite Hrun, Hcases; reflexivity|].
        split; [intros e; rewrite Hrun, Hcases; split;
                [discriminate|intros [[_ [H|[r [_ [_ H]]]]] _]; discriminate]|].
        split; [intros [_ [H|[r [_ [_ H]]]]]; discriminate|].
        split; [intros b sc rethrow [_ [H|[r [_ [_ H]]]]]; discriminate|].
        split; [intros e rethrow response [_ [H|[r [_ [_ H]]]]]; discriminate|].
        rewrite !Hrun, !Hcases. reflexivity.
      * set (before := app [Logged MTrace "Request BEGIN"; Entered (request_of options);
                            Logged MTrace "Measurement of execution time"]%string
                           [Logged MDebug "Request END"; Succeeded]%string) in *.
        assert (Hfail : forall e, failed e <-> e = thrown).
        { intros e. rewrite Hfailed. split.
          - intros [_ [H|[r [_ [_ H]]]]]; [discriminate|]. injection H as <-. reflexivity.
          - intros ->. split; [reflexivity|]. right. exists result.
            split; [reflexivity|]. split; [apply Z.ltb_lt; exact Hlow|reflexivity]. }
        split; [rewrite Hrun, Hcases;
                exact (proj1 (Hcaught before thrown false) eq_refl)|].
        split; [intros e; rewrite Hrun, Hcases, Hfail;
                rewrite (proj1 (proj2 (Hcaught before thrown true)) e eq_refl);
                split; intros [-> [b Hb]]; (split; [reflexivity|exists b; exact Hb])|].
        split; [intros Hn rethrow; apply Hfail in Hn; rewrite Hrun, Hcases;
                exact (proj1 (proj2 (proj2 (Hcaught before thrown rethrow)))
                         (eq_sym Hn))|].
        split; [intros b sc rethrow Hf Hcond; apply Hfail in Hf; rewrite Hrun, Hcases;
                rewrite Hf;
                exact (proj1 (proj2 (proj2 (proj2 (Hcaught before thrown rethrow))))
                         b sc (eq_sym Hf) Hcond)|].
        split; [intros e rethrow response _; rewrite Hrun, Hcases;
                exact (proj1 (proj2 (proj2 (proj2 (proj2 (Hcaught before thrown rethrow)))))
                         response)|].
        rewrite !Hrun, !Hcases.
        rewrite (proj2 (proj2 (proj2 (proj2 (proj2 (Hcaught before thrown true)))))).
        rewrite (proj2 (proj2 (proj2 (proj2 (proj2 (Hcaught before thrown false)))))).
        reflexivity.
    + assert (Hnot : forall e, ~ failed e).
      { intros e Hf. apply Hfailed in Hf. destruct Hf as [_ [H|[r [H [Hr _]]]]];
          [discriminate|].
        injection H as <-. apply Z.ltb_ge in Hlow. lia. }
      split; [eexists; rewrite Hrun, Hcases; reflexivity|].
      split; [intros e; rewrite Hrun, Hcases; split;
              [discriminate|intros [Hf _]; destruct (Hnot _ Hf)]|].
      split; [intros Hf; destruct (Hnot _ Hf)|].
      split; [intros b sc rethrow Hf; destruct (Hnot _ Hf)|].
      split; [intros e rethrow response Hf; destruct (Hnot _ Hf)|].
      rewrite !Hrun, !Hcases. reflexivity.
  - set (before := [Logged MTrace "Request BEGIN"; Entered (request_of options);
                    Logged MTrace "Measurement of execution time"]%string) in *.
    assert (Hfail : forall e, failed e <-> e = thrown).
    { intros e. rewrite Hfailed. split.
      - intros [_ [H|[r [H _]]]]; [|discriminate]. injection H as <-. reflexivity.
      - intros ->. split; [reflexivity|]. left. reflexivity. }
    split; [rewrite Hrun, Hcases;
            exact (proj1 (Hcaught before thrown false) eq_refl)|].
    split; [intros e; rewrite Hrun, Hcases, Hfail;
            rewrite (proj1 (proj2 (Hcaught before thrown true)) e eq_refl);
            split; intros [-> [b Hb]]; (split; [reflexivity|exists b; exact Hb])|].
    split; [intros Hn rethrow; apply Hfail in Hn; rewrite Hrun, Hcases;
            exact (proj1 (proj2 (proj2 (Hcaught before thrown rethrow)))
                     (eq_sym Hn))|].
    split; [intros b sc rethrow Hf Hcond; apply Hfail in Hf; rewrite Hrun, Hcases;
            rewrite Hf;
            exact (proj1 (proj2 (proj2 (proj2 (Hcaught before thrown rethrow))))
                     b sc (eq_sym Hf) Hcond)|].
    split; [intros e rethrow response _; rewrite Hrun, Hcases;
            exact (proj1 (proj2 (proj2 (proj2 (proj2 (Hcaught before thrown rethrow)))))
                     response)|].
    rewrite !Hrun, !Hcases.
    rewrite (proj2 (proj2 (proj2 (proj2 (proj2 (Hcaught before thrown true)))))).
    rewrite (proj2 (proj2 (proj2 (proj2 (proj2 (Hcaught before thrown false)))))).
    reflexivity.
Qed.

(** With an aborted signal: a handler that throws 404 is answered 404
    also under [rethrow]; a handler that throws an error without
    [statusCode] makes [executeRequest] throw it under [rethrow], and is
    answered 500 without [x-timeout] otherwise. *)
Lemma executeRequest_rethrows_only_status_500_witness :
  (exists response,
      snd (Http.executeRequest None true Served.not_found Served.plain_request
             (Http.Returns tt) true) = Http.Returns response
      /\ Http.status response = 404)
  /\ snd (Http.executeRequest None true Served.broken Served.plain_request
            (Http.Returns tt) true) = Http.Throws (Http.Carrying JUndefined None)
  /\ (exists response,
         snd (Http.executeRequest None true Served.broken Served.plain_request
                (Http.Returns tt) false) = Http.Returns response
         /\ Http.status response = 500
         /\ get (Http.headers response) "x-timeout" = None).
Proof.
  split; [|split].
  - destruct (executeRequest_rethrows_only_status_500 None true Served.not_found
                Served.plain_request (Http.Returns tt)) as [_ [_ [_ [Hother _]]]].
    destruct (Hother (JString "missing") (Some 404) true) as [response [Hr [_ [Hs _]]]].
    + split; [reflexivity|]. left. reflexivity.
    + right. exists 404. split; [reflexivity|discriminate].
    + exists response. split; [exact Hr|exact Hs].
  - destruct (executeRequest_rethrows_only_status_500 None true Served.broken
                Served.plain_request (Http.Returns tt)) as [_ [Hthrows _]].
    apply Hthrows. split.
    + split; [reflexivity|]. left. reflexivity.
    + exists JUndefined. left. reflexivity.
  - destruct (executeRequest_rethrows_only_status_500 None true Served.broken
                Served.plain_request (Http.Returns tt)) as [_ [_ [_ [Hother _]]]].
    destruct (Hother JUndefined None false) as [response [Hr [_ [Hs Ht]]]].
    + split; [reflexivity|]. left. reflexivity.
    + left. reflexivity.
    + exists response. split; [exact Hr|]. split; [exact Hs|exact Ht].
Defined.


End RequestFacts.

(** ** The registry of handlers *)

Section RegistryFacts.
Import JS Accounting Records Registry Api.

Lemma getHandlers_addHandler (h : HttpHandler) (s : State) :
  getHandlers "http" (addHandler "http" h s) = getHandlers "http" s ++ [h].
Proof.
  unfold getHandlers, addHandler. cbn [handlers]. rewrite get_set_same. reflexivity.
Qed.

(** One call for a route, in any state. *)
Lemma route_effect (m : Method) (path : string) (configOrHandler : Obj Json + Handler)
    (fn : option Handler) (s : State) :
  let after := route m path configOrHandler fn s in
  metadata (fst after) = metadata s
  /\ console (fst after)
     = console s ++ ["Register " +++ method_name m +++ " handler " +++ path]
  /\ (accepted (Route m path configOrHandler fn) = false ->
      snd after = Throw "Please provide a handler function."
      /\ getHandlers "http" (fst after) = getHandlers "http" s)
  /\ (accepted (Route m path configOrHandler fn) = true ->
      snd after = Normal tt
      /\ getHandlers "http" (fst after)
         = getHandlers "http" s
           ++ [{| handler_meta := metadata s;
                  handler_config :=
                    combineConfig (match metadata s with
                                   | Some md => config md
                                   | None => None
                                   end)
                      (match configOrHandler with
                       | inl cfg => Some cfg
                       | inr _ => None
                       end);
                  method := m;
                  pathPattern := path;
                  entry := match configOrHandler, fn with
                           | inr handler, _ => handler
                           | inl _, Some handler => handler
                           | inl _, None => fun _ => Http.Returns Http.Void
                           end |}]).
Proof.
  destruct m, configOrHandler as [cfg|handler], fn as [f|];
    cbn [route accepted]; unfold Api.get, post, put, patch, del, registerHttpHandler,
      httpHost, getMetadata;
    cbn [fst snd];
    rewrite ?getHandlers_addHandler;
    (split; [reflexivity|]); (split; [reflexivity|]);
    (split; intros H; try discriminate H; split; reflexivity).
Qed.

Lemma run_snoc (s : State) (calls : list Call) (c : Call) :
  run s (calls ++ [c]) = step (run s calls) c.
Proof. unfold run. rewrite fold_left_app. reflexivity. Qed.

Lemma routes_snoc (calls : list Call) (c : Call) :
  routes (calls ++ [c]) = routes calls ++ routes [c].
Proof. unfold routes. rewrite flat_map_app. reflexivity. Qed.

Lemma asked_snoc (calls : list Call) (c : Call) :
  asked (calls ++ [c]) = (asked calls + asked [c])%nat.
Proof. unfold asked. rewrite filter_app, length_app. reflexivity. Qed.

Lemma combineConfig_get (base override : Obj Json) (k : string) :
  well_formed base -> well_formed override ->
  exists merged,
    combineConfig (Some base) (Some override) = Some merged
    /\ JS.get merged k = get_or override k (JS.get base k).
Proof.
  intros Hb Ho. eexists. split; [reflexivity|].
  rewrite (get_spread _ _ _ Ho). unfold get_or.
  destruct (JS.get override k); [reflexivity|].
  rewrite (get_spread _ _ _ Hb). unfold get_or. destruct (JS.get base k); reflexivity.
Qed.

(** X19. The registry after any sequence of [setMeta] and route calls
    ([get], [post], [put], [patch], [del]) on a loaded module. The
    handlers of type http are the accepted routes, in the order of the
    calls, [del] under the method DELETE; every route call prints one
    line, also when it fails. A route call with a configuration and no
    function throws and registers nothing; every other one appends one
    handler, which keeps the metadata of that moment however [setMeta] is
    called later, and whose configuration is the package's configuration
    with the handler's settings written over it key by key. *)
Theorem registry_keeps_routes_in_order :
  forall (calls : list Call),
    let s := run loaded calls in
    map (fun h => (method h, pathPattern h)) (getHandlers "http" s) = routes calls
    /\ List.length (console s) = asked calls
    /\ (forall m path configOrHandler fn,
           let after := route m path configOrHandler fn s in
           (accepted (Route m path configOrHandler fn) = false ->
            snd after = Throw "Please provide a handler function."
            /\ getHandlers "http" (fst after) = getHandlers "http" s)
           /\ (accepted (Route m path configOrHandler fn) = true ->
               exists h,
                 snd after = Normal tt
                 /\ getHandlers "http" (fst after) = getHandlers "http" s ++ [h]
                 /\ method h = m
                 /\ pathPattern h = path
                 /\ handler_meta h = metadata s
                 /\ (forall later,
                        exists rest,
                          getHandlers "http" (run (fst after) later)
                          = getHandlers "http" s ++ h :: rest)
                 /\ (forall handler, configOrHandler = inr handler ->
                                     entry h = handler
                                     /\ handler_config h
                                        = match metadata s with
                                          | Some md => config md
                                          | None => None
                                          end)
                 /\ (forall cfg md base k,
                        configOrHandler = inl cfg ->
                        metadata s = Some md -> config md = Some base ->
                        well_formed base -> well_formed cfg ->
                        exists merged,
                          handler_config h = Some merged
                          /\ JS.get merged k = get_or cfg k (JS.get base k)))).
Proof.
  intros calls s.
  assert (Hgrow : forall later x, exists rest,
             getHandlers "http" (run x later) = getHandlers "http" x ++ rest).
  { induction later as [|c later IH] using rev_ind; intros x.
    - exists []. rewrite app_nil_r. reflexivity.
    - rewrite run_snoc. destruct (IH x) as [rest Hrest].
      destruct c as [pn f rv cf|m path coh fn]; cbn [step].
      + exists rest. exact Hrest.
      + destruct (route_effect m path coh fn (run x later)) as [_ [_ [Hno Hyes]]].
        destruct (accepted (Route m path coh fn)).
        * destruct (Hyes eq_refl) as [_ Happ]. rewrite Happ, Hrest, <- app_assoc.
          eexists. reflexivity.
        * destruct (Hno eq_refl) as [_ Hsame]. rewrite Hsame. exists rest. exact Hrest. }
  split; [|split].
  - unfold s. induction calls as [|c calls IH] using rev_ind; [reflexivity|].
    rewrite run_snoc, routes_snoc. destruct c as [pn f rv cf|m path coh fn]; cbn [step].
    + rewrite app_nil_r. exact IH.
    + destruct (route_effect m path coh fn (run loaded calls)) as [_ [_ [Hno Hyes]]].
      cbn [routes flat_map]. destruct (accepted (Route m path coh fn)).
      * destruct (Hyes eq_refl) as [_ Happ]. rewrite Happ, map_app, IH. reflexivity.
      * destruct (Hno eq_refl) as [_ Hsame]. rewrite Hsame, IH, app_nil_r. reflexivity.
  - unfold s. induction calls as [|c calls IH] using rev_ind; [reflexivity|].
    rewrite run_snoc, asked_snoc. destruct c as [pn f rv cf|m path coh fn]; cbn [step].
    + cbn [setMeta console]. rewrite IH. cbn. lia.
    + destruct (route_effect m path coh fn (run loaded calls)) as [_ [Hprint _]].
      rewrite Hprint, length_app, IH. reflexivity.
  - intros m path configOrHandler fn after.
    destruct (route_effect m path configOrHandler fn s) as [_ [_ [Hno Hyes]]].
    fold after in Hno, Hyes. split; [exact Hno|].
    intros Hacc. destruct (Hyes Hacc) as [Hnormal Happ].
    eexists. split; [exact Hnormal|]. split; [exact Happ|].
    split; [reflexivity|]. split; [reflexivity|]. split; [reflexivity|].
    split; [|split].
    + intros later. destruct (Hgrow later (fst after)) as [rest Hrest].
      exists rest. rewrite Hrest, Happ, <- app_assoc. reflexivity.
    + intros handler ->. cbn [handler_config entry combineConfig]. split; [reflexivity|].
      destruct (metadata s) as [md|]; [|reflexivity].
      destruct (config md); reflexivity.
    + intros cfg md base k -> Hmd Hbase Hwb Hwc. cbn [handler_config].
      rewrite Hmd, Hbase. apply combineConfig_get; assumption.
Qed.

Lemma registry_keeps_routes_in_order_witness :
  snd (Api.route Registry.GET "/orders" (inl [("timeout", JNumber 5)]%string) None
         (Api.run Registry.loaded [Served.no_function]))
  = Throw "Please provide a handler function."
  /\ Registry.getHandlers "http"
       (Api.run Registry.loaded [Served.no_function; Served.no_function]) = [].
Proof.
  destruct (registry_keeps_routes_in_order [Served.no_function]) as [_ [_ Hroute]].
  destruct (Hroute Registry.GET "/orders"%string (inl [("timeout", JNumber 5)]%string) None)
    as [Hrefused _].
  destruct (Hrefused eq_refl) as [Hthrow Hsame].
  split; [exact Hthrow|]. exact Hsame.
Defined.

End RegistryFacts.
